(** * Clinical data harmonization: the cleaner and the two-stage matcher

    A shallow embedding of [harmonize.py] and [demo.py]: the text cleaner
    built by [create_cleaner] (a chain of [re.sub] passes driven by a
    knowledge base) and [find_best_match] (TF-IDF retrieval of at most twenty
    candidates, then a lexical rerank), with the loaders of the knowledge
    base and the [main] of each script.

    Conventions of the model.
    - A Python [str] is a list of characters; a character is a code point in
      0..255 and the character classes are those of Python 3 on that range.
    - [re.sub] is modelled by a backtracking matcher for the fragment of the
      [re] syntax the scripts use.  A pattern outside the fragment, and a
      pattern Python rejects, both give [None].
    - The scores of the rerank are Python floats: IEEE double-precision
      numbers, here Rocq's primitive floats, with every operation rounded
      as the processor rounds it.  The cosine similarities are only
      compared, with each other and with 0.1; they are rationals (every
      double is one, and no double lies between 1/10 and the double the
      literal [0.1] denotes, so the comparison with the threshold is the
      same).
    - The third-party functions (scikit-learn's vectorizer and cosine
      similarity, numpy's argsort, thefuzz's WRatio, NLTK's tokenizer and
      lemmatizer) are parameters.
    - A file is its content, or [None] when it does not exist; a table is
      the list of its rows, and the [STR] column of a reference table is
      taken to hold strings. *)

From Stdlib Require Import String Ascii NArith ZArith QArith Bool Arith Lia List.
From Stdlib Require Import Permutation Sorted Lqa.
From Stdlib Require Import Floats.
From Stdlib Require Uint63.
Import ListNotations.

Set Warnings "-inexact-float".

Open Scope nat_scope.

(** ** Python strings *)

Definition text := list ascii.

(** A string literal of the source as a [text]. *)
Definition t (s : string) : text := list_ascii_of_string s.
Arguments t s%_string.

Definition code (c : ascii) : N := N_of_ascii c.

Definition in_range (lo hi : N) (c : ascii) : bool :=
  (N.leb lo (code c) && N.leb (code c) hi)%bool.

(** [str.isspace] on one character, which is also the class [\s] of a [str]
    pattern: tab to carriage return, the four separators 28..31, space,
    NEL (133) and the no-break space (160). *)
Definition isspace (c : ascii) : bool :=
  in_range 9 13 c || in_range 28 32 c || N.eqb (code c) 133 || N.eqb (code c) 160.

(** The class [\d] of a [str] pattern: the decimal digits. *)
Definition isdecimal (c : ascii) : bool := in_range 48 57 c.

(** [str.isalnum] on one character: letters, and characters with a numeric
    value (superscripts and vulgar fractions included). *)
Definition isalnum (c : ascii) : bool :=
  in_range 48 57 c || in_range 65 90 c || in_range 97 122 c
  || N.eqb (code c) 170 || N.eqb (code c) 178 || N.eqb (code c) 179
  || N.eqb (code c) 181 || N.eqb (code c) 185 || N.eqb (code c) 186
  || in_range 188 190 c || in_range 192 214 c || in_range 216 246 c
  || in_range 248 255 c.

(** The class [\w] of a [str] pattern. *)
Definition isword (c : ascii) : bool := isalnum c || N.eqb (code c) 95.

Definition lower_char (c : ascii) : ascii :=
  if in_range 65 90 c || in_range 192 214 c || in_range 216 222 c
  then ascii_of_N (code c + 32) else c.

(** [str.lower] on the code points 0..255, where it maps each character to
    one character.  (Beyond that range it can lengthen a string: the
    lowercase of U+0130 has two code points.  No statement below compares a
    length across it.) *)
Definition lower (s : text) : text := map lower_char s.

Fixpoint lstrip (s : text) : text :=
  match s with
  | c :: s' => if isspace c then lstrip s' else s
  | [] => []
  end.

Definition rstrip (s : text) : text := rev (lstrip (rev s)).

(** [str.strip] with no argument *)
Definition strip (s : text) : text := rstrip (lstrip s).

(** [str.split] with no argument: the maximal runs of non-space characters.
    [cur] is the run being read, reversed. *)
Fixpoint split_aux (cur : text) (s : text) : list text :=
  match s with
  | [] => match cur with [] => [] | _ => [rev cur] end
  | c :: s' =>
      if isspace c
      then match cur with [] => split_aux [] s' | _ => rev cur :: split_aux [] s' end
      else split_aux (c :: cur) s'
  end.

Definition split (s : text) : list text := split_aux [] s.

(** [sep.join(words)] *)
Fixpoint join (sep : text) (words : list text) : text :=
  match words with
  | [] => []
  | [w] => w
  | w :: ws => w ++ sep ++ join sep ws
  end.

Definition text_eqb (a b : text) : bool :=
  if list_eq_dec ascii_dec a b then true else false.

(** ** Regular expressions: the fragment of [re] the scripts use *)

Inductive cls_item : Type :=
| CChar (c : ascii)
| CRange (lo hi : ascii)
| CDigit
| CSpace
| CWord.

(** [Plus r] is read as [Seq r (Star r)] and [r?] as [Alt r Eps], which is
    how a backtracking matcher treats the greedy quantifiers. *)
Inductive regex : Type :=
| Eps
| Chr (c : ascii)
| Dot
| Cls (neg : bool) (items : list cls_item)
| Bnd
| Seq (r1 r2 : regex)
| Alt (r1 r2 : regex)
| Star (r : regex).

Definition item_matches (i : cls_item) (c : ascii) : bool :=
  match i with
  | CChar x => Ascii.eqb x c
  | CRange lo hi => in_range (code lo) (code hi) c
  | CDigit => isdecimal c
  | CSpace => isspace c
  | CWord => isword c
  end.

Definition cls_matches (neg : bool) (items : list cls_item) (c : ascii) : bool :=
  xorb neg (existsb (fun i => item_matches i c) items).

Definition newline : ascii := ascii_of_N 10.

(** [\b]: exactly one of the two neighbours is a word character; the
    edges of the string count as non-word. *)
Definition word_before (prev : option ascii) : bool :=
  match prev with Some c => isword c | None => false end.

Definition word_after (s : text) : bool :=
  match s with c :: _ => isword c | [] => false end.

Definition at_boundary (prev : option ascii) (s : text) : bool :=
  xorb (word_before prev) (word_after s).

(** A position of the subject: the character before it, and the rest. *)
Definition pos : Type := option ascii * text.

(** The backtracking matcher, in continuation-passing style: [k] stands for
    the rest of the pattern, and the first success in priority order is the
    answer.  A [Star] iterates its body as long as the body consumes
    something; the fuel is the length of what is left. *)
Fixpoint rmatch (r : regex) (prev : option ascii) (s : text)
  (k : option ascii -> text -> option pos) {struct r} : option pos :=
  match r with
  | Eps => k prev s
  | Chr c =>
      match s with
      | x :: s' => if Ascii.eqb x c then k (Some x) s' else None
      | [] => None
      end
  | Dot =>
      match s with
      | x :: s' => if Ascii.eqb x newline then None else k (Some x) s'
      | [] => None
      end
  | Cls neg items =>
      match s with
      | x :: s' => if cls_matches neg items x then k (Some x) s' else None
      | [] => None
      end
  | Bnd => if at_boundary prev s then k prev s else None
  | Seq r1 r2 => rmatch r1 prev s (fun p' s' => rmatch r2 p' s' k)
  | Alt r1 r2 =>
      match rmatch r1 prev s k with
      | Some x => Some x
      | None => rmatch r2 prev s k
      end
  | Star r1 =>
      (fix loop (n : nat) (prev : option ascii) (s : text) : option pos :=
         match n with
         | 0 => k prev s
         | S n' =>
             match rmatch r1 prev s
                     (fun p' s' =>
                        if length s' <? length s then loop n' p' s' else None)
             with
             | Some x => Some x
             | None => k prev s
             end
         end) (length s) prev s
  end.

(** One attempt of the search at a position.  With [must_advance] an empty
    match is refused, and the matcher backtracks for a longer one. *)
Definition match_at (r : regex) (must_advance : bool) (prev : option ascii)
  (s : text) : option pos :=
  rmatch r prev s
    (fun p' s' =>
       if must_advance && (length s' =? length s) then None else Some (p', s')).

(** The loop of [re.sub]: search from the current position, copy what was
    skipped, emit the replacement, resume where the match ended.  After an
    empty match the next search must advance at its first position. *)
Fixpoint sub_loop (fuel : nat) (r : regex) (repl : text) (must_advance : bool)
  (prev : option ascii) (s : text) : text :=
  match fuel with
  | 0 => s
  | S f =>
      match match_at r must_advance prev s with
      | Some (p', s') => repl ++ sub_loop f r repl (length s' =? length s) p' s'
      | None =>
          match s with
          | [] => []
          | c :: s' => c :: sub_loop f r repl false (Some c) s'
          end
      end
  end.

Definition sub (r : regex) (repl : text) (s : text) : text :=
  sub_loop (2 * length s + 2) r repl false None s.

(** ** Parsing a pattern *)

Definition is_ascii_alnum (c : ascii) : bool :=
  in_range 48 57 c || in_range 65 90 c || in_range 97 122 c.

(** Characters with a meaning of their own in a pattern. *)
Definition is_special (c : ascii) : bool :=
  existsb (Ascii.eqb c) (t ".^$*+?{}[]\|()").

(** Can [r] match the empty string?  A repetition of such a body is left
    out of the fragment. *)
Fixpoint nullable (r : regex) : bool :=
  match r with
  | Eps | Bnd | Star _ => true
  | Chr _ | Dot | Cls _ _ => false
  | Seq r1 r2 => nullable r1 && nullable r2
  | Alt r1 r2 => nullable r1 || nullable r2
  end.

(** An escape outside a class: [\b], the categories, or a character that is
    no ASCII letter or digit standing for itself (which is all that
    [re.escape] produces). *)
Definition parse_escape (c : ascii) : option regex :=
  if Ascii.eqb c "b" then Some Bnd
  else if Ascii.eqb c "d" then Some (Cls false [CDigit])
  else if Ascii.eqb c "s" then Some (Cls false [CSpace])
  else if Ascii.eqb c "w" then Some (Cls false [CWord])
  else if is_ascii_alnum c then None
  else Some (Chr c).

Definition parse_class_escape (c : ascii) : option cls_item :=
  if Ascii.eqb c "d" then Some CDigit
  else if Ascii.eqb c "s" then Some CSpace
  else if Ascii.eqb c "w" then Some CWord
  else if is_ascii_alnum c then None
  else Some (CChar c).

Definition class_plain (c : ascii) : bool :=
  negb (existsb (Ascii.eqb c) (t "[]\-^")).

(** The items of a class up to its closing bracket: plain characters,
    ranges between two plain characters, and escapes. *)
Fixpoint parse_class_items (s : text) : option (list cls_item * text) :=
  match s with
  | [] => None
  | c :: s1 =>
      if Ascii.eqb c "]" then Some ([], s1)
      else if Ascii.eqb c "\" then
        match s1 with
        | e :: s2 =>
            match parse_class_escape e, parse_class_items s2 with
            | Some i, Some (its, rest) => Some (i :: its, rest)
            | _, _ => None
            end
        | [] => None
        end
      else if class_plain c then
        match s1 with
        | d :: s2 =>
            if Ascii.eqb d "-" then
              match s2 with
              | hi :: s3 =>
                  if class_plain hi && N.leb (code c) (code hi) then
                    match parse_class_items s3 with
                    | Some (its, rest) => Some (CRange c hi :: its, rest)
                    | None => None
                    end
                  else None
              | [] => None
              end
            else
              match parse_class_items s1 with
              | Some (its, rest) => Some (CChar c :: its, rest)
              | None => None
              end
        | [] => None
        end
      else None
  end.

Definition parse_class (s : text) : option (regex * text) :=
  match s with
  | c :: s1 =>
      if Ascii.eqb c "^" then
        match s1 with
        | d :: _ =>
            if Ascii.eqb d "]" then None
            else match parse_class_items s1 with
                 | Some (its, rest) => Some (Cls true its, rest)
                 | None => None
                 end
        | [] => None
        end
      else if Ascii.eqb c "]" then None
      else match parse_class_items s with
           | Some (its, rest) => Some (Cls false its, rest)
           | None => None
           end
  | [] => None
  end.

Definition is_quantifier (c : ascii) : bool :=
  Ascii.eqb c "*" || Ascii.eqb c "+" || Ascii.eqb c "?".

(** The greedy quantifier after an atom, if there is one.  A second
    quantifier sign (the lazy and possessive forms) and a quantified [\b]
    are refused. *)
Definition parse_quantifier (a : regex) (s : text) : option (regex * text) :=
  match s with
  | q :: s1 =>
      if is_quantifier q then
        match a with
        | Bnd => None
        | _ =>
            if match s1 with q2 :: _ => is_quantifier q2 | [] => false end
            then None
            else if Ascii.eqb q "?" then Some (Alt a Eps, s1)
            else if nullable a then None
            else if Ascii.eqb q "*" then Some (Star a, s1)
            else Some (Seq a (Star a), s1)
        end
      else Some (a, s)
  | [] => Some (a, s)
  end.

(** Alternation, sequence and atom, by recursive descent. *)
Fixpoint parse_alt (n : nat) (s : text) : option (regex * text) :=
  match n with
  | 0 => None
  | S n' =>
      match parse_seq n' s with
      | Some (r1, c :: s1) =>
          if Ascii.eqb c "|" then
            match parse_alt n' s1 with
            | Some (r2, s2) => Some (Alt r1 r2, s2)
            | None => None
            end
          else Some (r1, c :: s1)
      | other => other
      end
  end
with parse_seq (n : nat) (s : text) : option (regex * text) :=
  match n with
  | 0 => None
  | S n' =>
      match s with
      | [] => Some (Eps, s)
      | c :: _ =>
          if Ascii.eqb c "|" || Ascii.eqb c ")" then Some (Eps, s)
          else
            match parse_atom n' s with
            | Some (a, s1) =>
                match parse_quantifier a s1 with
                | Some (a', s2) =>
                    match parse_seq n' s2 with
                    | Some (r, s3) => Some (Seq a' r, s3)
                    | None => None
                    end
                | None => None
                end
            | None => None
            end
      end
  end
with parse_atom (n : nat) (s : text) : option (regex * text) :=
  match n with
  | 0 => None
  | S n' =>
      match s with
      | [] => None
      | c :: s1 =>
          if Ascii.eqb c "(" then
            match s1 with
            | d :: _ =>
                if Ascii.eqb d "?" then None
                else match parse_alt n' s1 with
                     | Some (r, e :: s2) =>
                         if Ascii.eqb e ")" then Some (r, s2) else None
                     | _ => None
                     end
            | [] => None
            end
          else if Ascii.eqb c "[" then parse_class s1
          else if Ascii.eqb c "\" then
            match s1 with
            | e :: s2 =>
                match parse_escape e with
                | Some r => Some (r, s2)
                | None => None
                end
            | [] => None
            end
          else if Ascii.eqb c "." then Some (Dot, s1)
          else if is_special c then None
          else Some (Chr c, s1)
      end
  end.

(** [re.compile] on the fragment. *)
Definition re_compile (pattern : text) : option regex :=
  match parse_alt (3 * length pattern + 3) pattern with
  | Some (r, []) => Some r
  | _ => None
  end.

(** A replacement with a backslash is a template; only literal replacements
    are modelled. *)
Definition is_literal_repl (repl : text) : bool :=
  negb (existsb (Ascii.eqb "\") repl).

(** [re.sub(pattern, repl, string)] *)
Definition re_sub (pattern repl s : text) : option text :=
  match re_compile pattern with
  | Some r => if is_literal_repl repl then Some (sub r repl s) else None
  | None => None
  end.

(** [re.escape]: a backslash before each character of the list below. *)
Definition escaped_chars : text :=
  t "()[]{}?*+-|^$\.&~# " ++ map ascii_of_N [9; 10; 13; 11; 12]%N.

Definition re_escape (s : text) : text :=
  flat_map (fun c => if existsb (Ascii.eqb c) escaped_chars then ["\"%char; c] else [c]) s.

(** ** Python values and the error monad of the cleaner *)

(** What a cell of the input table may hold: a string, or something else
    (a missing cell is [None] or a float NaN). *)
Inductive pyval : Type :=
| PyStr (s : text)
| PyNone
| PyInt (z : Z)
| PyFloat (q : Q)
| PyNaN.

Definition obind {A B : Type} (m : option A) (f : A -> option B) : option B :=
  match m with
  | Some a => f a
  | None => None
  end.

Notation "x <- m ;; f" := (obind m (fun x => f))
  (at level 61, m at next level, right associativity).

(** ** The knowledge base *)

(** A correction map is a [dict]: keys are unique and iteration follows
    insertion order, so it is an association list. *)
Definition correction_map_t : Type := list (text * text).

Definition unique_keys (m : correction_map_t) : Prop := NoDup (map fst m).

(** [sorted(items, key=lambda item: len(item[0]), reverse=True)]: a stable
    sort by descending key length (items of equal key length keep their
    order). *)
Fixpoint insert_by_len (x : text * text) (l : list (text * text)) : list (text * text) :=
  match l with
  | [] => [x]
  | y :: l' =>
      if length (fst x) <? length (fst y) then y :: insert_by_len x l' else x :: l
  end.

Definition sorted_by_len (m : correction_map_t) : list (text * text) :=
  fold_right insert_by_len [] m.

(** [m[key] = value]: a key already present keeps its place. *)
Fixpoint dict_set (m : correction_map_t) (key value : text) : correction_map_t :=
  match m with
  | [] => [(key, value)]
  | (k, v) :: m' =>
      if text_eqb k key then (k, value) :: m' else (k, v) :: dict_set m' key value
  end.

Definition colon : ascii := ":"%char.

(** [s.split(':', 1)] on a string that has a colon: what stands before the
    first colon, and what stands after it. *)
Fixpoint split_colon (s : text) : text * text :=
  match s with
  | [] => ([], [])
  | c :: s' =>
      if Ascii.eqb c colon then ([], s')
      else let (a, b) := split_colon s' in (c :: a, b)
  end.

(** The body of the loop of [load_correction_map]. *)
Definition load_line (m : correction_map_t) (line : text) : correction_map_t :=
  if existsb (Ascii.eqb colon) line
  then let (key, value) := split_colon (strip line) in
       dict_set m (strip key) (strip value)
  else m.

(** [load_correction_map]: the lines of the file, or [None] when the file
    does not exist. *)
Definition load_correction_map (file : option (list text)) : correction_map_t :=
  match file with
  | Some lines => fold_left load_line lines []
  | None => []
  end.

(** [load_redundant_keywords] *)
Definition load_redundant_keywords (file : option (list text)) : list text :=
  match file with
  | Some lines =>
      map strip (filter (fun line => match strip line with [] => false | _ => true end) lines)
  | None => []
  end.

(** The passes of both cleaners, one definition per statement of the
    source. *)
Definition strip_sig (s : text) : option text :=
  re_sub (t "sig:.*") (t "") s.

Definition strip_take (s : text) : option text :=
  re_sub (t "take \d+(\s*\(.*\))? tablet\(s\)?") (t "") s.

Definition strip_dose (s : text) : option text :=
  re_sub (t "\d+(\.\d+)?\s*(mg|ml|mcg|unit|units|g|gram|grams)\b") (t "") s.

Definition strip_stop_phrases (s : text) : option text :=
  re_sub
    (t "\b(by|via|every|with|as needed|at bedtime|oral|route|injection|topically)\b")
    (t "") s.

(** One iteration of the corrections loop. *)
Definition apply_correction (s : text) (rule : text * text) : option text :=
  re_sub (t "\b" ++ re_escape (fst rule) ++ t "\b") (snd rule) s.

(** One iteration of the keywords loop: the keyword goes into the pattern
    as it is. *)
Definition remove_keyword (s : text) (word : text) : option text :=
  re_sub (t "\b" ++ word ++ t "\b") (t "") s.

(** A [for] loop whose body may raise. *)
Definition for_each {A : Type} (body : text -> A -> option text) (l : list A)
  (s : text) : option text :=
  fold_left (fun acc x => s' <- acc ;; body s' x) l (Some s).

Definition apply_corrections (correction_map : correction_map_t) (s : text) : option text :=
  for_each apply_correction (sorted_by_len correction_map) s.

Definition remove_keywords (redundant_keywords : list text) (s : text) : option text :=
  for_each remove_keyword redundant_keywords s.

Definition replace_other_chars (s : text) : option text :=
  re_sub (t "[^a-z0-9\s]") (t " ") s.

Definition collapse_spaces (s : text) : option text :=
  re_sub (t "\s+") (t " ") s.

(** ** The third-party functions *)

Class Libraries : Type := {
  (** a fitted [TfidfVectorizer] *)
  Vectorizer : Type;
  (** a sparse matrix of TF-IDF rows *)
  Matrix : Type;
  (** [vectorizer.transform([description])] *)
  transform : Vectorizer -> text -> Matrix;
  (** [cosine_similarity(x, m).flatten()], for a call that returns: one
      similarity per row of [m].  (On a matrix without rows scikit-learn
      raises a [ValueError] instead of returning an empty array; a fitted
      matrix has a row, since fitting to no document raises.) *)
  cosine_similarity : Matrix -> Matrix -> list Q;
  (** [ndarray.argsort()] *)
  argsort : list Q -> list nat;
  (** [fuzz.WRatio] *)
  WRatio : text -> text -> Z;
  (** [nltk.word_tokenize] *)
  word_tokenize : text -> list text;
  (** [WordNetLemmatizer().lemmatize] *)
  lemmatize : text -> text
}.

(** ** Tables, results and the monad of the matcher *)

(** A row of a reference table: the columns [STR], [CODE] (as [str] shows
    it) and the [Cleaned_STR] column the driver adds. *)
Record Row : Type := {
  STR : text;
  CODE : text;
  Cleaned_STR : text
}.

Definition DataFrame : Type := list Row.

(** The dict [find_best_match] returns. *)
Record MatchResult : Type := {
  System : text;
  Code : text;
  Description : text
}.

(** Calls into scikit-learn, in the order they are made. *)
Inductive event : Type :=
| EvTransform (description : text)
| EvCosineSimilarity.

(** A computation that logs its scikit-learn calls and may raise
    (an [IndexError]). *)
Definition M (A : Type) : Type := list event * option A.

Definition ret {A : Type} (a : A) : M A := ([], Some a).

Definition bind {A B : Type} (m : M A) (f : A -> M B) : M B :=
  match m with
  | (log, Some a) => let (log', b) := f a in (log ++ log', b)
  | (log, None) => (log, None)
  end.

Notation "x <~ m ;; f" := (bind m (fun x => f))
  (at level 61, m at next level, right associativity).

Definition lift {A : Type} (o : option A) : M A := ([], o).

Definition log_of {A : Type} (m : M A) : list event := fst m.

Definition result_of {A : Type} (m : M A) : option A := snd m.

(** [data.iloc[i]]: a negative position counts from the end; a position
    outside the table raises. *)
Definition iloc (data : DataFrame) (i : Z) : option Row :=
  if (i <? 0)%Z
  then if (- i <=? Z.of_nat (length data))%Z
       then nth_error data (length data - Z.to_nat (- i))
       else None
  else nth_error data (Z.to_nat i).

(** [a[-n:]] *)
Definition last_n {A : Type} (n : nat) (l : list A) : list A :=
  skipn (length l - n) l.

(** [set(words)] as a list without repetition, [a.intersection(b)] and
    [len]. *)
Definition text_dec : forall a b : text, {a = b} + {a <> b} := list_eq_dec ascii_dec.

Definition set_of (words : list text) : list text := nodup text_dec words.

Definition intersection (a b : list text) : list text :=
  filter (fun w => if in_dec text_dec w b then true else false) a.

Definition Qltb (a b : Q) : bool :=
  match Qcompare a b with Lt => true | _ => false end.

(** The [float] of an [int], as Python converts one operand of [/] and of
    [*] when the other is a float.  The integers met here are lengths of
    lists and scores of thefuzz, far below 2^53, where the conversion is
    exact; [of_uint63] reads an integer below 2^63. *)
Definition float_of_Z (z : Z) : float :=
  if (z <? 0)%Z then (- of_uint63 (Uint63.of_Z (- z)))%float
  else of_uint63 (Uint63.of_Z z).

Definition float_of_nat (n : nat) : float := float_of_Z (Z.of_nat n).

(** [(len(inter) / len(input_words)) * 100 if input_words else 0]: the true
    division of two integers, then a product with 100, each rounded. *)
Definition overlap_score (input_words candidate_words : list text) : float :=
  match input_words with
  | [] => 0
  | _ =>
      (float_of_nat (length (intersection input_words candidate_words))
       / float_of_nat (length input_words)) * 100
  end%float.

(** [(wratio_score * 0.4) + (overlap_score * 0.6)]: two rounded products
    with the doubles the literals denote, then a rounded sum. *)
Definition final_score (wratio_score : Z) (overlap : float) : float :=
  (float_of_Z wratio_score * 0.4 + overlap * 0.6)%float.

Definition entity_in (entity_type : pyval) (labels : list text) : bool :=
  match entity_type with
  | PyStr s => existsb (text_eqb s) labels
  | _ => false
  end.

Definition not_found (system : text) : MatchResult :=
  {| System := system; Code := t "NOT_FOUND";
     Description := t "No suitable match found" |}.

Definition no_input (system : text) : MatchResult :=
  {| System := system; Code := t "NO_INPUT";
     Description := t "Original text was empty after cleaning" |}.

(** ** harmonize.py *)

Module Harmonize.

Section Cleaner.
Variable correction_map : correction_map_t.
Variable redundant_keywords : list text.

(** [create_cleaner(correction_map, redundant_keywords)] returns this
    closure. *)
Definition clean_and_standardize (text0 : pyval) : option text :=
  match text0 with
  | PyStr text0 =>
      let text1 := strip (lower text0) in
      text2 <- strip_sig text1 ;;
      text3 <- strip_take text2 ;;
      text4 <- strip_dose text3 ;;
      text5 <- strip_stop_phrases text4 ;;
      text6 <- apply_corrections correction_map text5 ;;
      text7 <- remove_keywords redundant_keywords text6 ;;
      text8 <- replace_other_chars text7 ;;
      text9 <- collapse_spaces text8 ;;
      Some (strip text9)
  | _ => Some []
  end.

End Cleaner.

Definition create_cleaner (correction_map : correction_map_t)
  (redundant_keywords : list text) : pyval -> option text :=
  clean_and_standardize correction_map redundant_keywords.

Section Matcher.
Context {L : Libraries}.

(** [similarities.argsort()[-20:][::-1]] *)
Definition candidate_indices_of (similarities : list Q) : list nat :=
  rev (last_n 20 (argsort similarities)).

(** The body of the rerank loop: the best score and index so far, then the
    candidate [idx]. *)
Definition rerank_step (description : text) (data : DataFrame)
  (input_words : list text) (best : float * Z) (idx : nat) : option (float * Z) :=
  row <- iloc data (Z.of_nat idx) ;;
  let candidate_str := Cleaned_STR row in
  let wratio_score := WRatio description candidate_str in
  let candidate_words := set_of (split candidate_str) in
  let overlap := overlap_score input_words candidate_words in
  let final := final_score wratio_score overlap in
  if (fst best <? final)%float then Some (final, Z.of_nat idx) else Some best.

Definition rerank (description : text) (data : DataFrame)
  (candidate_indices : list nat) : option (float * Z) :=
  let input_words := set_of (split description) in
  fold_left
    (fun acc idx => best <- acc ;; rerank_step description data input_words best idx)
    candidate_indices (Some ((-1)%float, (- 1)%Z)).

Definition find_best_match (description : text) (entity_type : pyval)
  (snomed_data rxnorm_data : DataFrame) (snomed_tfidf rxnorm_tfidf : Matrix)
  (snomed_vectorizer rxnorm_vectorizer : Vectorizer) : M MatchResult :=
  let is_snomed := entity_in entity_type [t "Procedure"; t "Lab"; t "Diagnosis"] in
  let '(data, tfidf_matrix, vectorizer, system) :=
    if is_snomed
    then (snomed_data, snomed_tfidf, snomed_vectorizer, t "SNOMEDCT_US")
    else (rxnorm_data, rxnorm_tfidf, rxnorm_vectorizer, t "RXNORM") in
  match strip description with
  | [] => ret (no_input system)
  | _ =>
      desc_tfidf <~ ([EvTransform description], Some (transform vectorizer description)) ;;
      similarities <~ ([EvCosineSimilarity], Some (cosine_similarity desc_tfidf tfidf_matrix)) ;;
      let candidate_indices := candidate_indices_of similarities in
      match candidate_indices with
      | [] => ret (not_found system)
      | top :: _ =>
          top_similarity <~ lift (nth_error similarities top) ;;
          if Qltb top_similarity (1 # 10) then ret (not_found system)
          else
            best <~ lift (rerank description data candidate_indices) ;;
            row <~ lift (iloc data (snd best)) ;;
            ret {| System := system; Code := CODE row; Description := STR row |}
      end
  end.

End Matcher.

End Harmonize.

(** ** demo.py *)

Module Demo.

Section Cleaner.
Context {L : Libraries}.
Variable correction_map : correction_map_t.
Variable redundant_keywords : list text.

(** The tokenize, lemmatize and join statements. *)
Definition lemmatize_words (s : text) : text :=
  let words := word_tokenize s in
  let lemmatized_words := map lemmatize words in
  join (t " ") lemmatized_words.

Definition clean_and_standardize (text0 : pyval) : option text :=
  match text0 with
  | PyStr text0 =>
      let text1 := strip (lower text0) in
      text2 <- strip_sig text1 ;;
      text3 <- strip_take text2 ;;
      text4 <- strip_dose text3 ;;
      text5 <- strip_stop_phrases text4 ;;
      text6 <- apply_corrections correction_map text5 ;;
      text7 <- remove_keywords redundant_keywords text6 ;;
      let text8 := lemmatize_words text7 in
      text9 <- replace_other_chars text8 ;;
      text10 <- collapse_spaces text9 ;;
      Some (strip text10)
  | _ => Some []
  end.

End Cleaner.

Definition create_cleaner {L : Libraries} (correction_map : correction_map_t)
  (redundant_keywords : list text) : pyval -> option text :=
  clean_and_standardize correction_map redundant_keywords.

Section Matcher.
Context {L : Libraries}.

(** [similarities.argsort()[-20:][::-1]] *)
Definition candidate_indices_of (similarities : list Q) : list nat :=
  rev (last_n 20 (argsort similarities)).

(** The body of the rerank loop: the best score and index so far, then the
    candidate [idx]. *)
Definition rerank_step (description : text) (data : DataFrame)
  (input_words : list text) (best : float * Z) (idx : nat) : option (float * Z) :=
  row <- iloc data (Z.of_nat idx) ;;
  let candidate_str := Cleaned_STR row in
  let wratio_score := WRatio description candidate_str in
  let candidate_words := set_of (split candidate_str) in
  let overlap := overlap_score input_words candidate_words in
  let final := final_score wratio_score overlap in
  if (fst best <? final)%float then Some (final, Z.of_nat idx) else Some best.

Definition rerank (description : text) (data : DataFrame)
  (candidate_indices : list nat) : option (float * Z) :=
  let input_words := set_of (split description) in
  fold_left
    (fun acc idx => best <- acc ;; rerank_step description data input_words best idx)
    candidate_indices (Some ((-1)%float, (- 1)%Z)).

Definition find_best_match (description : text) (entity_type : pyval)
  (snomed_data rxnorm_data : DataFrame) (snomed_tfidf rxnorm_tfidf : Matrix)
  (snomed_vectorizer rxnorm_vectorizer : Vectorizer) : M MatchResult :=
  let is_snomed := entity_in entity_type [t "Procedure"; t "Lab"; t "Diagnosis"] in
  let '(data, tfidf_matrix, vectorizer, system) :=
    if is_snomed
    then (snomed_data, snomed_tfidf, snomed_vectorizer, t "SNOMEDCT_US")
    else (rxnorm_data, rxnorm_tfidf, rxnorm_vectorizer, t "RXNORM") in
  match strip description with
  | [] => ret (no_input system)
  | _ =>
      desc_tfidf <~ ([EvTransform description], Some (transform vectorizer description)) ;;
      similarities <~ ([EvCosineSimilarity], Some (cosine_similarity desc_tfidf tfidf_matrix)) ;;
      let candidate_indices := candidate_indices_of similarities in
      match candidate_indices with
      | [] => ret (not_found system)
      | top :: _ =>
          top_similarity <~ lift (nth_error similarities top) ;;
          if Qltb top_similarity (1 # 10) then ret (not_found system)
          else
            best <~ lift (rerank description data candidate_indices) ;;
            row <~ lift (iloc data (snd best)) ;;
            ret {| System := system; Code := CODE row; Description := STR row |}
      end
  end.

End Matcher.

End Demo.

(** ** What the third-party functions are assumed to guarantee *)

(** numpy's contract for [argsort]: a permutation of the positions that
    lists the values in ascending order (the order among equal values is
    not part of the contract for the default sort kind); thefuzz's contract
    for [WRatio]: a score between 0 and 100. *)
Class LibrariesOk (L : Libraries) : Prop := {
  argsort_perm : forall l, Permutation (argsort l) (seq 0 (length l));
  argsort_sorted :
    forall l, StronglySorted (fun i j => nth i l 0 <= nth j l 0)%Q (argsort l);
  WRatio_range : forall a b, (0 <= WRatio a b <= 100)%Z
}.

(** ** A concrete instance of the libraries, for running the model *)

(** A stable ascending argsort by insertion: position [i] goes before the
    first later position whose value is not smaller. *)
Fixpoint insert_idx (sims : list Q) (i : nat) (l : list nat) : list nat :=
  match l with
  | [] => [i]
  | j :: l' =>
      if Qltb (nth j sims 0%Q) (nth i sims 0%Q) then j :: insert_idx sims i l' else i :: l
  end.

Definition stable_argsort (sims : list Q) : list nat :=
  fold_right (insert_idx sims) [] (seq 0 (length sims)).

(** A scorer that only tells equal strings from different ones. *)
Definition exact_ratio (a b : text) : Z := if text_eqb a b then 100%Z else 0%Z.

(** A lemmatizer that knows one plural. *)
Definition plural_lemmatize (w : text) : text :=
  if text_eqb w (t "hours") then t "hour" else w.

(** In this instance a fitted matrix stores, for each row, the similarity
    every query gets. *)
#[local] Instance sample_libraries : Libraries := {|
  Vectorizer := unit;
  Matrix := list Q;
  transform := fun _ _ => [];
  cosine_similarity := fun _ m => m;
  argsort := stable_argsort;
  WRatio := exact_ratio;
  word_tokenize := split;
  lemmatize := plural_lemmatize
|}.



(** * Definitions used in the statements *)

(** ** Routing and search *)

Definition snomed_types : list text := [t "Procedure"; t "Lab"; t "Diagnosis"].

Section RoutingDefinitions.
Context {L : Libraries}.

(** The table, matrix, vectorizer and label the first two statements of
    [find_best_match] select. *)
Definition route (entity_type : pyval) (snomed_data rxnorm_data : DataFrame)
  (snomed_tfidf rxnorm_tfidf : Matrix)
  (snomed_vectorizer rxnorm_vectorizer : Vectorizer)
  : DataFrame * Matrix * Vectorizer * text :=
  if entity_in entity_type snomed_types
  then (snomed_data, snomed_tfidf, snomed_vectorizer, t "SNOMEDCT_US")
  else (rxnorm_data, rxnorm_tfidf, rxnorm_vectorizer, t "RXNORM").

(** The statements of [find_best_match] after the routing assignment, as a
    function of what was selected. *)
Definition search (data : DataFrame) (tfidf_matrix : Matrix)
  (vectorizer : Vectorizer) (system : text) (description : text) : M MatchResult :=
  match strip description with
  | [] => ret (no_input system)
  | _ =>
      desc_tfidf <~ ([EvTransform description], Some (transform vectorizer description)) ;;
      similarities <~ ([EvCosineSimilarity], Some (cosine_similarity desc_tfidf tfidf_matrix)) ;;
      let candidate_indices := Harmonize.candidate_indices_of similarities in
      match candidate_indices with
      | [] => ret (not_found system)
      | top :: _ =>
          top_similarity <~ lift (nth_error similarities top) ;;
          if Qltb top_similarity (1 # 10) then ret (not_found system)
          else
            best <~ lift (Harmonize.rerank description data candidate_indices) ;;
            row <~ lift (iloc data (snd best)) ;;
            ret {| System := system; Code := CODE row; Description := STR row |}
      end
  end.

End RoutingDefinitions.

(** ** Scores and the choice of the rerank loop *)


Definition float_le (a b : float) : Prop := (a <=? b)%float = true.


(** Zero or above, and not NaN; finite and above zero. *)
Definition SFnonneg (x : spec_float) : bool :=
  match x with
  | S754_zero _ => true
  | S754_infinity s => negb s
  | S754_nan => false
  | S754_finite s _ _ => negb s
  end.

Definition SFpositive (x : spec_float) : bool :=
  match x with
  | S754_finite false _ _ => true
  | _ => false
  end.

Definition float_nonneg (x : float) : Prop := SFnonneg (Prim2SF x) = true.

Definition float_positive (x : float) : Prop := SFpositive (Prim2SF x) = true.

Section ArgMaxDefinitions.
Variable f : nat -> float.

(** The update of the loop for a candidate of score [f idx]. *)
Definition pick (best : float * Z) (idx : nat) : float * Z :=
  if (fst best <? f idx)%float then (f idx, Z.of_nat idx) else best.

(** [b], at position [i] of [l]: no candidate of [l] scores above it and
    no earlier candidate reaches its score. *)
Definition first_max (l : list nat) (i b : nat) : Prop :=
  nth_error l i = Some b
  /\ (forall j c, nth_error l j = Some c -> (f b <? f c)%float = false)
  /\ (forall j c, j < i -> nth_error l j = Some c -> (f b <=? f c)%float = false).

End ArgMaxDefinitions.

Section ScoreDefinitions.
Context {L : Libraries}.

(** The score the loop gives a row: lines 81 to 84 of harmonize.py. *)
Definition candidate_score (description : text) (row : Row) : float :=
  final_score
    (WRatio description (Cleaned_STR row))
    (overlap_score (set_of (split description)) (set_of (split (Cleaned_STR row)))).

(** The score of the row at a position of the table. *)
Definition score_at (description : text) (data : DataFrame) (idx : nat) : float :=
  match nth_error data idx with
  | Some row => candidate_score description row
  | None => 0%float
  end.

End ScoreDefinitions.




(** ** Sample tables *)

Definition metformin_row : Row :=
  {| STR := t "Metformin"; CODE := t "6809"; Cleaned_STR := t "metformin" |}.

Definition aspirin_row : Row :=
  {| STR := t "Aspirin"; CODE := t "1191"; Cleaned_STR := t "aspirin" |}.


Definition metformin_table : DataFrame := [aspirin_row; metformin_row].



(** Twenty-one similarities in ascending order, with a tie between the two
    lowest and a tie between the two highest. *)
Definition tied_similarities : list Q :=
  [5 # 100; 5 # 100; 10 # 100; 11 # 100; 12 # 100; 13 # 100; 14 # 100;
   15 # 100; 16 # 100; 17 # 100; 18 # 100; 19 # 100; 20 # 100; 21 # 100;
   22 # 100; 23 # 100; 24 # 100; 25 # 100; 26 # 100; 27 # 100; 27 # 100].

(** ** The passes of the cleaners *)

(** The six stripping passes, from the instruction suffix to the redundant
    keywords. *)
Definition regex_passes (correction_map : correction_map_t)
  (redundant_keywords : list text) (s : text) : option text :=
  text2 <- strip_sig s ;;
  text3 <- strip_take text2 ;;
  text4 <- strip_dose text3 ;;
  text5 <- strip_stop_phrases text4 ;;
  text6 <- apply_corrections correction_map text5 ;;
  remove_keywords redundant_keywords text6.

(** Lowercasing, trimming and the stripping passes: what both cleaners do
    before the final cleanup. *)
Definition strip_passes (correction_map : correction_map_t)
  (redundant_keywords : list text) (s : text) : option text :=
  regex_passes correction_map redundant_keywords (strip (lower s)).

(** The final cleanup of both cleaners. *)
Definition tidy (s : text) : option text :=
  text8 <- replace_other_chars s ;;
  text9 <- collapse_spaces text8 ;;
  Some (strip text9).

Definition example_description : text :=
  t "Take 2 (chewable) tablet(s) by mouth every 8 hours Metformin 500mg".

(** What the four fixed stripping passes leave of the example: the take
    phrase, the dose, by and every are gone; mouth, 8 and hours are not. *)
Definition example_residue : text := t "  mouth  8 hours metformin ".

(** Keywords that remove the rest of the dosing instruction. *)
Definition example_keywords : list text := [t "mouth"; t "hours"; t "8"].

(** ** The final cleanup, directly *)

(** The iteration of a [Star], named. *)
Definition star_loop (r : regex) (k : option ascii -> text -> option pos)
  : nat -> option ascii -> text -> option pos :=
  fix loop (n : nat) (prev : option ascii) (s : text) : option pos :=
    match n with
    | 0 => k prev s
    | S n' =>
        match rmatch r prev s
                (fun p' s' => if length s' <? length s then loop n' p' s' else None)
        with
        | Some x => Some x
        | None => k prev s
        end
    end.

Definition other_chars_re : regex :=
  Seq (Cls true [CRange "a" "z"; CRange "0" "9"; CSpace]) Eps.

Definition spaces_re : regex :=
  Seq (Seq (Cls false [CSpace]) (Star (Cls false [CSpace]))) Eps.

(** A character the final cleanup keeps: a lowercase ASCII letter, a digit
    or a space character. *)
Definition keeps (c : ascii) : bool :=
  negb (cls_matches true [CRange "a" "z"; CRange "0" "9"; CSpace] c).

Definition blank (c : ascii) : ascii := if keeps c then c else " "%char.

(** Runs of space characters, each replaced by one space; [in_run] tells
    that the previous character was a space character. *)
Fixpoint collapse (in_run : bool) (s : text) : text :=
  match s with
  | [] => []
  | c :: s' =>
      if isspace c
      then if in_run then collapse true s' else " "%char :: collapse true s'
      else c :: collapse false s'
  end.

(** Where a run of space characters ends. *)
Fixpoint skip_spaces (prev : option ascii) (s : text) : pos :=
  match s with
  | c :: s' => if isspace c then skip_spaces (Some c) s' else (prev, s)
  | [] => (prev, [])
  end.

(** A lowercase ASCII letter or a digit. *)
Definition clean_char (c : ascii) : bool :=
  cls_matches false [CRange "a" "z"; CRange "0" "9"] c.

(** Clean characters and spaces, with no two spaces in a row; with
    [after_space] the text does not start with a space either. *)
Fixpoint spaced (after_space : bool) (s : text) : bool :=
  match s with
  | [] => true
  | c :: s' =>
      if Ascii.eqb c " " then negb after_space && spaced true s'
      else clean_char c && spaced false s'
  end.

(** [rstrip] without reversing. *)
Fixpoint rstrip_rec (s : text) : text :=
  match s with
  | [] => []
  | c :: s' =>
      match rstrip_rec s' with
      | [] => if isspace c then [] else [c]
      | r => c :: r
      end
  end.

(** Words of lowercase letters and digits, separated by single spaces. *)
Definition normal (s : text) : Prop := spaced true s = true /\ rstrip_rec s = s.

Ltac each_char c := destruct c as [[] [] [] [] [] [] [] []]; vm_compute; try reflexivity; try discriminate.

(** ** Correction rules and whole words *)


(** The pattern of a literal [key] followed by [r]. *)
Definition lit (key : text) (r : regex) : regex :=
  fold_right (fun c r' => Seq (Chr c) r') r key.

(** [\b], the key as it stands, [\b]. *)
Definition word_re (key : text) : regex := Seq Bnd (lit key (Seq Bnd Eps)).

Definition is_escaped (c : ascii) : bool := existsb (Ascii.eqb c) escaped_chars.

Definition starts_plain (s : text) : Prop :=
  match s with
  | q :: _ => is_quantifier q = false
  | [] => True
  end.

(** The character before the position reached after reading [a]. *)
Definition last_char (prev : option ascii) (a : text) : option ascii :=
  fold_left (fun _ c => Some c) a prev.

(** [key] stands at the head of [s] between two word boundaries. *)
Definition whole_word_at (key : text) (prev : option ascii) (s : text) : Prop :=
  exists rest,
    s = key ++ rest
    /\ at_boundary prev s = true
    /\ at_boundary (last_char prev key) rest = true.

(** What it means for the continuation to be asked only about positions no
    longer than the starting one. *)
Definition ends_on_suffix (r : regex) : Prop :=
  forall prev s k x,
    rmatch r prev s k = Some x ->
    exists p' s', length s' <= length s /\ k p' s' = Some x.

(** The matcher only looks at its continuation on suffixes. *)
Definition suffix_local (r : regex) : Prop :=
  forall prev s k1 k2,
    (forall p' s', length s' <= length s -> k1 p' s' = k2 p' s') ->
    rmatch r prev s k1 = rmatch r prev s k2.

(** ** Deleting characters *)

(** [subseq a b]: [a] is [b] with some characters deleted. *)
Inductive subseq : text -> text -> Prop :=
| subseq_nil : subseq [] []
| subseq_keep (c : ascii) (a b : text) : subseq a b -> subseq (c :: a) (c :: b)
| subseq_drop (c : ascii) (a b : text) : subseq a b -> subseq a (c :: b).

Definition all_space (s : text) : Prop := Forall (fun c => isspace c = true) s.

(** [p in s]: [p] occurs in [s]. *)
Definition occurs (p s : text) : Prop := exists u v, s = u ++ p ++ v.

(** The pattern of the instruction-suffix pass. *)
Definition sig_re : regex := lit (t "sig:") (Seq (Star Dot) Eps).

(** A keyword without any character that has a meaning in a pattern. *)
Definition plain_chars (word : text) : bool :=
  forallb (fun c => negb (is_special c)) word.

(** ** Looking up the correction map *)

(** [m.get(key)] *)
Fixpoint dict_get (m : correction_map_t) (key : text) : option text :=
  match m with
  | [] => None
  | (k, v) :: m' => if text_eqb k key then Some v else dict_get m' key
  end.

(** The key and the value [load_correction_map] reads off a line that has
    a colon. *)
Definition line_key (line : text) : text := strip (fst (split_colon (strip line))).

Definition line_value (line : text) : text := strip (snd (split_colon (strip line))).

(** ** The driver *)

(** A row of the input table: the two columns the driver reads, and the
    other columns, which it carries along. *)
Record TestRow : Type := {
  Input_Entity_Description : pyval;
  Entity_Type : pyval;
  Other_Columns : list (text * pyval)
}.

(** A row of a reference table as it is read: the [STR] column, taken to
    hold strings, and the [CODE] column as [str] shows it. *)
Record ReferenceRow : Type := {
  STR_cell : text;
  CODE_cell : text
}.

(** A row of the output table: the columns carried over from the input
    row, and the three columns the driver assigns.  (The place of a column
    among the others is not modelled.) *)
Record OutputRow : Type := {
  Input_Row : TestRow;
  Output_Coding_System : text;
  Output_Target_Code : text;
  Output_Target_Description : text
}.

(** How [main] ends: it returns after reporting a missing data file, it
    raises, or it writes the output table. *)
Inductive outcome : Type :=
| Aborted
| Raised
| Written (rows : list OutputRow).

(** [column.apply(f)] and a loop that appends, when [f] may raise. *)
Fixpoint map_option {A B : Type} (f : A -> option B) (l : list A) : option (list B) :=
  match l with
  | [] => Some []
  | x :: l' =>
      y <- f x ;;
      ys <- map_option f l' ;;
      Some (y :: ys)
  end.

(** The names [main] assigns to: the intermediate column, which it drops
    before writing, and the three output columns. *)
Definition assigned_columns : list text :=
  [t "Cleaned_Description"; t "Output Coding System"; t "Output Target Code";
   t "Output Target Description"].

Definition is_assigned (name : text) : bool := existsb (text_eqb name) assigned_columns.

(** What a run keeps of an input row: the two columns it reads, and the
    other columns whose name it does not assign to. *)
Definition carried (row : TestRow) : TestRow :=
  {| Input_Entity_Description := Input_Entity_Description row;
     Entity_Type := Entity_Type row;
     Other_Columns := filter (fun column => negb (is_assigned (fst column)))
                        (Other_Columns row) |}.

Module Driver.

Section Main.
Context {L : Libraries}.

(** The script's own [create_cleaner] and [find_best_match]. *)
Variable create_cleaner : correction_map_t -> list text -> pyval -> option text.

Variable find_best_match :
  text -> pyval -> DataFrame -> DataFrame -> Matrix -> Matrix ->
  Vectorizer -> Vectorizer -> M MatchResult.

(** [TfidfVectorizer(stop_words='english').fit_transform(documents)]: the
    fitted vectorizer and the matrix of the documents, or [None] when
    scikit-learn raises (on an empty vocabulary). *)
Variable fit_transform : list text -> option (Vectorizer * Matrix).

(** [df['Cleaned_STR'] = df['STR'].apply(cleaner)] *)
Definition add_cleaned (cleaner : pyval -> option text) (df : list ReferenceRow)
  : option DataFrame :=
  map_option
    (fun row =>
       cleaned <- cleaner (PyStr (STR_cell row)) ;;
       Some {| STR := STR_cell row; CODE := CODE_cell row; Cleaned_STR := cleaned |})
    df.

(** The three column assignments from the frame of the results, and the
    [drop] of the intermediate column.  An assignment to a name the input
    table already has overwrites that column, and [drop] removes every
    column of the name it is given: what is left of the input row is
    [carried]. *)
Definition output_row (row : TestRow) (result : MatchResult) : OutputRow :=
  {| Input_Row := carried row;
     Output_Coding_System := System result;
     Output_Target_Code := Code result;
     Output_Target_Description := Description result |}.

(** [main]: each file is its content, or [None] when it does not exist.
    Indexing the frame of an empty list of results raises a [KeyError]. *)
Definition main (test_file : option (list TestRow))
  (snomed_file rxnorm_file : option (list ReferenceRow))
  (correction_map_file redundant_keywords_file : option (list text)) : outcome :=
  match test_file, snomed_file, rxnorm_file with
  | Some test_df, Some snomed_df, Some rxnorm_df =>
      let correction_map := load_correction_map correction_map_file in
      let redundant_keywords := load_redundant_keywords redundant_keywords_file in
      let cleaner := create_cleaner correction_map redundant_keywords in
      match
        cleaned_descriptions <-
          map_option (fun row => cleaner (Input_Entity_Description row)) test_df ;;
        snomed_data <- add_cleaned cleaner snomed_df ;;
        rxnorm_data <- add_cleaned cleaner rxnorm_df ;;
        snomed <- fit_transform (map Cleaned_STR snomed_data) ;;
        rxnorm <- fit_transform (map Cleaned_STR rxnorm_data) ;;
        results <-
          map_option
            (fun row_description : TestRow * text =>
               result_of
                 (find_best_match (snd row_description)
                    (Entity_Type (fst row_description)) snomed_data rxnorm_data
                    (snd snomed) (snd rxnorm) (fst snomed) (fst rxnorm)))
            (combine test_df cleaned_descriptions) ;;
        match results with
        | [] => None
        | _ => Some (map (fun rr => output_row (fst rr) (snd rr)) (combine test_df results))
        end
      with
      | Some rows => Written rows
      | None => Raised
      end
  | _, _, _ => Aborted
  end.

End Main.

End Driver.

(** [main] of harmonize.py and of demo.py.  The paths harmonize.py takes
    from its arguments and demo.py has in its text are the files given
    here; the download of the NLTK models demo.py starts with does not
    change the outcome. *)
Definition harmonize_main {L : Libraries} :=
  Driver.main Harmonize.create_cleaner Harmonize.find_best_match.

Definition demo_main {L : Libraries} :=
  Driver.main Demo.create_cleaner Demo.find_best_match.

Inductive script : Type :=
| harmonize_py
| demo_py.

Definition cleaner_of {L : Libraries} (which : script)
  : correction_map_t -> list text -> pyval -> option text :=
  match which with
  | harmonize_py => Harmonize.create_cleaner
  | demo_py => Demo.create_cleaner
  end.

Definition main_of {L : Libraries} (which : script) :=
  match which with
  | harmonize_py => harmonize_main
  | demo_py => demo_main
  end.

(** A fitting for the sample libraries: the matrix gives every document
    the similarity one half. *)
Definition sample_fit (documents : list text) : option (unit * list Q) :=
  Some (tt, map (fun _ => 1 # 2) documents).

(** ** The take phrase and the dose *)

(** [\d+] *)
Definition digits_re : regex := Seq (Cls false [CDigit]) (Star (Cls false [CDigit])).

(** What follows the number in the take phrase: the optional bracketed
    remark, then the word with its bracketed plural. *)
Definition take_tail_re : regex :=
  Seq (Alt (Seq (Star (Cls false [CSpace]))
              (Seq (Chr "(") (Seq (Star Dot) (Seq (Chr ")") Eps))))
         Eps)
    (lit (t " tablet(s") (Seq (Alt (Chr ")") Eps) Eps)).

Definition take_re : regex := lit (t "take ") (Seq digits_re take_tail_re).

(** The units of the dose pattern, in the order of its alternatives. *)
Definition dose_units : list text :=
  [t "mg"; t "ml"; t "mcg"; t "unit"; t "units"; t "g"; t "gram"; t "grams"].

Definition dose_unit_re : regex :=
  Seq (Alt (lit (t "mg") Eps)
         (Alt (lit (t "ml") Eps)
            (Alt (lit (t "mcg") Eps)
               (Alt (lit (t "unit") Eps)
                  (Alt (lit (t "units") Eps)
                     (Alt (lit (t "g") Eps)
                        (Alt (lit (t "gram") Eps) (lit (t "grams") Eps))))))))
    (Seq Bnd Eps).

(** What follows the integer part in the dose pattern. *)
Definition dose_tail_re : regex :=
  Seq (Alt (Seq (Chr ".") (Seq digits_re Eps)) Eps)
    (Seq (Star (Cls false [CSpace])) dose_unit_re).

Definition dose_re : regex := Seq digits_re dose_tail_re.

(** The decimals of a number: none, or a point and digits. *)
Definition is_fraction (frac : text) : Prop :=
  frac = []
  \/ exists m, m <> [] /\ Forall (fun c => isdecimal c = true) m /\ frac = "."%char :: m.

(** ** A sample run of the driver *)

Definition drug_row : TestRow :=
  {| Input_Entity_Description := PyStr (t "Metformin 500 mg");
     Entity_Type := PyStr (t "Medication");
     Other_Columns := [(t "Visit", PyInt 7)] |}.

Definition missing_row : TestRow :=
  {| Input_Entity_Description := PyNaN;
     Entity_Type := PyStr (t "Lab");
     Other_Columns := [(t "Visit", PyInt 8)] |}.

(** A row of a table that was harmonized before: it has an output column
    and the intermediate column already. *)
Definition stale_row : TestRow :=
  {| Input_Entity_Description := PyStr (t "Aspirin");
     Entity_Type := PyStr (t "Medication");
     Other_Columns := [(t "Output Target Code", PyStr (t "6809"));
                       (t "Visit", PyInt 9);
                       (t "Cleaned_Description", PyStr (t "metformin"))] |}.

Definition sample_snomed : list ReferenceRow :=
  [{| STR_cell := t "Fever"; CODE_cell := t "386661006" |}].

Definition sample_rxnorm : list ReferenceRow :=
  [{| STR_cell := t "Aspirin"; CODE_cell := t "1191" |};
   {| STR_cell := t "Metformin"; CODE_cell := t "6809" |}].

Definition drug_output : OutputRow :=
  {| Input_Row := drug_row;
     Output_Coding_System := t "RXNORM";
     Output_Target_Code := t "6809";
     Output_Target_Description := t "Metformin" |}.

Definition missing_output : OutputRow :=
  {| Input_Row := missing_row;
     Output_Coding_System := t "SNOMEDCT_US";
     Output_Target_Code := t "NO_INPUT";
     Output_Target_Description := t "Original text was empty after cleaning" |}.

(** * Properties *)

(** ** The two scripts share one matcher *)

Lemma demo_rerank_eq {L : Libraries} : Demo.rerank = Harmonize.rerank.
Proof. reflexivity. Qed.

Lemma demo_find_best_match_eq {L : Libraries} :
  Demo.find_best_match = Harmonize.find_best_match.
Proof. reflexivity. Qed.

(** ** Routing by entity type *)

Section Routing.
Context {L : Libraries}.

Lemma find_best_match_search :
  forall description entity_type snomed_data rxnorm_data snomed_tfidf rxnorm_tfidf
         snomed_vectorizer rxnorm_vectorizer data tfidf_matrix vectorizer system,
    route entity_type snomed_data rxnorm_data snomed_tfidf rxnorm_tfidf
      snomed_vectorizer rxnorm_vectorizer = (data, tfidf_matrix, vectorizer, system) ->
    Harmonize.find_best_match description entity_type snomed_data rxnorm_data
      snomed_tfidf rxnorm_tfidf snomed_vectorizer rxnorm_vectorizer
    = search data tfidf_matrix vectorizer system description.
Proof.
  intros d et sd rd st rt sv rv data m v sys H.
  unfold Harmonize.find_best_match, route in *.
  change [t "Procedure"; t "Lab"; t "Diagnosis"] with snomed_types.
  destruct (entity_in et snomed_types); inversion H; subst; reflexivity.
Qed.

Lemma text_eqb_eq : forall a b : text, text_eqb a b = true <-> a = b.
Proof.
  intros a b. unfold text_eqb.
  destruct (list_eq_dec ascii_dec a b); split; congruence.
Qed.

Lemma entity_in_spec :
  forall entity_type labels,
    entity_in entity_type labels = true <->
    exists s, entity_type = PyStr s /\ In s labels.
Proof.
  intros et labels. destruct et as [s | | z | q | ]; simpl.
  - rewrite existsb_exists. split.
    + intros [x [Hin Heq]]. apply text_eqb_eq in Heq. subst x. eauto.
    + intros [s' [Heq Hin]]. inversion Heq; subst s'. exists s. split; auto.
      now apply text_eqb_eq.
  - split; [discriminate | intros [s [H _]]; discriminate].
  - split; [discriminate | intros [s [H _]]; discriminate].
  - split; [discriminate | intros [s [H _]]; discriminate].
  - split; [discriminate | intros [s [H _]]; discriminate].
Qed.

(** Every result of a search carries the label it was given. *)
Lemma search_system :
  forall data tfidf_matrix vectorizer system description r,
    result_of (search data tfidf_matrix vectorizer system description) = Some r ->
    System r = system.
Proof.
  intros data m v sys d r. unfold search, result_of.
  destruct (strip d) as [| c s'].
  - simpl. intros H. inversion H. reflexivity.
  - cbn [bind ret lift fst snd].
    destruct (Harmonize.candidate_indices_of _) as [| top rest].
    + simpl. intros H. inversion H. reflexivity.
    + destruct (nth_error _ top) as [q |]; simpl; [| discriminate].
      destruct (Qltb q (1 # 10)); simpl.
      * intros H. inversion H. reflexivity.
      * destruct (Harmonize.rerank d data (top :: rest)) as [best |]; simpl; [| discriminate].
        destruct (iloc data (snd best)) as [row |]; simpl; [| discriminate].
        intros H. inversion H. reflexivity.
Qed.

(** C7. Entity types Procedure, Lab and Diagnosis are searched in the
    SNOMED table, matrix and vectorizer under the label SNOMEDCT_US; every
    other entity type (any other string, and any value that is no string)
    is searched in the RxNorm ones under the label RXNORM; and whatever a
    search returns carries its label in the System field. *)
Theorem entity_type_routing :
  forall description snomed_data rxnorm_data snomed_tfidf rxnorm_tfidf
         snomed_vectorizer rxnorm_vectorizer,
    (forall s, In s [t "Procedure"; t "Lab"; t "Diagnosis"] ->
       Harmonize.find_best_match description (PyStr s) snomed_data rxnorm_data
         snomed_tfidf rxnorm_tfidf snomed_vectorizer rxnorm_vectorizer
       = search snomed_data snomed_tfidf snomed_vectorizer (t "SNOMEDCT_US") description)
    /\
    (forall entity_type,
       (forall s, In s [t "Procedure"; t "Lab"; t "Diagnosis"] -> entity_type <> PyStr s) ->
       Harmonize.find_best_match description entity_type snomed_data rxnorm_data
         snomed_tfidf rxnorm_tfidf snomed_vectorizer rxnorm_vectorizer
       = search rxnorm_data rxnorm_tfidf rxnorm_vectorizer (t "RXNORM") description)
    /\
    (forall data tfidf_matrix vectorizer system r,
       result_of (search data tfidf_matrix vectorizer system description) = Some r ->
       System r = system).
Proof.
  intros d sd rd st rt sv rv. split; [| split].
  - intros s Hin. apply find_best_match_search. unfold route.
    replace (entity_in (PyStr s) snomed_types) with true; [reflexivity |].
    symmetry. apply entity_in_spec. exists s. split; auto.
  - intros et Hnot. apply find_best_match_search. unfold route.
    destruct (entity_in et snomed_types) eqn:E; [| reflexivity].
    apply entity_in_spec in E. destruct E as [s [Heq Hin]].
    exfalso. exact (Hnot s Hin Heq).
  - intros data m v sys r. apply search_system.
Qed.

End Routing.

(** C7, at a Diagnosis query and at a Medication query. *)
Lemma entity_type_routing_witness :
  Harmonize.find_best_match (t "fever") (PyStr (t "Diagnosis")) [] [] [] [] tt tt
  = search (L := sample_libraries) [] [] tt (t "SNOMEDCT_US") (t "fever")
  /\ Harmonize.find_best_match (t "fever") (PyStr (t "Medication")) [] [] [] [] tt tt
     = search (L := sample_libraries) [] [] tt (t "RXNORM") (t "fever").
Proof.
  destruct (entity_type_routing (L := sample_libraries) (t "fever") [] [] [] [] tt tt)
    as [Hs [Hr _]].
  split.
  - apply Hs. simpl. auto.
  - apply Hr. intros s Hin Heq. inversion Heq as [E]. subst s.
    simpl in Hin. repeat (destruct Hin as [Hin | Hin]; [discriminate Hin |]). exact Hin.
Defined.

(** ** Double-precision numbers *)

(** What the rerank needs of Python's floats.  The comparisons are read
    through [Prim2SF] and settled by cases on the two or three numbers; the
    order facts hold of every float, NaN included.  The sign facts follow
    the rounding of a product, a sum and a quotient far enough to see that
    the result is a number and is not below zero; an integer below 2^53
    converts to a finite double above zero. *)

Ltac compare_cases :=
  repeat match goal with
    | H : context [Z.compare ?a ?b] |- _ => destruct (Z.compare_spec a b)
    | |- context [Z.compare ?a ?b] => destruct (Z.compare_spec a b)
    | H : context [Pos.compare_cont Eq ?a ?b] |- _ =>
        change (Pos.compare_cont Eq a b) with (Pos.compare a b) in *;
        destruct (Pos.compare_spec a b)
    | |- context [Pos.compare_cont Eq ?a ?b] =>
        change (Pos.compare_cont Eq a b) with (Pos.compare a b) in *;
        destruct (Pos.compare_spec a b)
    end;
  subst; simpl in *; try discriminate; try reflexivity; try lia.

Ltac float_cases a :=
  let s := fresh "s" in let m := fresh "m" in let e := fresh "e" in
  destruct a as [s | s | | s m e]; try destruct s.

Lemma SFltb_lt_not_lt :
  forall a x c, SFltb a x = true -> SFltb a c = false -> SFltb x c = false.
Proof.
  intros a x c. unfold SFltb, SFcompare.
  float_cases a; float_cases x; float_cases c; intros H1 H2;
    simpl in *; try discriminate; try reflexivity; compare_cases.
Qed.

Lemma SFleb_lt_not_lt :
  forall a x c, SFltb a x = true -> SFltb a c = false -> SFleb x c = false.
Proof.
  intros a x c. unfold SFltb, SFleb, SFcompare.
  float_cases a; float_cases x; float_cases c; intros H1 H2;
    simpl in *; try discriminate; try reflexivity; compare_cases.
Qed.

Lemma SFltb_irrefl : forall x, SFltb x x = false.
Proof.
  intros x. unfold SFltb, SFcompare.
  float_cases x; simpl in *; try reflexivity; compare_cases.
Qed.

Lemma SFltb_trans :
  forall a b c, SFltb a b = true -> SFltb b c = true -> SFltb a c = true.
Proof.
  intros a b c. unfold SFltb, SFcompare.
  float_cases a; float_cases b; float_cases c; intros H1 H2;
    simpl in *; try discriminate; try reflexivity; compare_cases.
Qed.


Lemma SFleb_total :
  forall x y, SFeqb x x = true -> SFeqb y y = true -> SFltb y x = false -> SFleb x y = true.
Proof.
  intros x y. unfold SFltb, SFleb, SFeqb, SFcompare.
  float_cases x; float_cases y; intros H1 H2 H3;
    simpl in *; try discriminate; try reflexivity; compare_cases.
Qed.

Lemma SFnonneg_number : forall x, SFnonneg x = true -> SFeqb x x = true.
Proof.
  intros x. unfold SFeqb, SFcompare.
  float_cases x; simpl; intros H; try discriminate H; try reflexivity; compare_cases.
Qed.

Lemma SFnonneg_above_minus_one :
  forall x, SFnonneg x = true -> SFltb (Prim2SF (-1)%float) x = true.
Proof.
  intros x. change (Prim2SF (-1)%float) with (S754_finite true 4503599627370496 (-52)).
  float_cases x; simpl; intros H; try discriminate H; reflexivity.
Qed.

Lemma SFnonneg_le_zero :
  forall x, SFnonneg x = true -> SFleb (Prim2SF 0%float) x = true.
Proof.
  intros x. change (Prim2SF 0%float) with (S754_zero false).
  float_cases x; simpl; intros H; try discriminate H; reflexivity.
Qed.

(** *** Rounding keeps the sign *)

Lemma iter_pos_invariant :
  forall (A : Type) (P : A -> Prop) (f : A -> A),
    (forall x, P x -> P (f x)) -> forall n x, P x -> P (iter_pos f n x).
Proof.
  intros A P f Hf. induction n as [n IH | n IH |]; intros x Hx; simpl.
  - apply IH, IH, Hf, Hx.
  - apply IH, IH, Hx.
  - apply Hf, Hx.
Qed.

Lemma shr_1_nonneg : forall mrs, (0 <= shr_m mrs)%Z -> (0 <= shr_m (shr_1 mrs))%Z.
Proof.
  intros [m r s] H. simpl in H. unfold shr_1.
  destruct m as [| [p | p |] | p]; simpl; lia.
Qed.

Lemma shr_nonneg :
  forall mrs e n, (0 <= shr_m mrs)%Z -> (0 <= shr_m (fst (shr mrs e n)))%Z.
Proof.
  intros mrs e n H. unfold shr. destruct n as [| p | p]; simpl; try exact H.
  apply (iter_pos_invariant _ (fun r => (0 <= shr_m r)%Z)); [apply shr_1_nonneg | exact H].
Qed.

Lemma shr_record_of_loc_m : forall m l, shr_m (shr_record_of_loc m l) = m.
Proof. intros m [| []]; reflexivity. Qed.

Lemma shr_fexp_nonneg :
  forall prec emax m e l,
    (0 <= m)%Z -> (0 <= shr_m (fst (shr_fexp prec emax m e l)))%Z.
Proof.
  intros prec emax m e l H. unfold shr_fexp. apply shr_nonneg.
  now rewrite shr_record_of_loc_m.
Qed.

Lemma round_nearest_even_nonneg :
  forall m l, (0 <= m)%Z -> (0 <= round_nearest_even m l)%Z.
Proof.
  intros m l H. unfold round_nearest_even.
  destruct l as [| []]; try destruct (Z.even m); lia.
Qed.

Lemma binary_round_aux_nonneg :
  forall prec emax m e l,
    (0 <= m)%Z -> SFnonneg (binary_round_aux prec emax false m e l) = true.
Proof.
  intros prec emax m e l H. unfold binary_round_aux.
  pose proof (shr_fexp_nonneg prec emax m e l H) as H1.
  destruct (shr_fexp prec emax m e l) as [mrs' e']. simpl in H1.
  pose proof (shr_fexp_nonneg prec emax
                (round_nearest_even (shr_m mrs') (loc_of_shr_record mrs')) e' loc_Exact
                (round_nearest_even_nonneg _ _ H1)) as H2.
  destruct (shr_fexp prec emax _ e' loc_Exact) as [mrs'' e'']. simpl in H2.
  destruct (shr_m mrs'') as [| p | p]; [reflexivity | | lia].
  now destruct (e'' <=? emax - prec)%Z.
Qed.

Lemma binary_round_nonneg :
  forall prec emax m e, SFnonneg (binary_round prec emax false m e) = true.
Proof.
  intros prec emax m e. unfold binary_round. destruct (shl_align m e _) as [mz ez].
  apply binary_round_aux_nonneg. lia.
Qed.

Lemma binary_normalize_nonneg :
  forall prec emax m e,
    (0 <= m)%Z -> SFnonneg (binary_normalize prec emax m e false) = true.
Proof.
  intros prec emax m e H. unfold binary_normalize.
  destruct m as [| p | p]; [reflexivity | apply binary_round_nonneg | lia].
Qed.

Lemma SFmul_nonneg :
  forall prec emax x y,
    SFnonneg x = true -> SFpositive y = true -> SFnonneg (SFmul prec emax x y) = true.
Proof.
  intros prec emax x y Hx Hy.
  float_cases x; float_cases y; simpl in *; try discriminate; try reflexivity.
  apply binary_round_aux_nonneg. lia.
Qed.

Lemma SFadd_nonneg :
  forall prec emax x y,
    SFnonneg x = true -> SFnonneg y = true -> SFnonneg (SFadd prec emax x y) = true.
Proof.
  intros prec emax x y Hx Hy.
  float_cases x; float_cases y; simpl in *; try discriminate; try reflexivity.
  apply binary_round_nonneg.
Qed.

Lemma SFdiv_nonneg :
  forall prec emax x y,
    SFnonneg x = true -> SFpositive y = true -> SFnonneg (SFdiv prec emax x y) = true.
Proof.
  intros prec emax x y Hx Hy.
  float_cases x; float_cases y; simpl in *; try discriminate; try reflexivity.
  unfold SFdiv_core_binary.
  set (e' := Z.min _ _). set (s := (e - e0 - e')%Z).
  set (m' := match s with Z0 => Zpos m | Zpos _ => Z.shiftl (Zpos m) s | Zneg _ => 0%Z end).
  assert (Hm : (0 <= m')%Z).
  { subst m'. destruct s; [lia | apply Z.shiftl_nonneg; lia | lia]. }
  destruct (Z.div_eucl m' (Zpos m0)) as [q r] eqn:E.
  apply binary_round_aux_nonneg.
  assert (Hq : q = (m' / Zpos m0)%Z) by (unfold Z.div; now rewrite E).
  subst q. apply Z.div_pos; lia.
Qed.

(** *** Integers below 2^53 are doubles *)

Lemma digits2_pos_lower :
  forall p, (2 ^ (Zpos (digits2_pos p) - 1) <= Zpos p)%Z.
Proof.
  induction p as [p IH | p IH |]; cbn [digits2_pos].
  - rewrite Pos2Z.inj_succ. replace (Z.succ (Zpos (digits2_pos p)) - 1)%Z
      with (Z.succ (Zpos (digits2_pos p) - 1))%Z by lia.
    rewrite Z.pow_succ_r by lia. lia.
  - rewrite Pos2Z.inj_succ. replace (Z.succ (Zpos (digits2_pos p)) - 1)%Z
      with (Z.succ (Zpos (digits2_pos p) - 1))%Z by lia.
    rewrite Z.pow_succ_r by lia. lia.
  - simpl. lia.
Qed.

Lemma digits2_pos_small :
  forall p, (Zpos p < 2 ^ 53)%Z -> (Zpos (digits2_pos p) <= 53)%Z.
Proof.
  intros p H. pose proof (digits2_pos_lower p) as Hl.
  destruct (Z_le_gt_dec (Zpos (digits2_pos p)) 53) as [Hle | Hgt]; [exact Hle |].
  exfalso.
  assert (Hpow : (2 ^ 53 <= 2 ^ (Zpos (digits2_pos p) - 1))%Z)
    by (apply Z.pow_le_mono_r; lia).
  lia.
Qed.

Lemma digits2_pos_iter :
  forall k p, digits2_pos (Pos.iter xO p k) = (digits2_pos p + k)%positive.
Proof.
  intros k p. induction k as [| k IH] using Pos.peano_ind.
  - simpl. lia.
  - rewrite Pos.iter_succ. cbn [digits2_pos]. rewrite IH. lia.
Qed.

(** A mantissa of 53 bits with an exponent in range is its own rounding. *)
Lemma binary_round_aux_exact :
  forall sx m e,
    Zpos (digits2_pos m) = 53%Z -> (-1074 <= e <= 971)%Z ->
    binary_round_aux prec emax sx (Zpos m) e loc_Exact = S754_finite sx m e.
Proof.
  intros sx m e Hd He. unfold binary_round_aux, shr_fexp. cbn [Zdigits2].
  rewrite Hd.
  assert (Hs : (fexp prec emax (53 + e) - e = 0)%Z)
    by (unfold fexp, emin, prec, emax; lia).
  rewrite Hs. cbn [shr_record_of_loc shr shr_m loc_of_shr_record round_nearest_even Zdigits2].
  rewrite Hd, Hs. cbn [shr shr_m].
  assert (Hle : (e <=? emax - prec)%Z = true) by (apply Z.leb_le; unfold emax, prec; lia).
  now rewrite Hle.
Qed.

Lemma binary_normalize_small :
  forall p,
    (Zpos p < 2 ^ 53)%Z ->
    SFpositive (binary_normalize prec emax (Zpos p) 0 false) = true.
Proof.
  intros p H. pose proof (digits2_pos_small p H) as Hd.
  unfold binary_normalize, binary_round, shl_align.
  assert (Hf : fexp prec emax (Zpos (digits2_pos p) + 0) = (Zpos (digits2_pos p) - 53)%Z)
    by (unfold fexp, emin, prec, emax; lia).
  rewrite Hf.
  destruct (Zpos (digits2_pos p) - 53 - 0)%Z as [| d | d] eqn:E; [| lia |].
  - rewrite binary_round_aux_exact; [reflexivity | lia | lia].
  - rewrite binary_round_aux_exact; [reflexivity | | lia].
    rewrite digits2_pos_iter. lia.
Qed.

(** *** Python's numbers *)

Lemma float_of_Z_nonneg : forall z, (0 <= z)%Z -> float_nonneg (float_of_Z z).
Proof.
  intros z H. unfold float_nonneg, float_of_Z.
  destruct (Z.ltb_spec z 0) as [Hlt | _]; [lia |].
  rewrite of_uint63_spec. apply binary_normalize_nonneg.
  apply Uint63.to_Z_bounded.
Qed.

Lemma float_of_Z_positive :
  forall z, (0 < z < 2 ^ 53)%Z -> float_positive (float_of_Z z).
Proof.
  intros z H. unfold float_positive, float_of_Z.
  destruct (Z.ltb_spec z 0) as [Hlt | _]; [lia |].
  rewrite of_uint63_spec, Uint63.of_Z_spec.
  rewrite Z.mod_small.
  - destruct z as [| p | p]; [lia | | lia]. apply binary_normalize_small. lia.
  - change Uint63.wB with (2 ^ 63)%Z. split; [lia |].
    assert ((2 ^ 53 < 2 ^ 63)%Z) by (apply Z.pow_lt_mono_r; lia). lia.
Qed.

Lemma float_mul_nonneg :
  forall x y, float_nonneg x -> float_positive y -> float_nonneg (x * y).
Proof. intros x y Hx Hy. unfold float_nonneg. rewrite mul_spec. now apply SFmul_nonneg. Qed.

Lemma float_add_nonneg :
  forall x y, float_nonneg x -> float_nonneg y -> float_nonneg (x + y).
Proof. intros x y Hx Hy. unfold float_nonneg. rewrite add_spec. now apply SFadd_nonneg. Qed.

Lemma float_div_nonneg :
  forall x y, float_nonneg x -> float_positive y -> float_nonneg (x / y).
Proof. intros x y Hx Hy. unfold float_nonneg. rewrite div_spec. now apply SFdiv_nonneg. Qed.

Lemma float_nonneg_number : forall x, float_nonneg x -> (x =? x)%float = true.
Proof. intros x H. rewrite eqb_spec. now apply SFnonneg_number. Qed.

Lemma float_nonneg_above_minus_one : forall x, float_nonneg x -> (-1 <? x)%float = true.
Proof. intros x H. rewrite ltb_spec. now apply SFnonneg_above_minus_one. Qed.

Lemma float_nonneg_le_zero : forall x, float_nonneg x -> (0 <=? x)%float = true.
Proof. intros x H. rewrite leb_spec. now apply SFnonneg_le_zero. Qed.

Lemma float_lt_not_lt :
  forall a x c, (a <? x)%float = true -> (a <? c)%float = false -> (x <? c)%float = false.
Proof. intros a x c. rewrite !ltb_spec. apply SFltb_lt_not_lt. Qed.

Lemma float_le_lt_not_lt :
  forall a x c, (a <? x)%float = true -> (a <? c)%float = false -> (x <=? c)%float = false.
Proof. intros a x c. rewrite !ltb_spec, !leb_spec. apply SFleb_lt_not_lt. Qed.

Lemma float_lt_irrefl : forall x, (x <? x)%float = false.
Proof. intros x. rewrite ltb_spec. apply SFltb_irrefl. Qed.

Lemma float_lt_trans :
  forall a b c, (a <? b)%float = true -> (b <? c)%float = true -> (a <? c)%float = true.
Proof. intros a b c. rewrite !ltb_spec. apply SFltb_trans. Qed.


Lemma float_le_total :
  forall x y,
    (x =? x)%float = true -> (y =? y)%float = true -> (y <? x)%float = false ->
    (x <=? y)%float = true.
Proof. intros x y. rewrite !eqb_spec, ltb_spec, leb_spec. apply SFleb_total. Qed.

(** ** The rerank loop picks the first candidate of highest score *)

Lemma Qltb_true : forall a b : Q, Qltb a b = true <-> (a < b)%Q.
Proof.
  intros a b. unfold Qltb. rewrite Qlt_alt.
  destruct (Qcompare a b); split; congruence.
Qed.

Lemma Qltb_false : forall a b : Q, Qltb a b = false <-> (b <= a)%Q.
Proof.
  intros a b. unfold Qltb. change (b <= a)%Q with (a >= b)%Q. rewrite Qge_alt.
  destruct (Qcompare a b); split; congruence.
Qed.

Section ArgMax.
Variable f : nat -> float.

(** The loop from a score [q0]: either no candidate was above [q0], or
    the loop holds the first candidate above which no candidate is. *)
Lemma fold_pick_invariant :
  forall (q0 : float) (z0 : Z) (l : list nat),
    (fold_left (pick f) l (q0, z0) = (q0, z0)
     /\ forall c, In c l -> (q0 <? f c)%float = false)
    \/ exists i b,
         fold_left (pick f) l (q0, z0) = (f b, Z.of_nat b)
         /\ (q0 <? f b)%float = true /\ first_max f l i b.
Proof.
  intros q0 z0 l. induction l as [| x l IH] using rev_ind.
  - left. split; [reflexivity | intros c []].
  - rewrite fold_left_app. simpl.
    destruct IH as [[Hst Hall] | [i [b [Hst [Hq0 [Hnth [Hmax Hfirst]]]]]]].
    + rewrite Hst. unfold pick; simpl.
      destruct (q0 <? f x)%float eqn:E.
      * right. exists (length l), x.
        split; [reflexivity | split; [exact E |]].
        split; [| split].
        -- rewrite nth_error_app2 by lia. now rewrite Nat.sub_diag.
        -- intros j c Hj. apply nth_error_In in Hj. apply in_app_or in Hj.
           destruct Hj as [Hj | [Hj | []]].
           ++ exact (float_lt_not_lt q0 (f x) (f c) E (Hall c Hj)).
           ++ subst c. apply float_lt_irrefl.
        -- intros j c Hlt Hj. rewrite nth_error_app1 in Hj by exact Hlt.
           apply nth_error_In in Hj.
           exact (float_le_lt_not_lt q0 (f x) (f c) E (Hall c Hj)).
      * left. split; [reflexivity |].
        intros c Hc. apply in_app_or in Hc. destruct Hc as [Hc | [Hc | []]].
        -- now apply Hall.
        -- now subst c.
    + rewrite Hst. unfold pick; simpl.
      assert (Hi : i < length l) by (apply nth_error_Some; congruence).
      destruct (f b <? f x)%float eqn:E.
      * right. exists (length l), x.
        split; [reflexivity | split; [exact (float_lt_trans _ _ _ Hq0 E) |]].
        split; [| split].
        -- rewrite nth_error_app2 by lia. now rewrite Nat.sub_diag.
        -- intros j c Hj. apply nth_error_In in Hj. apply in_app_or in Hj.
           destruct Hj as [Hj | [Hj | []]].
           ++ apply In_nth_error in Hj. destruct Hj as [j' Hj'].
              exact (float_lt_not_lt (f b) (f x) (f c) E (Hmax j' c Hj')).
           ++ subst c. apply float_lt_irrefl.
        -- intros j c Hlt Hj. rewrite nth_error_app1 in Hj by exact Hlt.
           exact (float_le_lt_not_lt (f b) (f x) (f c) E (Hmax j c Hj)).
      * right. exists i, b.
        split; [reflexivity | split; [exact Hq0 |]].
        split; [| split].
        -- rewrite nth_error_app1 by exact Hi. exact Hnth.
        -- intros j c Hj. apply nth_error_In in Hj. apply in_app_or in Hj.
           destruct Hj as [Hj | [Hj | []]].
           ++ apply In_nth_error in Hj. destruct Hj as [j' Hj'].
              exact (Hmax j' c Hj').
           ++ subst c. exact E.
        -- intros j c Hlt Hj. rewrite nth_error_app1 in Hj by lia.
           exact (Hfirst j c Hlt Hj).
Qed.

End ArgMax.

(** ** Sorted lists and the candidates of stage 1 *)

Lemma StronglySorted_app_inv :
  forall (A : Type) (R : A -> A -> Prop) (l1 l2 : list A),
    StronglySorted R (l1 ++ l2) ->
    StronglySorted R l1 /\ StronglySorted R l2
    /\ forall x y, In x l1 -> In y l2 -> R x y.
Proof.
  intros A R l1 l2. induction l1 as [| a l1 IH]; simpl; intros H.
  - split; [constructor | split; [exact H | intros x y []]].
  - inversion H as [| a' l' Hs Hall]; subst.
    destruct (IH Hs) as [H1 [H2 H12]].
    rewrite Forall_app in Hall. destruct Hall as [Ha1 Ha2].
    split; [constructor; assumption | split; [exact H2 |]].
    intros x y [Hx | Hx] Hy.
    + subst x. rewrite Forall_forall in Ha2. now apply Ha2.
    + now apply H12.
Qed.

Lemma StronglySorted_app :
  forall (A : Type) (R : A -> A -> Prop) (l1 l2 : list A),
    StronglySorted R l1 -> StronglySorted R l2 ->
    (forall x y, In x l1 -> In y l2 -> R x y) ->
    StronglySorted R (l1 ++ l2).
Proof.
  intros A R l1 l2 H1 H2 H12. induction H1 as [| a l1 Hs IH Hall]; simpl.
  - exact H2.
  - constructor.
    + apply IH. intros x y Hx Hy. apply H12; [now right | exact Hy].
    + apply Forall_app. split; [exact Hall |].
      apply Forall_forall. intros y Hy. apply H12; [now left | exact Hy].
Qed.

Lemma StronglySorted_rev :
  forall (A : Type) (R : A -> A -> Prop) (l : list A),
    StronglySorted R l -> StronglySorted (fun x y => R y x) (rev l).
Proof.
  intros A R l H. induction H as [| a l Hs IH Hall]; simpl.
  - constructor.
  - apply StronglySorted_app.
    + exact IH.
    + constructor; [constructor | constructor].
    + intros x y Hx [Hy | []]. subst y. apply in_rev in Hx.
      rewrite Forall_forall in Hall. now apply Hall.
Qed.

Lemma last_n_split :
  forall (A : Type) (n : nat) (l : list A),
    l = firstn (length l - n) l ++ last_n n l.
Proof. intros A n l. unfold last_n. symmetry. apply firstn_skipn. Qed.

Lemma last_n_length :
  forall (A : Type) (n : nat) (l : list A),
    length (last_n n l) = Nat.min n (length l).
Proof. intros A n l. unfold last_n. rewrite length_skipn. lia. Qed.

Section Candidates.
Context {L : Libraries} {OK : LibrariesOk L}.
Variable similarities : list Q.

Local Abbreviation sim i := (nth i similarities 0%Q).

Lemma candidates_split :
  argsort similarities
  = firstn (length similarities - 20) (argsort similarities)
    ++ rev (Harmonize.candidate_indices_of similarities).
Proof.
  unfold Harmonize.candidate_indices_of. rewrite rev_involutive.
  rewrite (last_n_split _ 20 (argsort similarities)) at 1.
  now rewrite (Permutation_length (argsort_perm similarities)), length_seq.
Qed.

Lemma candidates_length :
  length (Harmonize.candidate_indices_of similarities)
  = Nat.min 20 (length similarities).
Proof.
  unfold Harmonize.candidate_indices_of.
  rewrite length_rev, last_n_length.
  now rewrite (Permutation_length (argsort_perm similarities)), length_seq.
Qed.

Lemma candidates_in_argsort :
  forall c, In c (Harmonize.candidate_indices_of similarities) ->
            In c (argsort similarities).
Proof.
  intros c Hc. rewrite candidates_split. apply in_or_app. right.
  now apply -> in_rev.
Qed.

Lemma candidates_valid :
  forall c, In c (Harmonize.candidate_indices_of similarities) ->
            c < length similarities.
Proof.
  intros c Hc. apply candidates_in_argsort in Hc.
  apply (Permutation_in _ (argsort_perm similarities)) in Hc.
  apply in_seq in Hc. lia.
Qed.

Lemma candidates_NoDup : NoDup (Harmonize.candidate_indices_of similarities).
Proof.
  assert (H : NoDup (argsort similarities)).
  { apply (Permutation_NoDup (Permutation_sym (argsort_perm similarities))).
    apply seq_NoDup. }
  rewrite candidates_split in H. apply NoDup_app_remove_l in H.
  apply NoDup_rev in H. now rewrite rev_involutive in H.
Qed.

(** The candidates are listed by descending similarity. *)
Lemma candidates_descending :
  StronglySorted (fun i j => sim j <= sim i)%Q
    (Harmonize.candidate_indices_of similarities).
Proof.
  pose proof (argsort_sorted similarities) as H.
  rewrite candidates_split in H.
  apply StronglySorted_app_inv in H. destruct H as [_ [H _]].
  apply StronglySorted_rev in H. now rewrite rev_involutive in H.
Qed.

(** A position that is no candidate has a similarity no higher than any
    candidate's. *)
Lemma candidates_dominate :
  forall i c, i < length similarities ->
    ~ In i (Harmonize.candidate_indices_of similarities) ->
    In c (Harmonize.candidate_indices_of similarities) ->
    (sim i <= sim c)%Q.
Proof.
  intros i c Hi Hnot Hc.
  pose proof (argsort_sorted similarities) as H.
  rewrite candidates_split in H.
  apply StronglySorted_app_inv in H. destruct H as [_ [_ H]].
  apply H; [| now apply -> in_rev].
  assert (Hin : In i (argsort similarities)).
  { apply (Permutation_in _ (Permutation_sym (argsort_perm similarities))).
    apply in_seq. lia. }
  rewrite candidates_split in Hin. apply in_app_or in Hin.
  destruct Hin as [Hin | Hin]; [exact Hin |].
  exfalso. apply Hnot. now apply in_rev.
Qed.

(** The first candidate has the highest similarity of all. *)
Lemma top_candidate_max :
  forall top rest i,
    Harmonize.candidate_indices_of similarities = top :: rest ->
    i < length similarities -> (sim i <= sim top)%Q.
Proof.
  intros top rest i Hc Hi.
  destruct (in_dec Nat.eq_dec i (Harmonize.candidate_indices_of similarities)) as [Hin | Hnot].
  - pose proof candidates_descending as Hs. rewrite Hc in Hs, Hin.
    destruct Hin as [Hin | Hin].
    + subst i. apply Qle_refl.
    + inversion Hs as [| a l _ Hall]; subst.
      rewrite Forall_forall in Hall. now apply Hall.
  - apply candidates_dominate; [exact Hi | exact Hnot |].
    rewrite Hc. now left.
Qed.

End Candidates.

(** ** Scores *)

Section Scores.
Context {L : Libraries}.

Lemma iloc_nat : forall data i, iloc data (Z.of_nat i) = nth_error data i.
Proof.
  intros data i. unfold iloc.
  destruct (Z.ltb_spec (Z.of_nat i) 0); [lia |].
  now rewrite Nat2Z.id.
Qed.

Lemma iloc_minus_one :
  forall data, data <> [] -> exists row, iloc data (-1) = Some row /\ In row data.
Proof.
  intros data Hne. unfold iloc. simpl.
  destruct data as [| r data']; [contradiction |].
  destruct (Z.leb_spec 1 (Z.of_nat (length (r :: data')))) as [_ | H];
    [| simpl in H; lia].
  destruct (nth_error (r :: data') (length (r :: data') - Pos.to_nat 1)) as [row |] eqn:E.
  - exists row. split; [reflexivity |]. eapply nth_error_In; eauto.
  - apply nth_error_None in E. simpl in E. lia.
Qed.

Lemma rerank_step_valid :
  forall description data best idx,
    idx < length data ->
    Harmonize.rerank_step description data (set_of (split description)) best idx
    = Some (pick (score_at description data) best idx).
Proof.
  intros d data best idx Hlt. unfold Harmonize.rerank_step, pick, score_at.
  rewrite iloc_nat.
  destruct (nth_error data idx) as [row |] eqn:E.
  - simpl. fold (candidate_score d row).
    now destruct (fst best <? candidate_score d row)%float.
  - apply nth_error_None in E. lia.
Qed.

Lemma rerank_fold :
  forall description data candidates,
    Forall (fun c => c < length data) candidates ->
    Harmonize.rerank description data candidates
    = Some (fold_left (pick (score_at description data)) candidates
              ((-1)%float, (-1)%Z)).
Proof.
  intros d data cands Hall. unfold Harmonize.rerank.
  generalize ((-1)%float, (-1)%Z) as best.
  induction Hall as [| c cands Hc Hall IH]; intros best; simpl.
  - reflexivity.
  - rewrite rerank_step_valid by exact Hc. apply IH.
Qed.

Lemma length_intersection_le :
  forall a b, length (intersection a b) <= length a.
Proof. intros a b. unfold intersection. apply filter_length_le. Qed.

(** The overlap score of fewer than 2^53 words is a number, zero or
    above. *)
Lemma overlap_score_nonneg :
  forall a b,
    (Z.of_nat (length a) < 2 ^ 53)%Z -> float_nonneg (overlap_score a b).
Proof.
  intros a b Hlen. unfold overlap_score.
  destruct a as [| w a']; [reflexivity |].
  apply float_mul_nonneg; [| reflexivity].
  apply float_div_nonneg.
  - apply float_of_Z_nonneg. lia.
  - apply float_of_Z_positive. simpl length in *. lia.
Qed.

Lemma final_score_nonneg :
  forall w o, (0 <= w)%Z -> float_nonneg o -> float_nonneg (final_score w o).
Proof.
  intros w o Hw Ho. unfold final_score. apply float_add_nonneg.
  - apply float_mul_nonneg; [now apply float_of_Z_nonneg | reflexivity].
  - apply float_mul_nonneg; [exact Ho | reflexivity].
Qed.

(** Without a word about the scores: the loop returns, and its index is
    the initial -1 or a candidate. *)
Lemma rerank_index :
  forall description data candidates,
    Forall (fun c => c < length data) candidates ->
    exists best,
      Harmonize.rerank description data candidates = Some best
      /\ (snd best = (-1)%Z \/ exists b, In b candidates /\ snd best = Z.of_nat b).
Proof.
  intros d data cands Hall. rewrite rerank_fold by exact Hall.
  destruct (fold_pick_invariant (score_at d data) (-1)%float (-1)%Z cands)
    as [[Hst _] | [i [b [Hst [_ [Hnth _]]]]]]; rewrite Hst; eexists; split;
    try reflexivity.
  - now left.
  - right. exists b. split; [eapply nth_error_In; eauto | reflexivity].
Qed.

Context {OK : LibrariesOk L}.

Lemma candidate_score_nonneg :
  forall description row,
    (Z.of_nat (length (set_of (split description))) < 2 ^ 53)%Z ->
    float_nonneg (candidate_score description row).
Proof.
  intros d row Hlen. unfold candidate_score.
  apply final_score_nonneg; [apply WRatio_range | now apply overlap_score_nonneg].
Qed.

Lemma score_at_nonneg :
  forall description data idx,
    (Z.of_nat (length (set_of (split description))) < 2 ^ 53)%Z ->
    float_nonneg (score_at description data idx).
Proof.
  intros d data idx Hlen. unfold score_at.
  destruct (nth_error data idx); [now apply candidate_score_nonneg | reflexivity].
Qed.

(** The rerank loop over valid candidates: it returns the first candidate
    of highest score, with that score. *)
Lemma rerank_first_max :
  forall description data candidates,
    (Z.of_nat (length (set_of (split description))) < 2 ^ 53)%Z ->
    candidates <> [] ->
    Forall (fun c => c < length data) candidates ->
    exists i b,
      Harmonize.rerank description data candidates
      = Some (score_at description data b, Z.of_nat b)
      /\ first_max (score_at description data) candidates i b.
Proof.
  intros d data cands Hlen Hne Hall. rewrite rerank_fold by exact Hall.
  destruct (fold_pick_invariant (score_at d data) (-1)%float (-1)%Z cands)
    as [[_ Hle] | [i [b [Hst [_ Hmax]]]]].
  - destruct cands as [| c cands']; [contradiction |].
    specialize (Hle c (or_introl eq_refl)).
    rewrite (float_nonneg_above_minus_one _ (score_at_nonneg d data c Hlen)) in Hle.
    discriminate Hle.
  - exists i, b. rewrite Hst. split; [reflexivity | exact Hmax].
Qed.

End Scores.

(** ** What a search returns *)

Section SearchSpec.
Context {L : Libraries} {OK : LibrariesOk L}.
Variables (data : DataFrame) (tfidf_matrix : Matrix) (vectorizer : Vectorizer).
Variables (system description : text).

Local Abbreviation similarities :=
  (cosine_similarity (transform vectorizer description) tfidf_matrix).

Local Abbreviation candidates := (Harmonize.candidate_indices_of similarities).

Lemma search_blank :
  strip description = [] ->
  search data tfidf_matrix vectorizer system description = ([], Some (no_input system)).
Proof. intros H. unfold search. now rewrite H. Qed.

Hypothesis nonblank : strip description <> [].

Lemma search_result :
  result_of (search data tfidf_matrix vectorizer system description)
  = match candidates with
    | [] => Some (not_found system)
    | top :: _ =>
        top_similarity <- nth_error similarities top ;;
        if Qltb top_similarity (1 # 10) then Some (not_found system)
        else
          best <- Harmonize.rerank description data candidates ;;
          row <- iloc data (snd best) ;;
          Some {| System := system; Code := CODE row; Description := STR row |}
    end.
Proof.
  unfold search, result_of.
  destruct (strip description) as [| c s']; [contradiction |].
  cbn [bind ret lift fst snd].
  destruct (Harmonize.candidate_indices_of _) as [| top rest]; [reflexivity |].
  destruct (nth_error _ top) as [q |]; simpl; [| reflexivity].
  destruct (Qltb q (1 # 10)); simpl; [reflexivity |].
  destruct (Harmonize.rerank description data (top :: rest)) as [best |]; simpl;
    [| reflexivity].
  destruct (iloc data (snd best)) as [row |]; reflexivity.
Qed.

Lemma search_log :
  log_of (search data tfidf_matrix vectorizer system description)
  = [EvTransform description; EvCosineSimilarity].
Proof.
  unfold search, log_of.
  destruct (strip description) as [| c s']; [contradiction |].
  cbn [bind ret lift fst snd].
  destruct (Harmonize.candidate_indices_of _) as [| top rest]; [reflexivity |].
  destruct (nth_error _ top) as [q |]; simpl; [| reflexivity].
  destruct (Qltb q (1 # 10)); simpl; [reflexivity |].
  destruct (Harmonize.rerank description data (top :: rest)) as [best |]; simpl;
    [| reflexivity].
  destruct (iloc data (snd best)) as [row |]; reflexivity.
Qed.

Hypothesis rows : length similarities = length data.

Lemma candidates_in_table : Forall (fun c => c < length data) candidates.
Proof.
  apply Forall_forall. intros c Hc. rewrite <- rows.
  now apply candidates_valid.
Qed.

(** Below the threshold. *)
Lemma search_below :
  forall top rest,
    candidates = top :: rest ->
    (nth top similarities 0 < 1 # 10)%Q ->
    result_of (search data tfidf_matrix vectorizer system description)
    = Some (not_found system).
Proof.
  intros top rest E Hlt. rewrite search_result, E.
  assert (Htop : top < length similarities).
  { apply candidates_valid. rewrite E. now left. }
  rewrite (nth_error_nth' similarities 0%Q Htop). simpl.
  apply Qltb_true in Hlt. now rewrite Hlt.
Qed.

(** At or above the threshold a row of the table comes back, whatever
    the scores are: the index the loop ends with is a candidate, or the
    initial -1, which [iloc] reads as the last row. *)
Lemma search_returns_row :
  forall top rest,
    candidates = top :: rest ->
    (1 # 10 <= nth top similarities 0)%Q ->
    exists row,
      In row data
      /\ result_of (search data tfidf_matrix vectorizer system description)
         = Some {| System := system; Code := CODE row; Description := STR row |}.
Proof.
  intros top rest E Hge. rewrite search_result, E.
  assert (Htop : top < length similarities).
  { apply candidates_valid. rewrite E. now left. }
  rewrite (nth_error_nth' similarities 0%Q Htop). simpl.
  apply Qltb_false in Hge. rewrite Hge.
  destruct (rerank_index description data candidates candidates_in_table)
    as [best [Hr Hidx]].
  rewrite <- E, Hr. simpl.
  destruct Hidx as [Hidx | [b [Hb Hidx]]]; rewrite Hidx.
  - destruct (iloc_minus_one data) as [row [Hrow Hin]].
    { intros Hd. rewrite Hd in rows. simpl in rows. lia. }
    rewrite Hrow. simpl. exists row. now split.
  - rewrite iloc_nat.
    assert (Hlt : b < length data).
    { pose proof candidates_in_table as H. rewrite Forall_forall in H. now apply H. }
    destruct (nth_error data b) as [row |] eqn:Erow.
    + simpl. exists row. split; [eapply nth_error_In; eauto | reflexivity].
    + apply nth_error_None in Erow. lia.
Qed.

(** At or above the threshold, for a query of fewer than 2^53 words: the
    row of the first candidate of highest score. *)
Lemma search_rerank :
  forall top rest,
    (Z.of_nat (length (set_of (split description))) < 2 ^ 53)%Z ->
    candidates = top :: rest ->
    (1 # 10 <= nth top similarities 0)%Q ->
    exists i b row,
      first_max (score_at description data) candidates i b
      /\ nth_error data b = Some row
      /\ result_of (search data tfidf_matrix vectorizer system description)
         = Some {| System := system; Code := CODE row; Description := STR row |}.
Proof.
  intros top rest Hwords E Hge. rewrite search_result, E.
  assert (Htop : top < length similarities).
  { apply candidates_valid. rewrite E. now left. }
  rewrite (nth_error_nth' similarities 0%Q Htop). simpl.
  apply Qltb_false in Hge. rewrite Hge.
  destruct (rerank_first_max description data candidates Hwords) as [i [b [Hr Hmax]]].
  { rewrite E. discriminate. }
  { exact candidates_in_table. }
  rewrite <- E, Hr. simpl. rewrite iloc_nat.
  destruct Hmax as [Hnth Hmax].
  assert (Hb : b < length data).
  { pose proof candidates_in_table as H. rewrite Forall_forall in H.
    apply H. eapply nth_error_In; eauto. }
  destruct (nth_error data b) as [row |] eqn:Erow.
  - exists i, b, row. repeat split; try assumption; apply Hmax.
  - apply nth_error_None in Erow. lia.
Qed.

End SearchSpec.

(** ** The concrete instance meets the contracts *)

Lemma insert_idx_perm :
  forall sims i l, Permutation (insert_idx sims i l) (i :: l).
Proof.
  intros sims i l. induction l as [| j l IH]; simpl.
  - apply Permutation_refl.
  - destruct (Qltb (nth j sims 0%Q) (nth i sims 0%Q)).
    + eapply perm_trans; [apply perm_skip, IH | apply perm_swap].
    + apply Permutation_refl.
Qed.

Lemma stable_argsort_perm :
  forall sims, Permutation (stable_argsort sims) (seq 0 (length sims)).
Proof.
  intros sims. unfold stable_argsort.
  induction (seq 0 (length sims)) as [| i l IH]; simpl.
  - constructor.
  - eapply perm_trans; [apply insert_idx_perm | now apply perm_skip].
Qed.

Lemma insert_idx_sorted :
  forall sims i l,
    StronglySorted (fun a b => nth a sims 0 <= nth b sims 0)%Q l ->
    StronglySorted (fun a b => nth a sims 0 <= nth b sims 0)%Q (insert_idx sims i l).
Proof.
  intros sims i l H. induction H as [| j l Hs IH Hall]; simpl.
  - constructor; [constructor | constructor].
  - destruct (Qltb (nth j sims 0%Q) (nth i sims 0%Q)) eqn:E.
    + apply Qltb_true in E. constructor; [exact IH |].
      apply (Permutation_Forall (Permutation_sym (insert_idx_perm sims i l))).
      constructor; [now apply Qlt_le_weak | exact Hall].
    + apply Qltb_false in E. constructor; [now constructor |].
      constructor; [exact E |].
      eapply Forall_impl; [| exact Hall].
      intros a Ha. simpl in Ha. eapply Qle_trans; eauto.
Qed.

Lemma stable_argsort_sorted :
  forall sims,
    StronglySorted (fun a b => nth a sims 0 <= nth b sims 0)%Q (stable_argsort sims).
Proof.
  intros sims. unfold stable_argsort.
  induction (seq 0 (length sims)) as [| i l IH]; simpl.
  - constructor.
  - now apply insert_idx_sorted.
Qed.

Lemma exact_ratio_range : forall a b, (0 <= exact_ratio a b <= 100)%Z.
Proof. intros a b. unfold exact_ratio. destruct (text_eqb a b); lia. Qed.

Lemma sample_libraries_ok : LibrariesOk sample_libraries.
Proof.
  constructor.
  - exact stable_argsort_perm.
  - exact stable_argsort_sorted.
  - exact exact_ratio_range.
Qed.


(** ** The threshold of stage 1 *)

Section Threshold.
Context {L : Libraries} {OK : LibrariesOk L}.

(** C1, as amended. For a query that is not blank: when the best cosine
    similarity is strictly below 0.1 the result is NOT_FOUND; when it is
    0.1 or above the rerank stage runs and the result carries the code and
    the raw text of a row of the table. *)
Theorem threshold_strict :
  forall description entity_type snomed_data rxnorm_data snomed_tfidf rxnorm_tfidf
         snomed_vectorizer rxnorm_vectorizer data tfidf_matrix vectorizer system,
    strip description <> [] ->
    route entity_type snomed_data rxnorm_data snomed_tfidf rxnorm_tfidf
      snomed_vectorizer rxnorm_vectorizer = (data, tfidf_matrix, vectorizer, system) ->
    let similarities := cosine_similarity (transform vectorizer description) tfidf_matrix in
    length similarities = length data ->
    forall best, In best similarities ->
      (forall x, In x similarities -> (x <= best)%Q) ->
      ((best < 1 # 10)%Q ->
         result_of (Harmonize.find_best_match description entity_type snomed_data
                      rxnorm_data snomed_tfidf rxnorm_tfidf snomed_vectorizer
                      rxnorm_vectorizer)
         = Some (not_found system))
      /\ ((1 # 10 <= best)%Q ->
            exists row,
              In row data
              /\ result_of (Harmonize.find_best_match description entity_type snomed_data
                              rxnorm_data snomed_tfidf rxnorm_tfidf snomed_vectorizer
                              rxnorm_vectorizer)
                 = Some {| System := system; Code := CODE row; Description := STR row |}).
Proof.
  intros d et sd rd st rt sv rv data m v sys Hnb Hroute sims Hrows best Hin Hmax.
  rewrite (find_best_match_search _ _ _ _ _ _ _ _ _ _ _ _ Hroute).
  destruct (Harmonize.candidate_indices_of sims) as [| top rest] eqn:E.
  { pose proof (candidates_length sims) as Hlen. rewrite E in Hlen. simpl in Hlen.
    destruct sims; [destruct Hin | simpl in Hlen; lia]. }
  assert (Htop : top < length sims).
  { apply candidates_valid. rewrite E. now left. }
  assert (Hle : (best <= nth top sims 0)%Q).
  { apply In_nth_error in Hin. destruct Hin as [i Hi].
    assert (Hlt : i < length sims) by (apply nth_error_Some; congruence).
    rewrite (nth_error_nth' sims 0%Q Hlt) in Hi. inversion Hi as [Hi'].
    exact (top_candidate_max sims top rest i E Hlt). }
  assert (Hge : (nth top sims 0 <= best)%Q) by (apply Hmax, nth_In, Htop).
  split; intros Hb.
  - apply (search_below data m v sys d Hnb top rest E). fold sims. lra.
  - apply (search_returns_row data m v sys d Hnb Hrows top rest E).
    fold sims. lra.
Qed.

End Threshold.

(** C1 at a best similarity of 0.2: the row is returned. *)
Lemma threshold_strict_witness :
  exists row,
    In row [metformin_row]
    /\ result_of (Harmonize.find_best_match (L := sample_libraries) (t "metformin")
                    (PyStr (t "Medication")) [] [metformin_row] [] [2 # 10] tt tt)
       = Some {| System := t "RXNORM"; Code := CODE row; Description := STR row |}.
Proof.
  refine (proj2 (threshold_strict (L := sample_libraries) (OK := sample_libraries_ok)
                   (t "metformin") (PyStr (t "Medication")) [] [metformin_row] []
                   [2 # 10] tt tt [metformin_row] [2 # 10] tt (t "RXNORM")
                   _ _ _ (2 # 10) _ _) _).
  - discriminate.
  - reflexivity.
  - reflexivity.
  - simpl. now left.
  - simpl. intros x [Hx | []]. subst x. apply Qle_refl.
  - vm_compute. discriminate.
Defined.

(** C1 as stated fails at a best similarity of exactly 0.1: the comparison
    with the threshold is strict, so the query goes on to the rerank and the
    row is returned. *)
Lemma threshold_inclusive_counterexample :
  @cosine_similarity sample_libraries
    (@transform sample_libraries tt (t "metformin")) [1 # 10]
  = [1 # 10]
  /\ result_of (Harmonize.find_best_match (L := sample_libraries) (t "metformin")
                  (PyStr (t "Medication")) [] [metformin_row] [] [1 # 10] tt tt)
     = Some {| System := t "RXNORM"; Code := t "6809"; Description := t "Metformin" |}
  /\ result_of (Harmonize.find_best_match (L := sample_libraries) (t "metformin")
                  (PyStr (t "Medication")) [] [metformin_row] [] [1 # 10] tt tt)
     <> Some (not_found (t "RXNORM")).
Proof.
  split; [vm_compute; reflexivity | split; [vm_compute; reflexivity |]].
  vm_compute. discriminate.
Qed.

(** ** The rerank of stage 2 *)

Lemma set_of_In : forall words w, In w (set_of words) <-> In w words.
Proof. intros words w. unfold set_of. apply nodup_In. Qed.

Lemma set_of_NoDup : forall words, NoDup (set_of words).
Proof. intros words. unfold set_of. apply NoDup_nodup. Qed.

Lemma intersection_In :
  forall a b w, In w (intersection a b) <-> In w a /\ In w b.
Proof.
  intros a b w. unfold intersection. rewrite filter_In.
  destruct (in_dec text_dec w b); intuition congruence.
Qed.

Lemma intersection_NoDup : forall a b, NoDup a -> NoDup (intersection a b).
Proof. intros a b H. unfold intersection. now apply NoDup_filter. Qed.

Lemma split_aux_open :
  forall s cur, cur <> [] -> split_aux cur s <> [].
Proof.
  induction s as [| c s IH]; intros cur Hcur; simpl.
  - destruct cur; [contradiction | discriminate].
  - destruct (isspace c).
    + destruct cur; [contradiction | discriminate].
    + apply IH. discriminate.
Qed.

Lemma lstrip_nil_split_aux :
  forall s, lstrip s <> [] -> split_aux [] s <> [].
Proof.
  induction s as [| c s IH]; intros H; [contradiction |].
  simpl in H. simpl. destruct (isspace c).
  - now apply IH.
  - apply split_aux_open. discriminate.
Qed.

(** A description that is not blank has a word. *)
Lemma split_nonblank : forall s, strip s <> [] -> split s <> [].
Proof.
  intros s H. apply lstrip_nil_split_aux. intros E.
  apply H. unfold strip. now rewrite E.
Qed.

Section Rerank.
Context {L : Libraries} {OK : LibrariesOk L}.


End Rerank.



(** ** The candidates of stage 1 *)

Section TopTwenty.
Context {L : Libraries} {OK : LibrariesOk L}.

(** C3, as amended. On a table of at least twenty rows, stage 1 selects
    twenty distinct positions, lists them by descending similarity, and no
    position left out has a higher similarity than a selected one.  Which
    of several positions of equal similarity is selected, and in which
    order they are listed, is whatever argsort does with equal values. *)
Theorem stage1_top_twenty :
  forall similarities : list Q,
    20 <= length similarities ->
    let candidates := Harmonize.candidate_indices_of similarities in
    length candidates = 20
    /\ NoDup candidates
    /\ (forall c, In c candidates -> c < length similarities)
    /\ StronglySorted
         (fun i j => nth j similarities 0 <= nth i similarities 0)%Q candidates
    /\ (forall i c,
          i < length similarities -> ~ In i candidates -> In c candidates ->
          (nth i similarities 0 <= nth c similarities 0)%Q).
Proof.
  intros sims Hlen cands. subst cands.
  split; [rewrite candidates_length; lia |].
  split; [apply candidates_NoDup |].
  split; [apply candidates_valid |].
  split; [apply candidates_descending | apply candidates_dominate].
Qed.

End TopTwenty.

(** C3 on the twenty-one similarities above. *)
Lemma stage1_top_twenty_witness :
  let candidates := Harmonize.candidate_indices_of (L := sample_libraries) tied_similarities in
  length candidates = 20
  /\ NoDup candidates
  /\ (forall c, In c candidates -> c < length tied_similarities)
  /\ StronglySorted
       (fun i j => nth j tied_similarities 0 <= nth i tied_similarities 0)%Q candidates
  /\ (forall i c,
        i < length tied_similarities -> ~ In i candidates -> In c candidates ->
        (nth i tied_similarities 0 <= nth c tied_similarities 0)%Q).
Proof.
  apply (stage1_top_twenty (L := sample_libraries) (OK := sample_libraries_ok)
           tied_similarities).
  simpl. lia.
Defined.

(** C3 as stated fails with a stable argsort: positions 19 and 20 have the
    same similarity and 20 is listed first; positions 0 and 1 have the same
    similarity and 1 is selected while 0 is left out.  Ascending order puts
    the earlier of two equal values first, and the list is then reversed. *)
Lemma earlier_position_counterexample :
  let candidates := Harmonize.candidate_indices_of (L := sample_libraries) tied_similarities in
  candidates = [20; 19; 18; 17; 16; 15; 14; 13; 12; 11; 10; 9; 8; 7; 6; 5; 4; 3; 2; 1]
  /\ nth 19 tied_similarities 0%Q = nth 20 tied_similarities 0%Q
  /\ nth 0 tied_similarities 0%Q = nth 1 tied_similarities 0%Q
  /\ In 1 candidates /\ ~ In 0 candidates.
Proof.
  split; [reflexivity | split; [reflexivity | split; [reflexivity | split]]].
  - simpl. tauto.
  - simpl. intros H. repeat (destruct H as [H | H]; [discriminate H |]). exact H.
Qed.

(** ** The empty-input contract *)

Section EmptyInput.
Context {L : Libraries}.

(** C5. A value that is no string is cleaned to the empty string by both
    cleaners, without an error; and a description that is empty after
    trimming gets the NO_INPUT result at once: the log of calls into the
    vectorizer and the similarity function is empty. *)
Theorem empty_input_contract :
  forall correction_map redundant_keywords value description entity_type
         snomed_data rxnorm_data snomed_tfidf rxnorm_tfidf
         snomed_vectorizer rxnorm_vectorizer,
    (forall s, value <> PyStr s) ->
    strip description = [] ->
    Harmonize.create_cleaner correction_map redundant_keywords value = Some []
    /\ Demo.create_cleaner correction_map redundant_keywords value = Some []
    /\ log_of (Harmonize.find_best_match description entity_type snomed_data
                 rxnorm_data snomed_tfidf rxnorm_tfidf snomed_vectorizer
                 rxnorm_vectorizer) = []
    /\ exists system,
         result_of (Harmonize.find_best_match description entity_type snomed_data
                      rxnorm_data snomed_tfidf rxnorm_tfidf snomed_vectorizer
                      rxnorm_vectorizer)
         = Some {| System := system; Code := t "NO_INPUT";
                   Description := t "Original text was empty after cleaning" |}.
Proof.
  intros cm kws v d et sd rd st rt sv rv Hv Hd.
  split; [| split].
  - destruct v; try reflexivity. exfalso. now apply (Hv s).
  - destruct v; try reflexivity. exfalso. now apply (Hv s).
  - destruct (route et sd rd st rt sv rv) as [[[data m] vec] sys] eqn:Hroute.
    rewrite (find_best_match_search _ _ _ _ _ _ _ _ _ _ _ _ Hroute).
    rewrite (search_blank data m vec sys d Hd).
    split; [reflexivity | exists sys; reflexivity].
Qed.

End EmptyInput.

(** C5 at a missing cell and at a description of blanks. *)
Lemma empty_input_contract_witness :
  Harmonize.create_cleaner [] [t "mouth"] PyNaN = Some []
  /\ Demo.create_cleaner (L := sample_libraries) [] [t "mouth"] PyNaN = Some []
  /\ log_of (Harmonize.find_best_match (L := sample_libraries) (t "  ")
               (PyStr (t "Lab")) [] [metformin_row] [] [1 # 2] tt tt) = []
  /\ exists system,
       result_of (Harmonize.find_best_match (L := sample_libraries) (t "  ")
                    (PyStr (t "Lab")) [] [metformin_row] [] [1 # 2] tt tt)
       = Some {| System := system; Code := t "NO_INPUT";
                 Description := t "Original text was empty after cleaning" |}.
Proof.
  apply (empty_input_contract (L := sample_libraries) [] [t "mouth"] PyNaN (t "  ")).
  - discriminate.
  - reflexivity.
Defined.

(** ** The System field *)

Section SystemField.
Context {L : Libraries} {OK : LibrariesOk L}.

(** C10. When each table has one row per similarity, every call returns a
    result, and its System field is SNOMEDCT_US for an entity type among
    Procedure, Lab and Diagnosis and RXNORM for any other: it depends on
    the entity type alone and is never one of the sentinels. *)
Theorem system_is_a_coding_system :
  forall description entity_type snomed_data rxnorm_data snomed_tfidf rxnorm_tfidf
         snomed_vectorizer rxnorm_vectorizer,
    (forall x, length (cosine_similarity x snomed_tfidf) = length snomed_data) ->
    (forall x, length (cosine_similarity x rxnorm_tfidf) = length rxnorm_data) ->
    exists r,
      result_of (Harmonize.find_best_match description entity_type snomed_data
                   rxnorm_data snomed_tfidf rxnorm_tfidf snomed_vectorizer
                   rxnorm_vectorizer) = Some r
      /\ System r = (if entity_in entity_type [t "Procedure"; t "Lab"; t "Diagnosis"]
                     then t "SNOMEDCT_US" else t "RXNORM")
      /\ System r <> t "NO_INPUT" /\ System r <> t "NOT_FOUND".
Proof.
  intros d et sd rd st rt sv rv Hs Hr.
  destruct (route et sd rd st rt sv rv) as [[[data m] vec] sys] eqn:Hroute.
  rewrite (find_best_match_search _ _ _ _ _ _ _ _ _ _ _ _ Hroute).
  assert (Hrows : forall x, length (cosine_similarity x m) = length data).
  { unfold route in Hroute.
    destruct (entity_in et snomed_types); inversion Hroute; subst; assumption. }
  assert (Hsys : sys = (if entity_in et [t "Procedure"; t "Lab"; t "Diagnosis"]
                        then t "SNOMEDCT_US" else t "RXNORM")).
  { unfold route in Hroute. change [t "Procedure"; t "Lab"; t "Diagnosis"] with snomed_types.
    destruct (entity_in et snomed_types); inversion Hroute; reflexivity. }
  assert (Hres : exists r, result_of (search data m vec sys d) = Some r).
  { destruct (strip d) as [| c s'] eqn:Hd.
    - rewrite (search_blank data m vec sys d Hd). eexists. reflexivity.
    - assert (Hnb : strip d <> []) by (rewrite Hd; discriminate).
      destruct (Harmonize.candidate_indices_of (cosine_similarity (transform vec d) m))
        as [| top rest] eqn:E.
      + rewrite (search_result data m vec sys d Hnb), E. eexists. reflexivity.
      + destruct (Qlt_le_dec (nth top (cosine_similarity (transform vec d) m) 0%Q) (1 # 10))
          as [Hlt | Hge].
        * rewrite (search_below data m vec sys d Hnb top rest E Hlt).
          eexists. reflexivity.
        * destruct (search_returns_row data m vec sys d Hnb (Hrows _) top rest E Hge)
            as [row [_ Hres]].
          rewrite Hres. eexists. reflexivity. }
  destruct Hres as [r Hres]. exists r. split; [exact Hres |].
  pose proof (search_system data m vec sys d r Hres) as Hlabel.
  rewrite Hlabel, Hsys.
  split; [reflexivity |].
  destruct (entity_in et [t "Procedure"; t "Lab"; t "Diagnosis"]); split; discriminate.
Qed.

End SystemField.

(** C10 at a query below the threshold, whose Code is the NOT_FOUND
    sentinel. *)
Lemma system_is_a_coding_system_witness :
  exists r,
    result_of (Harmonize.find_best_match (L := sample_libraries) (t "fever")
                 (PyStr (t "Diagnosis")) [aspirin_row] [metformin_row]
                 [1 # 100] [1 # 2] tt tt) = Some r
    /\ System r = (if entity_in (PyStr (t "Diagnosis")) [t "Procedure"; t "Lab"; t "Diagnosis"]
                   then t "SNOMEDCT_US" else t "RXNORM")
    /\ System r <> t "NO_INPUT" /\ System r <> t "NOT_FOUND".
Proof.
  apply (system_is_a_coding_system (L := sample_libraries) (OK := sample_libraries_ok)).
  - reflexivity.
  - reflexivity.
Defined.

(** ** Calls into the vectorizer *)

Section Calls.
Context {L : Libraries}.

(** X5. A call with a description that is not blank makes exactly one
    vector projection, of the description, followed by one similarity
    computation, whatever its outcome; a call with a blank description
    makes none. *)
Theorem one_projection_per_call :
  forall description entity_type snomed_data rxnorm_data snomed_tfidf rxnorm_tfidf
         snomed_vectorizer rxnorm_vectorizer,
    log_of (Harmonize.find_best_match description entity_type snomed_data
              rxnorm_data snomed_tfidf rxnorm_tfidf snomed_vectorizer
              rxnorm_vectorizer)
    = match strip description with
      | [] => []
      | _ => [EvTransform description; EvCosineSimilarity]
      end.
Proof.
  intros d et sd rd st rt sv rv.
  destruct (route et sd rd st rt sv rv) as [[[data m] vec] sys] eqn:Hroute.
  rewrite (find_best_match_search _ _ _ _ _ _ _ _ _ _ _ _ Hroute).
  destruct (strip d) as [| c s'] eqn:Hd.
  - now rewrite (search_blank data m vec sys d Hd).
  - apply search_log. rewrite Hd. discriminate.
Qed.

End Calls.

(** ** The cleaners, pass by pass *)

Lemma harmonize_cleaner_passes :
  forall correction_map redundant_keywords s,
    Harmonize.create_cleaner correction_map redundant_keywords (PyStr s)
    = text7 <- strip_passes correction_map redundant_keywords s ;; tidy text7.
Proof.
  intros cm kws s.
  unfold Harmonize.create_cleaner, Harmonize.clean_and_standardize, strip_passes,
    regex_passes, tidy.
  destruct (strip_sig (strip (lower s))) as [t2 |]; cbn [obind]; [| reflexivity].
  destruct (strip_take t2) as [t3 |]; cbn [obind]; [| reflexivity].
  destruct (strip_dose t3) as [t4 |]; cbn [obind]; [| reflexivity].
  destruct (strip_stop_phrases t4) as [t5 |]; cbn [obind]; [| reflexivity].
  destruct (apply_corrections cm t5) as [t6 |]; cbn [obind]; reflexivity.
Qed.

Lemma demo_cleaner_passes :
  forall (L : Libraries) correction_map redundant_keywords s,
    Demo.create_cleaner correction_map redundant_keywords (PyStr s)
    = text7 <- strip_passes correction_map redundant_keywords s ;;
      tidy (Demo.lemmatize_words text7).
Proof.
  intros L cm kws s.
  unfold Demo.create_cleaner, Demo.clean_and_standardize, strip_passes,
    regex_passes, tidy.
  destruct (strip_sig (strip (lower s))) as [t2 |]; cbn [obind]; [| reflexivity].
  destruct (strip_take t2) as [t3 |]; cbn [obind]; [| reflexivity].
  destruct (strip_dose t3) as [t4 |]; cbn [obind]; [| reflexivity].
  destruct (strip_stop_phrases t4) as [t5 |]; cbn [obind]; [| reflexivity].
  destruct (apply_corrections cm t5) as [t6 |]; cbn [obind]; reflexivity.
Qed.

(** ** The two scripts compared *)

Section TwoScripts.
Context {L : Libraries}.

(** C8, as amended. The two scripts have the same [find_best_match]; their
    cleaners agree on every value that is no string; and on a string they
    agree whenever demo.py's extra pass (tokenize, lemmatize, join) leaves
    the final cleanup of the stripped text unchanged.  The extra pass is
    the only difference between the cleaners. *)
Theorem scripts_share_matcher :
  Demo.find_best_match = Harmonize.find_best_match
  /\ (forall correction_map redundant_keywords value,
        (forall s, value <> PyStr s) ->
        Demo.create_cleaner correction_map redundant_keywords value
        = Harmonize.create_cleaner correction_map redundant_keywords value)
  /\ (forall correction_map redundant_keywords s,
        (forall text7,
           strip_passes correction_map redundant_keywords s = Some text7 ->
           tidy (Demo.lemmatize_words text7) = tidy text7) ->
        Demo.create_cleaner correction_map redundant_keywords (PyStr s)
        = Harmonize.create_cleaner correction_map redundant_keywords (PyStr s)).
Proof.
  split; [reflexivity | split].
  - intros cm kws v Hv. destruct v; try reflexivity. exfalso. now apply (Hv s).
  - intros cm kws s H.
    rewrite demo_cleaner_passes, harmonize_cleaner_passes.
    destruct (strip_passes cm kws s) as [text7 |]; cbn [obind]; [| reflexivity].
    now apply H.
Qed.

End TwoScripts.

(** C8 on a text with nothing to lemmatize. *)
Lemma scripts_share_matcher_witness :
  Demo.create_cleaner (L := sample_libraries) [] [] (PyStr (t "Insulin 10 units"))
  = Harmonize.create_cleaner [] [] (PyStr (t "Insulin 10 units")).
Proof.
  apply (proj2 (proj2 (scripts_share_matcher (L := sample_libraries)))).
  intros text7 H. vm_compute in H. inversion H. reflexivity.
Defined.

(** C8 as stated fails wherever the lemmatizer changes a word: with a
    lemmatizer that turns hours into hour, as WordNet's does, demo.py's
    cleaner and harmonize.py's give different strings. *)
Lemma cleaners_differ_counterexample :
  Demo.create_cleaner (L := sample_libraries) [] [] (PyStr (t "every 8 hours"))
  = Some (t "8 hour")
  /\ Harmonize.create_cleaner [] [] (PyStr (t "every 8 hours")) = Some (t "8 hours")
  /\ Demo.create_cleaner (L := sample_libraries) [] [] (PyStr (t "every 8 hours"))
     <> Harmonize.create_cleaner [] [] (PyStr (t "every 8 hours")).
Proof.
  split; [vm_compute; reflexivity | split; [vm_compute; reflexivity |]].
  vm_compute. discriminate.
Qed.

(** ** Redundant keywords are patterns *)

(** C6 at the failing input.  A keyword goes into its pattern unescaped, so
    the keyword tablet|capsule gives the pattern \btablet|capsule\b, an
    alternation between \btablet and capsule\b: in the text two tablets
    the beginning of the longer token tablets is removed.  The corrections
    loop escapes its keys, and the same string as a correction key leaves
    the text alone. *)
Theorem keyword_pattern_cuts_token :
  Harmonize.create_cleaner [] [t "tablet|capsule"] (PyStr (t "two tablets"))
  = Some (t "two s")
  /\ Harmonize.create_cleaner [(t "tablet|capsule", t "")] [] (PyStr (t "two tablets"))
     = Some (t "two tablets")
  /\ re_compile (t "\b" ++ t "tablet|capsule" ++ t "\b")
     = Some (Alt (Seq Bnd (Seq (Chr "t") (Seq (Chr "a") (Seq (Chr "b")
                   (Seq (Chr "l") (Seq (Chr "e") (Seq (Chr "t") Eps)))))))
                 (Seq (Chr "c") (Seq (Chr "a") (Seq (Chr "p") (Seq (Chr "s")
                   (Seq (Chr "u") (Seq (Chr "l") (Seq (Chr "e") (Seq Bnd Eps))))))))).
Proof.
  split; [vm_compute; reflexivity | split; vm_compute; reflexivity].
Qed.

(** ** The end-to-end example *)

Lemma example_fixed_passes :
  (text2 <- strip_sig (strip (lower example_description)) ;;
   text3 <- strip_take text2 ;;
   text4 <- strip_dose text3 ;;
   strip_stop_phrases text4) = Some example_residue.
Proof. reflexivity. Qed.

Section Example.
Context {L : Libraries} {OK : LibrariesOk L}.

(** A property checked on each of the scores 0 to 100 holds of them. *)
Lemma checked_up_to_100 :
  forall P : Z -> bool,
    forallb P (map Z.of_nat (seq 0 101)) = true ->
    forall w, (0 <= w <= 100)%Z -> P w = true.
Proof.
  intros P H w Hw. rewrite forallb_forall in H. apply H.
  apply in_map_iff. exists (Z.to_nat w). split; [lia |].
  apply in_seq. lia.
Qed.

(** The one word of the query against itself, with a fuzzy score of 100:
    the score is 100. *)
Lemma metformin_self_score :
  final_score 100
    (overlap_score (set_of (split (t "metformin"))) (set_of (split (t "metformin"))))
  = 100%float.
Proof. vm_compute. reflexivity. Qed.

(** No row scores above 100 against the query metformin: its one word is
    a word of the row or it is not, and the fuzzy score is one of 0 to
    100. *)
Lemma metformin_score_bound :
  forall row, (100 <? candidate_score (t "metformin") row)%float = false.
Proof.
  intros row. unfold candidate_score.
  pose proof (WRatio_range (t "metformin") (Cleaned_STR row)) as Hw.
  revert Hw. generalize (WRatio (t "metformin") (Cleaned_STR row)). intros w Hw.
  change (set_of (split (t "metformin"))) with [t "metformin"].
  unfold overlap_score, intersection. cbn [filter].
  destruct (in_dec text_dec (t "metformin") (set_of (split (Cleaned_STR row)))).
  - apply negb_true_iff.
    apply (checked_up_to_100
             (fun w => negb (100 <? final_score w
                                      (float_of_nat 1 / float_of_nat 1 * 100))%float));
      [vm_compute; reflexivity | exact Hw].
  - apply negb_true_iff.
    apply (checked_up_to_100
             (fun w => negb (100 <? final_score w
                                      (float_of_nat 0 / float_of_nat 1 * 100))%float));
      [vm_compute; reflexivity | exact Hw].
Qed.

(** C9, as amended. With a knowledge base whose redundant keywords are
    mouth, hours and 8, harmonize.py's cleaner turns the example into
    metformin, and so does demo.py's when the tokenizer finds the one word
    metformin in what is left and the lemmatizer keeps it; both turn
    Metformin into metformin.  Matching metformin with an entity type that
    is not routed to SNOMED returns the code and raw text of the row whose
    cleaned text is metformin, with the label RXNORM, when that row is the
    first stage-1 candidate, its similarity is at least 0.1 and the fuzzy
    scorer gives identical strings 100. *)
Theorem metformin_example :
  forall entity_type snomed_data rxnorm_data snomed_tfidf rxnorm_tfidf
         snomed_vectorizer rxnorm_vectorizer row top rest,
    let description := t "metformin" in
    let similarities :=
      cosine_similarity (transform rxnorm_vectorizer description) rxnorm_tfidf in
    entity_in entity_type [t "Procedure"; t "Lab"; t "Diagnosis"] = false ->
    length similarities = length rxnorm_data ->
    Harmonize.candidate_indices_of similarities = top :: rest ->
    (1 # 10 <= nth top similarities 0)%Q ->
    nth_error rxnorm_data top = Some row ->
    Cleaned_STR row = description ->
    WRatio description description = 100%Z ->
    word_tokenize (t "      metformin ") = [t "metformin"] ->
    word_tokenize (t "metformin") = [t "metformin"] ->
    lemmatize (t "metformin") = t "metformin" ->
    Harmonize.create_cleaner [] example_keywords (PyStr example_description)
    = Some description
    /\ Demo.create_cleaner [] example_keywords (PyStr example_description)
       = Some description
    /\ Harmonize.create_cleaner [] example_keywords (PyStr (t "Metformin"))
       = Some description
    /\ Demo.create_cleaner [] example_keywords (PyStr (t "Metformin"))
       = Some description
    /\ result_of (Harmonize.find_best_match description entity_type snomed_data
                    rxnorm_data snomed_tfidf rxnorm_tfidf snomed_vectorizer
                    rxnorm_vectorizer)
       = Some {| System := t "RXNORM"; Code := CODE row; Description := STR row |}.
Proof.
  intros et sd rd st rt sv rv row top rest d sims Het Hrows E Hge Hrow Hclean Hw
         Htok1 Htok2 Hlem.
  split; [reflexivity |].
  split.
  { rewrite demo_cleaner_passes.
    change (strip_passes [] example_keywords example_description)
      with (Some (t "      metformin ")).
    cbn [obind]. unfold Demo.lemmatize_words. rewrite Htok1. cbn [map].
    rewrite Hlem. reflexivity. }
  split; [reflexivity |].
  split.
  { rewrite demo_cleaner_passes.
    change (strip_passes [] example_keywords (t "Metformin"))
      with (Some (t "metformin")).
    cbn [obind]. unfold Demo.lemmatize_words. rewrite Htok2. cbn [map].
    rewrite Hlem. reflexivity. }
  assert (Hroute : route et sd rd st rt sv rv = (rd, rt, rv, t "RXNORM")).
  { unfold route. change snomed_types with [t "Procedure"; t "Lab"; t "Diagnosis"].
    now rewrite Het. }
  rewrite (find_best_match_search _ _ _ _ _ _ _ _ _ _ _ _ Hroute).
  assert (Hnb : strip d <> []) by discriminate.
  assert (Hwords : (Z.of_nat (length (set_of (split d))) < 2 ^ 53)%Z)
    by (vm_compute; reflexivity).
  destruct (search_rerank rd rt rv (t "RXNORM") d Hnb Hrows top rest Hwords E Hge)
    as [i [b [row' [[Hnth [Hmax Hfirst]] [Hrow' Hres]]]]].
  fold sims in Hnth, Hmax, Hfirst. rewrite E in Hnth, Hmax, Hfirst.
  assert (Htop : score_at d rd top = 100%float).
  { unfold score_at. rewrite Hrow. unfold candidate_score.
    rewrite Hclean, Hw. apply metformin_self_score. }
  destruct i as [| i'].
  - simpl in Hnth. inversion Hnth; subst b.
    rewrite Hrow in Hrow'. inversion Hrow'; subst row'. exact Hres.
  - exfalso.
    assert (Hlow : (score_at d rd b <=? score_at d rd top)%float = false).
    { apply (Hfirst 0 top); [lia | reflexivity]. }
    rewrite Htop in Hlow. unfold score_at in Hlow. rewrite Hrow' in Hlow.
    rewrite float_le_total in Hlow; [discriminate Hlow | | reflexivity |].
    + apply float_nonneg_number. now apply candidate_score_nonneg.
    + apply metformin_score_bound.
Qed.

End Example.

(** C9 on a table of two rows: the code of the Metformin row comes back
    under RXNORM. *)
Lemma metformin_example_witness :
  Harmonize.create_cleaner [] example_keywords (PyStr example_description)
  = Some (t "metformin")
  /\ Demo.create_cleaner (L := sample_libraries) [] example_keywords
       (PyStr example_description) = Some (t "metformin")
  /\ Harmonize.create_cleaner [] example_keywords (PyStr (t "Metformin"))
     = Some (t "metformin")
  /\ Demo.create_cleaner (L := sample_libraries) [] example_keywords
       (PyStr (t "Metformin")) = Some (t "metformin")
  /\ result_of (Harmonize.find_best_match (L := sample_libraries) (t "metformin")
                  (PyStr (t "Medication")) [] metformin_table [] [0 # 1; 1 # 1] tt tt)
     = Some {| System := t "RXNORM"; Code := t "6809"; Description := t "Metformin" |}.
Proof.
  apply (metformin_example (L := sample_libraries) (OK := sample_libraries_ok)
           (PyStr (t "Medication")) [] metformin_table [] [0 # 1; 1 # 1] tt tt
           metformin_row 1 [0]).
  - vm_compute; reflexivity.
  - vm_compute; reflexivity.
  - vm_compute; reflexivity.
  - vm_compute. discriminate.
  - vm_compute; reflexivity.
  - vm_compute; reflexivity.
  - vm_compute; reflexivity.
  - vm_compute; reflexivity.
  - vm_compute; reflexivity.
  - vm_compute; reflexivity.
Defined.

(** C9 as stated fails for the empty knowledge base: the example is cleaned
    to mouth 8 hours metformin by harmonize.py, and to mouth 8 hour
    metformin by demo.py with a lemmatizer that turns hours into hour;
    neither is the single word metformin. *)
Lemma metformin_only_counterexample :
  Harmonize.create_cleaner [] [] (PyStr example_description)
  = Some (t "mouth 8 hours metformin")
  /\ Demo.create_cleaner (L := sample_libraries) [] [] (PyStr example_description)
     = Some (t "mouth 8 hour metformin")
  /\ Harmonize.create_cleaner [] [] (PyStr example_description) <> Some (t "metformin")
  /\ Demo.create_cleaner (L := sample_libraries) [] [] (PyStr example_description)
     <> Some (t "metformin").
Proof.
  split; [vm_compute; reflexivity | split; [vm_compute; reflexivity |]].
  split; vm_compute; discriminate.
Qed.

(** ** The final cleanup in closed form *)

Lemma rmatch_star :
  forall r prev s k, rmatch (Star r) prev s k = star_loop r k (length s) prev s.
Proof. reflexivity. Qed.

Lemma other_chars_compiled : re_compile (t "[^a-z0-9\s]") = Some other_chars_re.
Proof. vm_compute. reflexivity. Qed.

Lemma spaces_compiled : re_compile (t "\s+") = Some spaces_re.
Proof. vm_compute. reflexivity. Qed.

Lemma sub_loop_other_chars :
  forall fuel prev s,
    length s < fuel ->
    sub_loop fuel other_chars_re (t " ") false prev s = map blank s.
Proof.
  induction fuel as [| f IH]; intros prev s Hlen; [lia |].
  destruct s as [| c s']; [reflexivity |].
  cbn [sub_loop match_at other_chars_re rmatch andb].
  unfold blank at 1, keeps at 1. cbn [map].
  destruct (cls_matches true [CRange "a" "z"; CRange "0" "9"; CSpace] c); cbn [negb].
  - assert (E : (length s' =? length (c :: s')) = false)
      by (apply Nat.eqb_neq; simpl; lia).
    rewrite E. change (t " " ++ ?x) with (" "%char :: x).
    f_equal. apply IH. simpl in *. lia.
  - f_equal. apply IH. simpl in *. lia.
Qed.

Lemma replace_other_chars_eq :
  forall s, replace_other_chars s = Some (map blank s).
Proof.
  intros s. unfold replace_other_chars, re_sub.
  rewrite other_chars_compiled. change (is_literal_repl (t " ")) with true.
  cbv iota. unfold sub. f_equal. apply sub_loop_other_chars. lia.
Qed.

Lemma skip_spaces_lstrip : forall prev s, snd (skip_spaces prev s) = lstrip s.
Proof.
  intros prev s. revert prev. induction s as [| c s' IH]; intros prev; simpl.
  - reflexivity.
  - destruct (isspace c); [apply IH | reflexivity].
Qed.

Lemma lstrip_length : forall s, length (lstrip s) <= length s.
Proof.
  induction s as [| c s' IH]; simpl; [lia |].
  destruct (isspace c); simpl; lia.
Qed.

Lemma cls_space : forall c, cls_matches false [CSpace] c = isspace c.
Proof. intros c. unfold cls_matches. simpl. now rewrite orb_false_r. Qed.

Lemma star_loop_spaces :
  forall k n prev s,
    (forall p s', k p s' = Some (p, s')) ->
    length s <= n ->
    star_loop (Cls false [CSpace]) k n prev s = Some (skip_spaces prev s).
Proof.
  intros k n. induction n as [| n' IH]; intros prev s Hk Hlen.
  - destruct s; [| simpl in Hlen; lia]. simpl. apply Hk.
  - destruct s as [| c s'].
    + simpl. apply Hk.
    + cbn [star_loop rmatch]. rewrite cls_space. cbn [skip_spaces].
      destruct (isspace c).
      * assert (E : (length s' <? length (c :: s')) = true)
          by (apply Nat.ltb_lt; simpl; lia).
        rewrite E. fold (star_loop (Cls false [CSpace]) k).
        rewrite IH; [reflexivity | exact Hk | simpl in Hlen; lia].
      * apply Hk.
Qed.

Lemma match_at_spaces :
  forall prev c s',
    match_at spaces_re false prev (c :: s')
    = if isspace c then Some (skip_spaces (Some c) s') else None.
Proof.
  intros prev c s'. unfold match_at, spaces_re. cbn [rmatch].
  rewrite cls_space. destruct (isspace c); [| reflexivity].
  fold (star_loop (Cls false [CSpace])
          (fun (p' : option ascii) (s'0 : text) =>
             if false && (length s'0 =? length (c :: s')) then None else Some (p', s'0))).
  apply star_loop_spaces; [reflexivity | lia].
Qed.

Lemma collapse_in_run : forall s, collapse true s = collapse false (lstrip s).
Proof.
  induction s as [| c s' IH]; simpl; [reflexivity |].
  destruct (isspace c) eqn:E; [exact IH |].
  simpl. now rewrite E.
Qed.

Lemma sub_loop_spaces :
  forall fuel prev s,
    length s < fuel ->
    sub_loop fuel spaces_re (t " ") false prev s = collapse false s.
Proof.
  induction fuel as [| f IH]; intros prev s Hlen; [lia |].
  destruct s as [| c s']; [reflexivity |].
  cbn [sub_loop]. rewrite match_at_spaces. cbn [collapse].
  destruct (isspace c).
  - destruct (skip_spaces (Some c) s') as [p' s''] eqn:Hskip.
    assert (Hs : s'' = lstrip s').
    { rewrite <- (skip_spaces_lstrip (Some c) s'). now rewrite Hskip. }
    pose proof (lstrip_length s') as Hl. rewrite <- Hs in Hl.
    assert (E : (length s'' =? length (c :: s')) = false)
      by (apply Nat.eqb_neq; simpl; lia).
    rewrite E. change (t " " ++ ?x) with (" "%char :: x).
    f_equal. rewrite collapse_in_run, <- Hs.
    apply IH. simpl in *. lia.
  - f_equal. apply IH. simpl in *. lia.
Qed.

Lemma collapse_spaces_eq : forall s, collapse_spaces s = Some (collapse false s).
Proof.
  intros s. unfold collapse_spaces, re_sub.
  rewrite spaces_compiled. change (is_literal_repl (t " ")) with true.
  cbv iota. unfold sub. f_equal. apply sub_loop_spaces. lia.
Qed.

(** The final cleanup never fails, and is this function. *)
Lemma tidy_eq : forall s, tidy s = Some (strip (collapse false (map blank s))).
Proof.
  intros s. unfold tidy. rewrite replace_other_chars_eq. cbn [obind].
  rewrite collapse_spaces_eq. reflexivity.
Qed.

(** ** The normal form of cleaned text *)

Lemma keeps_blank : forall c, keeps (blank c) = true.
Proof. intros c. each_char c. Qed.

Lemma keeps_cases :
  forall c, keeps c = true -> isspace c = false -> clean_char c = true.
Proof. intros c. each_char c; intros; discriminate. Qed.

Lemma space_is_space : forall c, Ascii.eqb c " " = true -> isspace c = true.
Proof. intros c H. apply Ascii.eqb_eq in H. subst c. reflexivity. Qed.

Lemma clean_not_space : forall c, clean_char c = true -> isspace c = false.
Proof. intros c. each_char c. Qed.

Lemma clean_not_blank : forall c, clean_char c = true -> Ascii.eqb c " " = false.
Proof. intros c. each_char c. Qed.

Lemma clean_lower : forall c, clean_char c = true -> lower_char c = c.
Proof. intros c. each_char c. Qed.

Lemma clean_blank : forall c, clean_char c = true -> blank c = c.
Proof. intros c. each_char c. Qed.

Lemma collapse_spaced :
  forall s b, Forall (fun c => keeps c = true) s -> spaced b (collapse b s) = true.
Proof.
  induction s as [| c s' IH]; intros b Hall; [reflexivity |].
  inversion Hall as [| c0 l Hc Hall']; subst. simpl.
  destruct (isspace c) eqn:E.
  - destruct b; [now apply IH |]. simpl. now apply IH.
  - pose proof (keeps_cases c Hc E) as Hclean.
    simpl. rewrite (clean_not_blank c Hclean), Hclean. simpl. now apply IH.
Qed.

Lemma spaced_lstrip : forall s b, spaced b s = true -> spaced true (lstrip s) = true.
Proof.
  induction s as [| c s' IH]; intros b H; [reflexivity |].
  simpl in H. simpl. destruct (Ascii.eqb c " ") eqn:E.
  - rewrite (space_is_space c E). apply andb_true_iff in H. destruct H as [_ H].
    now apply (IH true).
  - apply andb_true_iff in H. destruct H as [Hc H].
    rewrite (clean_not_space c Hc). simpl. now rewrite E, Hc, H.
Qed.

Lemma spaced_rstrip_rec : forall s b, spaced b s = true -> spaced b (rstrip_rec s) = true.
Proof.
  induction s as [| c s' IH]; intros b H; [reflexivity |].
  simpl in H. simpl.
  destruct (Ascii.eqb c " ") eqn:E.
  - apply andb_true_iff in H. destruct H as [Hb H].
    specialize (IH true H).
    destruct (rstrip_rec s') as [| x r].
    + now rewrite (space_is_space c E).
    + simpl. now rewrite E, Hb.
  - apply andb_true_iff in H. destruct H as [Hc H].
    specialize (IH false H).
    destruct (rstrip_rec s') as [| x r].
    + rewrite (clean_not_space c Hc). simpl. now rewrite E, Hc.
    + simpl. now rewrite E, Hc.
Qed.

Lemma rstrip_rec_idem : forall s, rstrip_rec (rstrip_rec s) = rstrip_rec s.
Proof.
  induction s as [| c s' IH]; [reflexivity |]. simpl.
  destruct (rstrip_rec s') as [| x r] eqn:E.
  - destruct (isspace c) eqn:Ec; [reflexivity |]. simpl. now rewrite Ec.
  - simpl. simpl in IH. now rewrite IH.
Qed.

Lemma lstrip_app_keep :
  forall l c m, isspace c = false -> lstrip (l ++ c :: m) = lstrip l ++ c :: m.
Proof.
  induction l as [| x l IH]; intros c m Hc; simpl.
  - now rewrite Hc.
  - destruct (isspace x); [now apply IH | reflexivity].
Qed.

Lemma lstrip_app_spaces :
  forall l c, lstrip l = [] -> isspace c = true -> lstrip (l ++ [c]) = [].
Proof.
  induction l as [| x l IH]; intros c Hl Hc; simpl.
  - now rewrite Hc.
  - simpl in Hl. destruct (isspace x); [now apply IH | discriminate].
Qed.

Lemma lstrip_app_more :
  forall l m, lstrip l <> [] -> lstrip (l ++ m) = lstrip l ++ m.
Proof.
  induction l as [| x l IH]; intros m Hl; simpl.
  - contradiction.
  - simpl in Hl. destruct (isspace x); [now apply IH | reflexivity].
Qed.

Lemma rstrip_rec_eq : forall s, rstrip s = rstrip_rec s.
Proof.
  unfold rstrip. induction s as [| c s' IH]; [reflexivity |].
  simpl. destruct (rstrip_rec s') as [| x r] eqn:E.
  - assert (Hl : lstrip (rev s') = []).
    { rewrite <- (rev_involutive (lstrip (rev s'))), IH. reflexivity. }
    destruct (isspace c) eqn:Ec.
    + now rewrite lstrip_app_spaces.
    + rewrite lstrip_app_keep by exact Ec. rewrite Hl. reflexivity.
  - assert (Hl : lstrip (rev s') <> []).
    { intros Hl. rewrite Hl in IH. discriminate. }
    rewrite lstrip_app_more by exact Hl. rewrite rev_app_distr. simpl.
    now rewrite IH.
Qed.

(** What the final cleanup returns is in normal form. *)
Lemma tidy_normal : forall s y, tidy s = Some y -> normal y.
Proof.
  intros s y H. rewrite tidy_eq in H. inversion H as [Hy]. clear H Hy.
  unfold strip. rewrite rstrip_rec_eq. split.
  - apply spaced_rstrip_rec. apply (spaced_lstrip _ false).
    apply collapse_spaced. apply Forall_forall. intros c Hc.
    apply in_map_iff in Hc. destruct Hc as [x [Hx _]]. subst c. apply keeps_blank.
  - apply rstrip_rec_idem.
Qed.

Lemma spaced_chars :
  forall s b, spaced b s = true ->
              Forall (fun c => clean_char c = true \/ c = " "%char) s.
Proof.
  induction s as [| c s' IH]; intros b H; [constructor |].
  simpl in H. destruct (Ascii.eqb c " ") eqn:E.
  - apply andb_true_iff in H. destruct H as [_ H].
    constructor; [right; now apply Ascii.eqb_eq | now apply (IH true)].
  - apply andb_true_iff in H. destruct H as [Hc H].
    constructor; [now left | now apply (IH false)].
Qed.

Lemma spaced_lower : forall s b, spaced b s = true -> lower s = s.
Proof.
  intros s b H. apply spaced_chars in H. unfold lower.
  induction H as [| c s' Hc _ IH]; [reflexivity |]. simpl. rewrite IH. f_equal.
  destruct Hc as [Hc | Hc]; [now apply clean_lower | subst c; reflexivity].
Qed.

Lemma spaced_blank : forall s b, spaced b s = true -> map blank s = s.
Proof.
  intros s b H. apply spaced_chars in H.
  induction H as [| c s' Hc _ IH]; [reflexivity |]. simpl. rewrite IH. f_equal.
  destruct Hc as [Hc | Hc]; [now apply clean_blank | subst c; reflexivity].
Qed.

Lemma spaced_collapse : forall s b, spaced b s = true -> collapse b s = s.
Proof.
  induction s as [| c s' IH]; intros b H; [reflexivity |].
  simpl in H. simpl. destruct (Ascii.eqb c " ") eqn:E.
  - apply andb_true_iff in H. destruct H as [Hb H].
    rewrite (space_is_space c E). apply Ascii.eqb_eq in E. subst c.
    destruct b; [discriminate |]. f_equal. now apply IH.
  - apply andb_true_iff in H. destruct H as [Hc H].
    rewrite (clean_not_space c Hc). f_equal. now apply IH.
Qed.

Lemma spaced_true_lstrip : forall s, spaced true s = true -> lstrip s = s.
Proof.
  intros [| c s'] H; [reflexivity |]. simpl in H. simpl.
  destruct (Ascii.eqb c " "); [discriminate |].
  apply andb_true_iff in H. destruct H as [Hc _].
  now rewrite (clean_not_space c Hc).
Qed.

(** Text in normal form is a fixed point of lowercasing, of trimming and
    of the final cleanup. *)
Lemma normal_fixed :
  forall y, normal y -> strip (lower y) = y /\ tidy y = Some y.
Proof.
  intros y [Hs Hr].
  assert (Hstrip : strip y = y).
  { unfold strip. rewrite rstrip_rec_eq, (spaced_true_lstrip y Hs). exact Hr. }
  split.
  - now rewrite (spaced_lower y true Hs).
  - rewrite tidy_eq, (spaced_blank y true Hs).
    assert (Hc : collapse false y = y).
    { destruct y as [| c y']; [reflexivity |].
      simpl in Hs. simpl. destruct (Ascii.eqb c " "); [discriminate |].
      apply andb_true_iff in Hs. destruct Hs as [Hc Hs'].
      rewrite (clean_not_space c Hc). f_equal. now apply spaced_collapse. }
    now rewrite Hc, Hstrip.
Qed.

(** ** Cleaning twice *)

Section Idempotence.
Context {L : Libraries}.

(** C4, as amended. What a cleaner returns is in normal form (lowercase
    letters and digits in words separated by single spaces), so lowercasing,
    trimming and the final cleanup leave it unchanged; cleaning it again
    returns it unchanged whenever the six stripping passes find nothing in
    it, and, for demo.py, the lemmatizing pass followed by the final cleanup
    gives it back. *)
Theorem clean_twice_when_nothing_to_strip :
  forall correction_map redundant_keywords x y,
    (Harmonize.create_cleaner correction_map redundant_keywords (PyStr x) = Some y ->
     normal y /\ strip (lower y) = y /\ tidy y = Some y
     /\ (regex_passes correction_map redundant_keywords y = Some y ->
         Harmonize.create_cleaner correction_map redundant_keywords (PyStr y) = Some y))
    /\ (Demo.create_cleaner correction_map redundant_keywords (PyStr x) = Some y ->
        normal y /\ strip (lower y) = y /\ tidy y = Some y
        /\ (regex_passes correction_map redundant_keywords y = Some y ->
            tidy (Demo.lemmatize_words y) = Some y ->
            Demo.create_cleaner correction_map redundant_keywords (PyStr y) = Some y)).
Proof.
  intros cm kws x y. split.
  - intros Hx. rewrite harmonize_cleaner_passes in Hx.
    destruct (strip_passes cm kws x) as [text7 |]; [| discriminate].
    cbn [obind] in Hx. pose proof (tidy_normal text7 y Hx) as Hn.
    destruct (normal_fixed y Hn) as [Hfix Htidy].
    split; [exact Hn | split; [exact Hfix | split; [exact Htidy |]]].
    intros Hpasses. rewrite harmonize_cleaner_passes. unfold strip_passes.
    rewrite Hfix, Hpasses. exact Htidy.
  - intros Hx. rewrite demo_cleaner_passes in Hx.
    destruct (strip_passes cm kws x) as [text7 |]; [| discriminate].
    cbn [obind] in Hx. pose proof (tidy_normal _ y Hx) as Hn.
    destruct (normal_fixed y Hn) as [Hfix Htidy].
    split; [exact Hn | split; [exact Hfix | split; [exact Htidy |]]].
    intros Hpasses Hlem. rewrite demo_cleaner_passes. unfold strip_passes.
    rewrite Hfix, Hpasses. exact Hlem.
Qed.

End Idempotence.

(** C4 on a dosing instruction: its cleaned form is cleaned to itself. *)
Lemma clean_twice_when_nothing_to_strip_witness :
  Harmonize.create_cleaner [] example_keywords (PyStr (t "metformin"))
  = Some (t "metformin")
  /\ Demo.create_cleaner (L := sample_libraries) [] example_keywords
       (PyStr (t "metformin")) = Some (t "metformin").
Proof.
  destruct (clean_twice_when_nothing_to_strip (L := sample_libraries) []
              example_keywords example_description (t "metformin"))
    as [Hh Hd].
  split.
  - apply Hh; vm_compute; reflexivity.
  - apply Hd; vm_compute; reflexivity.
Defined.

(** C4 as stated fails with the empty knowledge base: as-needed is cleaned
    to as needed, the final cleanup having turned the hyphen into a space,
    and as needed is a stop phrase, so cleaning it again gives the empty
    string. *)
Lemma clean_twice_counterexample :
  Harmonize.create_cleaner [] [] (PyStr (t "as-needed")) = Some (t "as needed")
  /\ Harmonize.create_cleaner [] [] (PyStr (t "as needed")) = Some []
  /\ Demo.create_cleaner (L := sample_libraries) [] [] (PyStr (t "as-needed"))
     = Some (t "as needed")
  /\ Demo.create_cleaner (L := sample_libraries) [] [] (PyStr (t "as needed"))
     = Some [].
Proof.
  repeat split; vm_compute; reflexivity.
Qed.

(** ** What a cleaner returns *)

Section CleanerOutput.
Context {L : Libraries}.

(** X3. Whatever either cleaner returns is made of lowercase ASCII letters,
    digits and spaces, and is a fixed point of lowercasing, of trimming and
    of the final cleanup (so it has no space at either end and no two
    spaces in a row). *)
Theorem cleaner_output_normal :
  forall correction_map redundant_keywords value y,
    Harmonize.create_cleaner correction_map redundant_keywords value = Some y
    \/ Demo.create_cleaner correction_map redundant_keywords value = Some y ->
    Forall (fun c => clean_char c = true \/ c = " "%char) y
    /\ lower y = y /\ strip y = y /\ tidy y = Some y.
Proof.
  intros cm kws v y H.
  assert (Hn : normal y).
  { destruct v as [s | | z | q |];
      try (destruct H as [H | H]; inversion H; split; reflexivity).
    destruct H as [H | H].
    - rewrite harmonize_cleaner_passes in H.
      destruct (strip_passes cm kws s) as [text7 |]; [| discriminate].
      exact (tidy_normal _ _ H).
    - rewrite demo_cleaner_passes in H.
      destruct (strip_passes cm kws s) as [text7 |]; [| discriminate].
      exact (tidy_normal _ _ H). }
  destruct (normal_fixed y Hn) as [Hfix Htidy]. destruct Hn as [Hs Hr].
  pose proof (spaced_lower y true Hs) as Hlow.
  split; [exact (spaced_chars y true Hs) |].
  split; [exact Hlow |].
  split; [now rewrite Hlow in Hfix | exact Htidy].
Qed.

End CleanerOutput.

(** The cleaned form of the end-to-end example with the empty knowledge
    base. *)
Lemma cleaner_output_normal_witness :
  Forall (fun c => clean_char c = true \/ c = " "%char) (t "mouth 8 hours metformin")
  /\ lower (t "mouth 8 hours metformin") = t "mouth 8 hours metformin"
  /\ strip (t "mouth 8 hours metformin") = t "mouth 8 hours metformin"
  /\ tidy (t "mouth 8 hours metformin") = Some (t "mouth 8 hours metformin").
Proof.
  apply (cleaner_output_normal (L := sample_libraries) [] [] (PyStr example_description)).
  left. vm_compute. reflexivity.
Defined.

(** ** The order of the correction rules *)

Lemma insert_by_len_perm :
  forall x l, Permutation (insert_by_len x l) (x :: l).
Proof.
  intros x l. induction l as [| y l IH]; simpl.
  - apply Permutation_refl.
  - destruct (length (fst x) <? length (fst y)).
    + eapply perm_trans; [apply perm_skip, IH | apply perm_swap].
    + apply Permutation_refl.
Qed.

Lemma sorted_by_len_perm : forall m, Permutation (sorted_by_len m) m.
Proof.
  intros m. unfold sorted_by_len. induction m as [| x m IH]; simpl.
  - constructor.
  - eapply perm_trans; [apply insert_by_len_perm | now apply perm_skip].
Qed.








(** Three rules with keys of three letters keep the order of the map, and
    the longer key goes in front of them: tab is rewritten to cap before
    the rule for cap runs. *)
Lemma equal_length_rules_example :
  sorted_by_len [(t "tab", t "cap"); (t "cap", t "capsule"); (t "po", t "oral");
                 (t "tabs", t "tablets")]
  = [(t "tabs", t "tablets"); (t "tab", t "cap"); (t "cap", t "capsule"); (t "po", t "oral")]
  /\ apply_corrections [(t "tab", t "cap"); (t "cap", t "capsule")] (t "tab")
     = Some (t "capsule")
  /\ apply_corrections [(t "cap", t "capsule"); (t "tab", t "cap")] (t "tab")
     = Some (t "cap").
Proof. repeat split; vm_compute; reflexivity. Qed.

(** The rule of the two-word key is applied first although it was inserted
    last. *)
Lemma corrections_longest_first_example :
  sorted_by_len [(t "insulin", t "b"); (t "insulin glargine", t "a")]
  = [(t "insulin glargine", t "a"); (t "insulin", t "b")]
  /\ Harmonize.create_cleaner [(t "insulin", t "b"); (t "insulin glargine", t "a")] []
       (PyStr (t "Insulin glargine 10 units")) = Some (t "a").
Proof. split; vm_compute; reflexivity. Qed.

(** ** Escaped keys match whole words only *)

Lemma escaped_char_facts :
  forall c, is_escaped c = true ->
    parse_escape c = Some (Chr c).
Proof. intros c. each_char c. Qed.

Lemma plain_char_facts :
  forall c, is_escaped c = false ->
    (Ascii.eqb c "|" || Ascii.eqb c ")" || Ascii.eqb c "(" || Ascii.eqb c "["
     || Ascii.eqb c "\" || Ascii.eqb c "." || is_special c || is_quantifier c) = false.
Proof. intros c. each_char c. Qed.

Lemma re_escape_cons :
  forall c key,
    re_escape (c :: key)
    = (if is_escaped c then ["\"%char; c] else [c]) ++ re_escape key.
Proof. reflexivity. Qed.

Lemma re_escape_starts_plain :
  forall key rest, starts_plain rest -> starts_plain (re_escape key ++ rest).
Proof.
  intros [| c key] rest H; [exact H |].
  rewrite re_escape_cons. destruct (is_escaped c) eqn:E; simpl.
  - reflexivity.
  - pose proof (plain_char_facts c E) as F.
    repeat (apply orb_false_iff in F; destruct F as [F ?]). assumption.
Qed.

Lemma parse_quantifier_plain :
  forall a s, starts_plain s -> parse_quantifier a s = Some (a, s).
Proof.
  intros a [| q s'] H; [reflexivity |]. simpl in H. simpl. now rewrite H.
Qed.

Lemma parse_seq_step :
  forall n c s,
    (Ascii.eqb c "|" || Ascii.eqb c ")") = false ->
    parse_seq (S n) (c :: s)
    = match parse_atom n (c :: s) with
      | Some (a, s1) =>
          match parse_quantifier a s1 with
          | Some (a', s2) =>
              match parse_seq n s2 with
              | Some (r, s3) => Some (Seq a' r, s3)
              | None => None
              end
          | None => None
          end
      | None => None
      end.
Proof. intros n c s H. cbn [parse_seq]. now rewrite H. Qed.

Lemma parse_atom_escape :
  forall n c s,
    parse_atom (S n) ("\"%char :: c :: s)
    = match parse_escape c with
      | Some r => Some (r, s)
      | None => None
      end.
Proof. reflexivity. Qed.

Lemma parse_atom_plain :
  forall n c s,
    is_escaped c = false -> parse_atom (S n) (c :: s) = Some (Chr c, s).
Proof.
  intros n c s E. pose proof (plain_char_facts c E) as F.
  repeat (apply orb_false_iff in F; destruct F as [F ?]).
  cbn [parse_atom].
  repeat match goal with
         | H : Ascii.eqb c _ = false |- _ => rewrite H; clear H
         | H : is_special c = false |- _ => rewrite H; clear H
         end.
  reflexivity.
Qed.

(** Parsing an escaped key gives the key as a literal. *)
Lemma parse_seq_escaped :
  forall key n rest r rest',
    parse_seq (S n) rest = Some (r, rest') ->
    starts_plain rest ->
    parse_seq (S n + length key) (re_escape key ++ rest) = Some (lit key r, rest').
Proof.
  induction key as [| c key IH]; intros n rest r rest' Hrest Hplain.
  - simpl. now rewrite Nat.add_0_r.
  - replace (S n + length (c :: key)) with (S (S n + length key)) by (simpl; lia).
    rewrite re_escape_cons, <- app_assoc.
    pose proof (re_escape_starts_plain key rest Hplain) as Hnext.
    specialize (IH n rest r rest' Hrest Hplain).
    destruct (is_escaped c) eqn:E.
    + change (["\"%char; c] ++ re_escape key ++ rest)
        with ("\"%char :: c :: re_escape key ++ rest).
      rewrite parse_seq_step by reflexivity.
      change (S n + length key) with (S (n + length key)) at 1.
      rewrite parse_atom_escape, (escaped_char_facts c E).
      rewrite (parse_quantifier_plain _ _ Hnext).
      now rewrite IH.
    + change ([c] ++ re_escape key ++ rest) with (c :: re_escape key ++ rest).
      pose proof (plain_char_facts c E) as F.
      rewrite parse_seq_step.
      2:{ repeat (apply orb_false_iff in F; destruct F as [F ?]).
          apply orb_false_iff. split; assumption. }
      change (S n + length key) with (S (n + length key)) at 1.
      rewrite (parse_atom_plain _ _ _ E).
      rewrite (parse_quantifier_plain _ _ Hnext).
      now rewrite IH.
Qed.

Lemma re_escape_length : forall key, length key <= length (re_escape key).
Proof.
  induction key as [| c key IH]; [simpl; lia |].
  rewrite re_escape_cons, length_app. destruct (is_escaped c); simpl; lia.
Qed.

Lemma word_pattern_compiled :
  forall key, re_compile (t "\b" ++ re_escape key ++ t "\b") = Some (word_re key).
Proof.
  intros key. unfold re_compile.
  set (p := t "\b" ++ re_escape key ++ t "\b").
  assert (Hlen : length key + 4 <= length p).
  { subst p. rewrite !length_app. pose proof (re_escape_length key). simpl. lia. }
  assert (Hf : exists n, 3 * length p + 3 = S (S (S (S n) + length key))).
  { exists (3 * length p + 3 - 4 - length key). lia. }
  destruct Hf as [n Hf]. rewrite Hf. subst p.
  assert (Htail : parse_seq (S (S n)) (t "\b") = Some (Seq Bnd Eps, [])).
  { destruct n; reflexivity. }
  pose proof (parse_seq_escaped key (S n) (t "\b") (Seq Bnd Eps) [] Htail eq_refl) as H.
  assert (Hplain : starts_plain (re_escape key ++ t "\b"))
    by (apply re_escape_starts_plain; reflexivity).
  cbn [parse_alt]. change (t "\b" ++ ?x) with ("\"%char :: "b"%char :: x).
  rewrite parse_seq_step by reflexivity.
  change (S (S n) + length key) with (S (S n + length key)) at 1.
  rewrite parse_atom_escape. change (parse_escape "b") with (Some Bnd). cbv iota.
  rewrite (parse_quantifier_plain _ _ Hplain).
  rewrite H. reflexivity.
Qed.

Lemma rmatch_lit :
  forall key r prev s k x,
    rmatch (lit key r) prev s k = Some x ->
    exists rest, s = key ++ rest /\ rmatch r (last_char prev key) rest k = Some x.
Proof.
  induction key as [| c key IH]; intros r prev s k x H.
  - exists s. split; [reflexivity | exact H].
  - change (lit (c :: key) r) with (Seq (Chr c) (lit key r)) in H.
    cbn [rmatch] in H. destruct s as [| y s']; [discriminate |].
    destruct (Ascii.eqb y c) eqn:E; [| discriminate].
    apply Ascii.eqb_eq in E. subst y.
    destruct (IH r (Some c) s' k x H) as [rest [Hs Hr]].
    exists rest. split; [now rewrite Hs | exact Hr].
Qed.

Lemma match_at_word :
  forall key must prev s x,
    match_at (word_re key) must prev s = Some x -> whole_word_at key prev s.
Proof.
  intros key must prev s x H. unfold match_at, word_re in H.
  cbn [rmatch] in H. destruct (at_boundary prev s) eqn:B; [| discriminate].
  apply rmatch_lit in H. destruct H as [rest [Hs Hr]].
  cbn [rmatch] in Hr.
  destruct (at_boundary (last_char prev key) rest) eqn:B'; [| discriminate].
  exists rest. repeat split; assumption.
Qed.

(** Where the pattern matches nowhere, [re.sub] returns the string. *)
Lemma sub_loop_unmatched :
  forall fuel r repl prev s,
    (forall a b, s = a ++ b -> match_at r false (last_char prev a) b = None) ->
    sub_loop fuel r repl false prev s = s.
Proof.
  induction fuel as [| f IH]; intros r repl prev s H; [reflexivity |].
  pose proof (H [] s eq_refl) as H0. change (last_char prev []) with prev in H0.
  cbn [sub_loop]. rewrite H0.
  destruct s as [| c s']; [reflexivity |].
  f_equal. apply IH. intros a b Hab.
  apply (H (c :: a) b). now rewrite Hab.
Qed.

(** X2. A text with no whole-word occurrence of a correction key is left
    unchanged by that key's rule, and a text with no whole-word occurrence
    of a redundant keyword that has no character [re.escape] would escape
    is left unchanged by that keyword: an occurrence inside a longer run
    of word characters is never touched. *)
Theorem whole_words_only :
  forall key s,
    (forall a b, s = a ++ b -> ~ whole_word_at key (last_char None a) b) ->
    (forall value, is_literal_repl value = true ->
                   apply_correction s (key, value) = Some s)
    /\ (re_escape key = key -> remove_keyword s key = Some s).
Proof.
  intros key s Hnone.
  assert (Hsub : forall repl, sub (word_re key) repl s = s).
  { intros repl. unfold sub. apply sub_loop_unmatched. intros a b Hab.
    destruct (match_at (word_re key) false (last_char None a) b) as [x |] eqn:E;
      [| reflexivity].
    exfalso. apply (Hnone a b Hab). eapply match_at_word; eauto. }
  split.
  - intros value Hv. unfold apply_correction, re_sub. cbn [fst snd].
    now rewrite word_pattern_compiled, Hv, Hsub.
  - intros Hplain. unfold remove_keyword, re_sub.
    rewrite <- Hplain at 1. rewrite word_pattern_compiled.
    change (is_literal_repl (t "")) with true. cbv iota. now rewrite Hsub.
Qed.

(** The keyword oral in temporal: no occurrence stands between word
    boundaries, and the text is unchanged. *)
Lemma whole_words_only_witness :
  (forall value, is_literal_repl value = true ->
                 apply_correction (t "temporal") (t "oral", value) = Some (t "temporal"))
  /\ (re_escape (t "oral") = t "oral" ->
      remove_keyword (t "temporal") (t "oral") = Some (t "temporal")).
Proof.
  apply (whole_words_only (t "oral") (t "temporal")).
  intros a b Hab [rest [Hb [B1 B2]]].
  subst b. unfold t in Hab. simpl in Hab.
  do 9 (destruct a as [| ? a]; simpl in Hab;
        [ first [ discriminate Hab | vm_compute in B1; discriminate B1 ]
        | first [ discriminate Hab | injection Hab as ? Hab; subst ] ]).
Defined.

(** ** The fuel of the matcher is enough *)

Lemma star_loop_S :
  forall r k n prev s,
    star_loop r k (S n) prev s
    = match rmatch r prev s
              (fun p' s' => if length s' <? length s then star_loop r k n p' s' else None)
      with
      | Some x => Some x
      | None => k prev s
      end.
Proof. reflexivity. Qed.

Lemma star_loop_suffix :
  forall r k,
    ends_on_suffix r ->
    forall n prev s x,
      star_loop r k n prev s = Some x ->
      exists p' s', length s' <= length s /\ k p' s' = Some x.
Proof.
  intros r k Hr. induction n as [| n' IH]; intros prev s x H.
  - exists prev, s. split; [lia | exact H].
  - rewrite star_loop_S in H.
    destruct (rmatch r prev s _) as [y |] eqn:E.
    + inversion H; subst y. apply Hr in E. destruct E as [p1 [s1 [Hl1 E]]].
      destruct (length s1 <? length s); [| discriminate].
      apply IH in E. destruct E as [p2 [s2 [Hl2 E]]].
      exists p2, s2. split; [lia | exact E].
    + exists prev, s. split; [lia | exact H].
Qed.

Lemma rmatch_suffix : forall r, ends_on_suffix r.
Proof.
  unfold ends_on_suffix.
  induction r as [| c | | neg items | | r1 IH1 r2 IH2 | r1 IH1 r2 IH2 | r1 IH1];
    intros prev s k x H.
  - exists prev, s. split; [lia | exact H].
  - cbn [rmatch] in H. destruct s as [| y s']; [discriminate |].
    destruct (Ascii.eqb y c); [| discriminate].
    exists (Some y), s'. split; [simpl; lia | exact H].
  - cbn [rmatch] in H. destruct s as [| y s']; [discriminate |].
    destruct (Ascii.eqb y newline); [discriminate |].
    exists (Some y), s'. split; [simpl; lia | exact H].
  - cbn [rmatch] in H. destruct s as [| y s']; [discriminate |].
    destruct (cls_matches neg items y); [| discriminate].
    exists (Some y), s'. split; [simpl; lia | exact H].
  - cbn [rmatch] in H. destruct (at_boundary prev s); [| discriminate].
    exists prev, s. split; [lia | exact H].
  - cbn [rmatch] in H. apply IH1 in H. destruct H as [p1 [s1 [Hl1 H]]].
    apply IH2 in H. destruct H as [p2 [s2 [Hl2 H]]].
    exists p2, s2. split; [lia | exact H].
  - cbn [rmatch] in H. destruct (rmatch r1 prev s k) as [y |] eqn:E.
    + inversion H; subst y. now apply IH1 in E.
    + now apply IH2 in H.
  - rewrite rmatch_star in H. now apply (star_loop_suffix r1 k IH1) in H.
Qed.

Lemma match_at_suffix :
  forall r must prev s p' s',
    match_at r must prev s = Some (p', s') ->
    length s' <= length s /\ (must = true -> length s' < length s).
Proof.
  intros r must prev s p' s' H. unfold match_at in H.
  apply rmatch_suffix in H. destruct H as [p1 [s1 [Hl H]]].
  destruct must; simpl in H.
  - destruct (Nat.eqb_spec (length s1) (length s)); [discriminate |].
    inversion H; subst. split; [exact Hl | intros _; lia].
  - inversion H; subst. split; [exact Hl | discriminate].
Qed.

(** The loop of [re.sub] never runs out of fuel: from twice the length of
    what is left (and one more when an empty match is still allowed) the
    result does not depend on the fuel. *)
Lemma sub_loop_fuel :
  forall fuel1 fuel2 r repl (must : bool) prev s,
    2 * length s + (if must then 0 else 1) < fuel1 ->
    2 * length s + (if must then 0 else 1) < fuel2 ->
    sub_loop fuel1 r repl must prev s = sub_loop fuel2 r repl must prev s.
Proof.
  induction fuel1 as [| f1 IH]; intros fuel2 r repl must prev s H1 H2; [lia |].
  destruct fuel2 as [| f2]; [lia |].
  cbn [sub_loop].
  destruct (match_at r must prev s) as [[p' s'] |] eqn:E.
  - f_equal. apply match_at_suffix in E. destruct E as [Hle Hmust].
    destruct (Nat.eqb_spec (length s') (length s)) as [Heq | Hne].
    + destruct must; [specialize (Hmust eq_refl); lia |].
      apply IH; lia.
    + apply IH; lia.
  - destruct s as [| c s']; [reflexivity |].
    f_equal. apply IH; simpl in *; lia.
Qed.

Lemma sub_fuel :
  forall r repl s fuel,
    2 * length s + 2 <= fuel -> sub r repl s = sub_loop fuel r repl false None s.
Proof. intros r repl s fuel H. unfold sub. apply sub_loop_fuel; lia. Qed.

(** A continuation that always fails makes the match fail. *)
Lemma rmatch_none :
  forall r prev s k,
    (forall p' s', length s' <= length s -> k p' s' = None) ->
    rmatch r prev s k = None.
Proof.
  intros r prev s k Hk. destruct (rmatch r prev s k) as [x |] eqn:E; [| reflexivity].
  apply rmatch_suffix in E. destruct E as [p' [s' [Hl E]]].
  rewrite (Hk p' s' Hl) in E. discriminate.
Qed.

Lemma star_loop_ext :
  forall r,
    suffix_local r ->
    forall n prev s k1 k2,
      (forall p' s', length s' <= length s -> k1 p' s' = k2 p' s') ->
      star_loop r k1 n prev s = star_loop r k2 n prev s.
Proof.
  intros r Hr. induction n as [| n' IH]; intros prev s k1 k2 Hk.
  - simpl. apply Hk. lia.
  - rewrite !star_loop_S.
    rewrite (Hr prev s _
               (fun p' s' => if length s' <? length s then star_loop r k2 n' p' s' else None)).
    + rewrite (Hk prev s) by lia. reflexivity.
    + intros p' s' Hl. destruct (Nat.ltb_spec (length s') (length s)); [| reflexivity].
      apply IH. intros p2 s2 Hl2. apply Hk. lia.
Qed.

Lemma rmatch_ext : forall r, suffix_local r.
Proof.
  unfold suffix_local.
  induction r as [| c | | neg items | | r1 IH1 r2 IH2 | r1 IH1 r2 IH2 | r1 IH1];
    intros prev s k1 k2 Hk.
  - simpl. apply Hk. lia.
  - cbn [rmatch]. destruct s as [| y s']; [reflexivity |].
    destruct (Ascii.eqb y c); [| reflexivity]. apply Hk. simpl. lia.
  - cbn [rmatch]. destruct s as [| y s']; [reflexivity |].
    destruct (Ascii.eqb y newline); [reflexivity |]. apply Hk. simpl. lia.
  - cbn [rmatch]. destruct s as [| y s']; [reflexivity |].
    destruct (cls_matches neg items y); [| reflexivity]. apply Hk. simpl. lia.
  - cbn [rmatch]. destruct (at_boundary prev s); [| reflexivity]. apply Hk. lia.
  - cbn [rmatch]. apply IH1. intros p' s' Hl. apply IH2.
    intros p2 s2 Hl2. apply Hk. lia.
  - cbn [rmatch]. rewrite (IH1 prev s k1 k2 Hk), (IH2 prev s k1 k2 Hk). reflexivity.
  - rewrite !rmatch_star. now apply star_loop_ext.
Qed.

(** The iteration of a [Star] never runs out of fuel: from the length of
    what is left the result does not depend on the fuel. *)
Lemma star_loop_fuel :
  forall r k n1 n2 prev s,
    length s <= n1 -> length s <= n2 ->
    star_loop r k n1 prev s = star_loop r k n2 prev s.
Proof.
  intros r k. induction n1 as [| n1' IH]; intros n2 prev s H1 H2.
  - destruct s; [| simpl in H1; lia].
    destruct n2 as [| n2']; [reflexivity |].
    rewrite star_loop_S. rewrite rmatch_none; [reflexivity |].
    intros p' s' Hl. simpl in Hl. destruct (length s' <? length (@nil ascii)) eqn:E;
      [| reflexivity].
    apply Nat.ltb_lt in E. simpl in E. lia.
  - destruct n2 as [| n2'].
    + destruct s; [| simpl in H2; lia].
      rewrite star_loop_S. rewrite rmatch_none; [reflexivity |].
      intros p' s' Hl. destruct (length s' <? length (@nil ascii)) eqn:E;
        [| reflexivity].
      apply Nat.ltb_lt in E. simpl in E. lia.
    + rewrite !star_loop_S.
      rewrite (rmatch_ext r prev s _
                 (fun p' s' => if length s' <? length s then star_loop r k n2' p' s' else None)).
      * reflexivity.
      * intros p' s' Hl. destruct (Nat.ltb_spec (length s') (length s)); [| reflexivity].
        apply IH; lia.
Qed.

(** ** Loading the knowledge base *)

Lemma lstrip_keeps :
  forall s c, In c s -> isspace c = false -> In c (lstrip s).
Proof.
  induction s as [| x s IH]; intros c Hin Hc; [destruct Hin |].
  simpl. destruct (isspace x) eqn:E.
  - destruct Hin as [Hin | Hin]; [subst x; congruence | now apply IH].
  - exact Hin.
Qed.

Lemma strip_keeps :
  forall s c, In c s -> isspace c = false -> In c (strip s).
Proof.
  intros s c Hin Hc. unfold strip, rstrip.
  apply -> in_rev. apply lstrip_keeps; [| exact Hc].
  apply -> in_rev. now apply lstrip_keeps.
Qed.

Lemma has_colon_In :
  forall s, existsb (Ascii.eqb colon) s = true <-> In colon s.
Proof.
  intros s. rewrite existsb_exists. split.
  - intros [c [Hin Heq]]. apply Ascii.eqb_eq in Heq. now subst c.
  - intros Hin. exists colon. split; [exact Hin | apply Ascii.eqb_refl].
Qed.

(** The split is at the first colon. *)
Lemma split_colon_first :
  forall s a b,
    In colon s -> split_colon s = (a, b) ->
    s = a ++ colon :: b /\ ~ In colon a.
Proof.
  induction s as [| c s IH]; intros a b Hin Hs; [destruct Hin |].
  simpl in Hs. destruct (Ascii.eqb c colon) eqn:E.
  - apply Ascii.eqb_eq in E. subst c. inversion Hs; subst. split; [reflexivity | intros []].
  - destruct (split_colon s) as [a' b'] eqn:Es. inversion Hs; subst.
    destruct Hin as [Hin | Hin]; [subst c; rewrite Ascii.eqb_refl in E; discriminate |].
    destruct (IH a' b Hin eq_refl) as [Heq Hno].
    split; [simpl; now rewrite <- Heq |].
    intros [Hc | Hc]; [subst c; rewrite Ascii.eqb_refl in E; discriminate | now apply Hno].
Qed.

Lemma dict_set_In :
  forall m key value k v,
    In (k, v) (dict_set m key value) -> (k, v) = (key, value) \/ In (k, v) m.
Proof.
  induction m as [| [k0 v0] m IH]; intros key value k v H; simpl in H.
  - destruct H as [H | []]. left. now symmetry.
  - destruct (text_eqb k0 key) eqn:E.
    + apply text_eqb_eq in E. subst k0.
      destruct H as [H | H]; [left; now symmetry | right; now right].
    + destruct H as [H | H]; [right; now left |].
      destruct (IH _ _ _ _ H) as [H' | H']; [now left | right; now right].
Qed.

Lemma dict_set_keys :
  forall m key value k,
    In k (map fst (dict_set m key value)) -> k = key \/ In k (map fst m).
Proof.
  intros m key value k H. apply in_map_iff in H. destruct H as [[k' v'] [Hk H]].
  simpl in Hk. subst k'. apply dict_set_In in H. destruct H as [H | H].
  - left. now inversion H.
  - right. apply in_map_iff. exists (k, v'). split; [reflexivity | exact H].
Qed.

Lemma dict_set_unique :
  forall m key value, unique_keys m -> unique_keys (dict_set m key value).
Proof.
  unfold unique_keys. induction m as [| [k0 v0] m IH]; intros key value H; simpl.
  - constructor; [intros [] | constructor].
  - inversion H as [| x l Hnot Hnd]; subst.
    destruct (text_eqb k0 key) eqn:E; simpl.
    + constructor; assumption.
    + constructor; [| now apply IH].
      intros Hin. apply dict_set_keys in Hin. destruct Hin as [Hin | Hin].
      * subst k0. assert (text_eqb key key = true) by now apply text_eqb_eq. congruence.
      * now apply Hnot.
Qed.

(** X4. The loaders.  The loaded correction map has no repeated key; each
    of its entries comes from a line that has a colon, cut at its first
    colon, with key and value trimmed, so that a value may itself contain
    colons; lines without a colon add nothing.  The loaded keywords are the
    trimmed lines that are not blank.  A missing file gives an empty map or
    an empty list. *)
Theorem knowledge_base_loading :
  forall lines : list text,
    unique_keys (load_correction_map (Some lines))
    /\ (forall key value,
          In (key, value) (load_correction_map (Some lines)) ->
          exists line before after,
            In line lines
            /\ strip line = before ++ colon :: after
            /\ ~ In colon before
            /\ key = strip before /\ value = strip after)
    /\ (forall word,
          In word (load_redundant_keywords (Some lines)) <->
          exists line, In line lines /\ strip line <> [] /\ word = strip line)
    /\ load_correction_map None = []
    /\ load_redundant_keywords None = [].
Proof.
  intros lines. split; [| split; [| split; [| split; reflexivity]]].
  - unfold load_correction_map. rewrite <- fold_left_rev_right.
    induction (rev lines) as [| line l IH]; simpl; [constructor |].
    unfold load_line at 1. destruct (existsb (Ascii.eqb colon) line); [| exact IH].
    destruct (split_colon (strip line)) as [a b]. now apply dict_set_unique.
  - unfold load_correction_map. intros key value. rewrite <- fold_left_rev_right.
    assert (Hsub : forall line, In line (rev lines) -> In line lines)
      by (intros line H; now apply in_rev).
    revert Hsub. induction (rev lines) as [| line l IH]; intros Hsub H; simpl in H;
      [destruct H |].
    unfold load_line at 1 in H.
    destruct (existsb (Ascii.eqb colon) line) eqn:E.
    + destruct (split_colon (strip line)) as [a b] eqn:Es.
      apply dict_set_In in H. destruct H as [H | H].
      * inversion H; subst. exists line, a, b.
        assert (Hc : In colon (strip line)).
        { apply strip_keeps; [now apply has_colon_In | reflexivity]. }
        destruct (split_colon_first (strip line) a b Hc Es) as [Heq Hno].
        repeat split; try assumption. apply Hsub. now left.
      * apply IH; [| exact H]. intros x Hx. apply Hsub. now right.
    + apply IH; [| exact H]. intros x Hx. apply Hsub. now right.
  - intros word. unfold load_redundant_keywords. rewrite in_map_iff. split.
    + intros [line [Hw Hin]]. apply filter_In in Hin. destruct Hin as [Hin Hne].
      exists line. split; [exact Hin | split; [| now symmetry]].
      destruct (strip line); [discriminate | discriminate].
    + intros [line [Hin [Hne Hw]]]. exists line. split; [now symmetry |].
      apply filter_In. split; [exact Hin |].
      destruct (strip line); [contradiction | reflexivity].
Qed.

(** X4 on a file of two lines, one of them without a colon. *)
Lemma knowledge_base_loading_witness :
  exists line before after,
    In line [t " hctz : hydrochlorothiazide 1:1 "; t "no separator"]
    /\ strip line = before ++ colon :: after
    /\ ~ In colon before
    /\ t "hctz" = strip before /\ t "hydrochlorothiazide 1:1" = strip after.
Proof.
  apply (proj1 (proj2 (knowledge_base_loading
                         [t " hctz : hydrochlorothiazide 1:1 "; t "no separator"]))).
  vm_compute. now left.
Defined.

(** A value with a colon of its own, a line without one, and a blank
    line. *)
Lemma knowledge_base_loading_example :
  load_correction_map (Some [t " hctz : hydrochlorothiazide 1:1 "; t "no separator"])
  = [(t "hctz", t "hydrochlorothiazide 1:1")]
  /\ load_redundant_keywords (Some [t " tablet "; t "   "; t "mouth"])
     = [t "tablet"; t "mouth"].
Proof. split; vm_compute; reflexivity. Qed.

(** ** Tables of at most twenty rows *)

Section SmallTable.
Context {L : Libraries} {OK : LibrariesOk L}.

(** With at most twenty similarities stage 1 leaves no position out. *)
Lemma candidates_all :
  forall similarities : list Q,
    length similarities <= 20 ->
    Permutation (Harmonize.candidate_indices_of similarities)
      (seq 0 (length similarities)).
Proof.
  intros sims Hlen. unfold Harmonize.candidate_indices_of, last_n.
  assert (E : length (argsort sims) - 20 = 0).
  { rewrite (Permutation_length (argsort_perm sims)), length_seq. lia. }
  rewrite E. cbn [skipn].
  eapply Permutation_trans; [apply Permutation_sym, Permutation_rev |].
  apply argsort_perm.
Qed.

(** X6. On a table of at most twenty rows stage 1 prunes nothing: for a
    query that is not blank, has fewer than 2^53 distinct words and has a
    similarity of 0.1 or more with some row, the row returned has the
    highest computed final score of the whole table. *)
Theorem small_table_best_score :
  forall description entity_type snomed_data rxnorm_data snomed_tfidf rxnorm_tfidf
         snomed_vectorizer rxnorm_vectorizer data tfidf_matrix vectorizer system x,
    strip description <> [] ->
    route entity_type snomed_data rxnorm_data snomed_tfidf rxnorm_tfidf
      snomed_vectorizer rxnorm_vectorizer = (data, tfidf_matrix, vectorizer, system) ->
    let similarities := cosine_similarity (transform vectorizer description) tfidf_matrix in
    (Z.of_nat (length (set_of (split description))) < 2 ^ 53)%Z ->
    length similarities = length data ->
    length data <= 20 ->
    In x similarities ->
    (1 # 10 <= x)%Q ->
    exists row,
      In row data
      /\ result_of (Harmonize.find_best_match description entity_type snomed_data
                      rxnorm_data snomed_tfidf rxnorm_tfidf snomed_vectorizer
                      rxnorm_vectorizer)
         = Some {| System := system; Code := CODE row; Description := STR row |}
      /\ forall other,
           In other data ->
           float_le (candidate_score description other) (candidate_score description row).
Proof.
  intros d et sd rd st rt sv rv data m v sys x Hnb Hroute sims Hwords Hrows Hsmall Hin Hx.
  rewrite (find_best_match_search _ _ _ _ _ _ _ _ _ _ _ _ Hroute).
  destruct (Harmonize.candidate_indices_of sims) as [| top rest] eqn:E.
  { pose proof (candidates_length sims) as Hlen. rewrite E in Hlen. simpl in Hlen.
    destruct sims; [destruct Hin | simpl in Hlen; lia]. }
  assert (Hle : (x <= nth top sims 0)%Q).
  { apply In_nth_error in Hin. destruct Hin as [i Hi].
    assert (Hlt : i < length sims) by (apply nth_error_Some; congruence).
    rewrite (nth_error_nth' sims 0%Q Hlt) in Hi. inversion Hi as [Hi'].
    exact (top_candidate_max sims top rest i E Hlt). }
  destruct (search_rerank data m v sys d Hnb Hrows top rest Hwords E)
    as [i [b [row [Hmax [Hrow Hres]]]]].
  { fold sims. lra. }
  exists row. split; [eapply nth_error_In; eauto |]. split; [exact Hres |].
  intros other Hother.
  apply In_nth_error in Hother. destruct Hother as [j Hj].
  assert (Hjlt : j < length data) by (apply nth_error_Some; congruence).
  assert (Hjc : In j (Harmonize.candidate_indices_of sims)).
  { apply (Permutation_in _ (Permutation_sym (candidates_all sims ltac:(lia)))).
    apply in_seq. lia. }
  apply In_nth_error in Hjc. destruct Hjc as [pj Hpj].
  destruct Hmax as [_ [Hall _]].
  fold sims in Hall.
  specialize (Hall pj j Hpj). unfold score_at in Hall.
  rewrite Hj, Hrow in Hall.
  apply float_le_total; [| | exact Hall];
    apply float_nonneg_number; now apply candidate_score_nonneg.
Qed.

End SmallTable.

(** X6 on a table of two rows: the query metformin gets the second row,
    whose score no row exceeds. *)
Lemma small_table_best_score_witness :
  exists row,
    In row metformin_table
    /\ result_of (Harmonize.find_best_match (L := sample_libraries) (t "metformin")
                    (PyStr (t "Medication")) [] metformin_table [] [2 # 10; 3 # 10] tt tt)
       = Some {| System := t "RXNORM"; Code := CODE row; Description := STR row |}
    /\ forall other,
         In other metformin_table ->
         float_le (candidate_score (L := sample_libraries) (t "metformin") other)
                  (candidate_score (L := sample_libraries) (t "metformin") row).
Proof.
  apply (small_table_best_score (L := sample_libraries) (OK := sample_libraries_ok)
           (t "metformin") (PyStr (t "Medication")) [] metformin_table
           [] [2 # 10; 3 # 10] tt tt metformin_table [2 # 10; 3 # 10] tt (t "RXNORM")
           (3 # 10)).
  - vm_compute. discriminate.
  - reflexivity.
  - vm_compute. reflexivity.
  - reflexivity.
  - simpl. lia.
  - simpl. tauto.
  - vm_compute. discriminate.
Defined.

(** ** The overlap score *)

Lemma filter_length_all :
  forall (A : Type) (f : A -> bool) (l : list A),
    length (filter f l) = length l <-> forall x, In x l -> f x = true.
Proof.
  intros A f. induction l as [| a l IH]; simpl.
  - split; [intros _ x [] | reflexivity].
  - pose proof (filter_length_le f l) as Hle.
    destruct (f a) eqn:E; simpl.
    + split.
      * intros H x [Hx | Hx]; [now subst x | apply IH; [lia | exact Hx]].
      * intros H. f_equal. apply IH. intros x Hx. apply H. now right.
    + split.
      * intros H. lia.
      * intros H. specialize (H a (or_introl eq_refl)). congruence.
Qed.

Lemma filter_length_none :
  forall (A : Type) (f : A -> bool) (l : list A),
    length (filter f l) = 0 <-> forall x, In x l -> f x = false.
Proof.
  intros A f. induction l as [| a l IH]; simpl.
  - split; [intros _ x [] | reflexivity].
  - destruct (f a) eqn:E; simpl.
    + split; [discriminate |].
      intros H. specialize (H a (or_introl eq_refl)). congruence.
    + split.
      * intros H x [Hx | Hx]; [now subst x | now apply IH].
      * intros H. apply IH. intros x Hx. apply H. now right.
Qed.

(** Two lists without repetition that have the same elements have the
    same length. *)
Lemma same_elements_length :
  forall a b : list text,
    NoDup a -> NoDup b -> (forall w, In w a <-> In w b) -> length a = length b.
Proof.
  intros a b Ha Hb H. apply Permutation_length. now apply NoDup_Permutation.
Qed.

(** No common word: the quotient is 0 and so is the score. *)
Lemma zero_share_score :
  forall n,
    (0 < Z.of_nat n < 2 ^ 53)%Z ->
    (float_of_nat 0 / float_of_nat n * 100)%float = 0%float.
Proof.
  intros n Hn. apply Prim2SF_inj.
  rewrite mul_spec, div_spec.
  pose proof (float_of_Z_positive (Z.of_nat n) Hn) as Hpos.
  unfold float_positive in Hpos. fold (float_of_nat n) in Hpos.
  change (Prim2SF (float_of_nat 0)) with (S754_zero false).
  change (Prim2SF 100) with (S754_finite false 7036874417766400 (-46)).
  change (Prim2SF 0) with (S754_zero false).
  destruct (Prim2SF (float_of_nat n)) as [sn | sn | | sn mn en]; try discriminate Hpos.
  destruct sn; [discriminate Hpos | reflexivity].
Qed.

(** X7. The word overlap of a query that is not blank.  The query's word
    set has the words of the query, each once, and is not empty, so the
    score is the rounded quotient of two lengths, times 100.  The number of
    common words is at most the size of the query's word set; it is that
    size exactly when every word of the query is a word of the candidate,
    and 0 exactly when none is.  The score depends only on which words the
    query and the candidate have: repeating or reordering words changes
    nothing.  For fewer than 2^53 words it is a number not below 0, and 0
    when no word is common. *)
Theorem overlap_score_extremes :
  forall description candidate_str,
    strip description <> [] ->
    let input_words := set_of (split description) in
    let candidate_words := set_of (split candidate_str) in
    let common := intersection input_words candidate_words in
    (input_words <> [] /\ NoDup input_words
     /\ forall w, In w input_words <-> In w (split description))
    /\ overlap_score input_words candidate_words
       = (float_of_nat (length common) / float_of_nat (length input_words) * 100)%float
    /\ length common <= length input_words
    /\ (length common = length input_words
        <-> forall w, In w (split description) -> In w (split candidate_str))
    /\ (length common = 0
        <-> forall w, In w (split description) -> ~ In w (split candidate_str))
    /\ (forall description' candidate_str',
          (forall w, In w (split description') <-> In w (split description)) ->
          (forall w, In w (split candidate_str') <-> In w (split candidate_str)) ->
          overlap_score (set_of (split description')) (set_of (split candidate_str'))
          = overlap_score input_words candidate_words)
    /\ ((Z.of_nat (length input_words) < 2 ^ 53)%Z ->
        float_le 0 (overlap_score input_words candidate_words)
        /\ (length common = 0 ->
            overlap_score input_words candidate_words = 0%float)).
Proof.
  intros d c Hnb iw cw common.
  assert (Hiw : forall w, In w iw <-> In w (split d)) by (intros w; apply set_of_In).
  assert (Hcw : forall w, In w cw <-> In w (split c)) by (intros w; apply set_of_In).
  assert (Hne : iw <> []).
  { pose proof (split_nonblank d Hnb) as Hs.
    destruct (split d) as [| w ws]; [contradiction |].
    intros Hnil. assert (Hin : In w iw) by (apply Hiw; now left).
    rewrite Hnil in Hin. destruct Hin. }
  assert (Hscore : overlap_score iw cw
                   = (float_of_nat (length common) / float_of_nat (length iw) * 100)%float).
  { unfold overlap_score. destruct iw; [contradiction | reflexivity]. }
  split; [split; [exact Hne | split; [apply set_of_NoDup | exact Hiw]] |].
  split; [exact Hscore |].
  split; [apply length_intersection_le |].
  split; [| split; [| split]].
  - unfold common, intersection. rewrite filter_length_all. split.
    + intros H w Hw. apply Hiw in Hw.
      specialize (H w Hw). destruct (in_dec text_dec w cw) as [Hin | _]; [| discriminate].
      now apply Hcw.
    + intros H w Hw. apply Hiw in Hw.
      destruct (in_dec text_dec w cw) as [_ | Hnot]; [reflexivity |].
      exfalso. apply Hnot. apply Hcw. now apply H.
  - unfold common, intersection. rewrite filter_length_none. split.
    + intros H w Hw Hc. apply Hiw in Hw.
      specialize (H w Hw). destruct (in_dec text_dec w cw) as [_ | Hnot]; [discriminate |].
      apply Hnot. now apply Hcw.
    + intros H w Hw. apply Hiw in Hw.
      destruct (in_dec text_dec w cw) as [Hin | _]; [| reflexivity].
      exfalso. apply (H w Hw). now apply Hcw.
  - intros d' c' Hd' Hc'.
    assert (Hlen : length (set_of (split d')) = length iw).
    { apply same_elements_length; [apply set_of_NoDup | apply set_of_NoDup |].
      intros w. rewrite set_of_In, Hd'. symmetry. apply Hiw. }
    assert (Hcommon : length (intersection (set_of (split d')) (set_of (split c')))
                      = length common).
    { apply same_elements_length;
        [apply intersection_NoDup, set_of_NoDup | apply intersection_NoDup, set_of_NoDup |].
      intros w. unfold common. rewrite !intersection_In, !set_of_In, Hd', Hc'.
      rewrite Hiw, Hcw. tauto. }
    rewrite Hscore. unfold overlap_score.
    destruct (set_of (split d')) as [| w' iw'] eqn:E.
    + exfalso. apply Hne. apply length_zero_iff_nil. now rewrite <- Hlen.
    + now rewrite Hcommon, Hlen.
  - intros Hwords. split.
    + apply float_nonneg_le_zero. now apply overlap_score_nonneg.
    + intros H0. rewrite Hscore, H0. apply zero_share_score.
      split; [| exact Hwords].
      destruct iw; [contradiction | simpl; lia].
Qed.

(** X7 on the query metformin tablet against the candidate metformin: one of
    the two words is there. *)
Lemma overlap_score_extremes_witness :
  let input_words := set_of (split (t "metformin tablet")) in
  let candidate_words := set_of (split (t "metformin")) in
  let common := intersection input_words candidate_words in
  (input_words <> [] /\ NoDup input_words
   /\ forall w, In w input_words <-> In w (split (t "metformin tablet")))
  /\ overlap_score input_words candidate_words
     = (float_of_nat (length common) / float_of_nat (length input_words) * 100)%float
  /\ length common <= length input_words
  /\ (length common = length input_words
      <-> forall w, In w (split (t "metformin tablet")) -> In w (split (t "metformin")))
  /\ (length common = 0
      <-> forall w, In w (split (t "metformin tablet")) -> ~ In w (split (t "metformin")))
  /\ (forall description' candidate_str',
        (forall w, In w (split description') <-> In w (split (t "metformin tablet"))) ->
        (forall w, In w (split candidate_str') <-> In w (split (t "metformin"))) ->
        overlap_score (set_of (split description')) (set_of (split candidate_str'))
        = overlap_score input_words candidate_words)
  /\ ((Z.of_nat (length input_words) < 2 ^ 53)%Z ->
      float_le 0 (overlap_score input_words candidate_words)
      /\ (length common = 0 ->
          overlap_score input_words candidate_words = 0%float)).
Proof.
  apply (overlap_score_extremes (t "metformin tablet") (t "metformin")).
  vm_compute. discriminate.
Defined.

(** The query metformin tablet has half of its words in metformin, and
    all of them in a candidate that repeats them in another order. *)
Lemma overlap_score_examples :
  overlap_score (set_of (split (t "metformin tablet"))) (set_of (split (t "metformin")))
  = 50%float
  /\ overlap_score (set_of (split (t "metformin tablet")))
       (set_of (split (t "tablet metformin tablet")))
     = 100%float
  /\ overlap_score (set_of (split (t "metformin metformin tablet")))
       (set_of (split (t "metformin")))
     = 50%float.
Proof. repeat split; vm_compute; reflexivity. Qed.

(** ** Letter case and surrounding whitespace *)

Lemma isspace_lower : forall c, isspace (lower_char c) = isspace c.
Proof. intros c. each_char c. Qed.

Lemma all_space_lower : forall p, all_space p -> all_space (lower p).
Proof.
  intros p H. unfold all_space, lower in *. apply Forall_map.
  apply (Forall_impl _ (P := fun c => isspace c = true)); [| exact H].
  intros c Hc. now rewrite isspace_lower.
Qed.

Lemma lstrip_all_space : forall p s, all_space p -> lstrip (p ++ s) = lstrip s.
Proof.
  intros p s H. induction H as [| c p Hc _ IH]; [reflexivity |].
  simpl. now rewrite Hc.
Qed.

Lemma lstrip_blank_app :
  forall s p, lstrip s = [] -> all_space p -> lstrip (s ++ p) = [].
Proof.
  induction s as [| c s IH]; intros p Hs Hp; simpl.
  - rewrite <- (app_nil_r p). now rewrite lstrip_all_space.
  - simpl in Hs. destruct (isspace c); [now apply IH | discriminate].
Qed.

Lemma strip_pad_left : forall p s, all_space p -> strip (p ++ s) = strip s.
Proof. intros p s H. unfold strip. now rewrite lstrip_all_space. Qed.

Lemma strip_pad_right : forall p s, all_space p -> strip (s ++ p) = strip s.
Proof.
  intros p s H. unfold strip.
  destruct (lstrip s) as [| c u] eqn:E.
  - now rewrite lstrip_blank_app.
  - rewrite lstrip_app_more by (rewrite E; discriminate). rewrite E.
    unfold rstrip. rewrite rev_app_distr.
    rewrite lstrip_all_space; [reflexivity |].
    unfold all_space. apply Forall_rev. exact H.
Qed.

(** X8. Both cleaners ignore letter case and the whitespace around the
    text: a text that differs from another only by the case of its letters
    and by space characters added in front or at the end is cleaned to the
    same result (or raises the same way). *)
Theorem cleaning_ignores_case_and_padding :
  forall (L : Libraries) (which : script) correction_map redundant_keywords
         before x y after,
    all_space before -> all_space after ->
    lower y = lower (before ++ x ++ after) ->
    cleaner_of which correction_map redundant_keywords (PyStr y)
    = cleaner_of which correction_map redundant_keywords (PyStr x).
Proof.
  intros L which cm kws p1 x y p2 H1 H2 Hy.
  assert (E : strip (lower y) = strip (lower x)).
  { rewrite Hy. unfold lower. rewrite !map_app.
    rewrite strip_pad_left by now apply all_space_lower.
    now rewrite strip_pad_right by now apply all_space_lower. }
  destruct which; unfold cleaner_of.
  - rewrite !harmonize_cleaner_passes. unfold strip_passes. now rewrite E.
  - rewrite !demo_cleaner_passes. unfold strip_passes. now rewrite E.
Qed.

(** X8 on a padded, capitalized spelling of a drug name. *)
Lemma cleaning_ignores_case_and_padding_witness :
  cleaner_of (L := sample_libraries) harmonize_py [] [t "tablet"]
    (PyStr (t "  METFORMIN Tablet "))
  = cleaner_of (L := sample_libraries) harmonize_py [] [t "tablet"]
      (PyStr (t "Metformin tablet")).
Proof.
  apply (cleaning_ignores_case_and_padding sample_libraries harmonize_py [] [t "tablet"]
           (t "  ") (t "Metformin tablet") (t "  METFORMIN Tablet ") (t " ")).
  - repeat constructor.
  - repeat constructor.
  - vm_compute. reflexivity.
Defined.

(** ** What a pass with an empty replacement can do *)

Lemma subseq_nil_l : forall s, subseq [] s.
Proof. induction s; constructor; assumption. Qed.

Lemma subseq_refl : forall s, subseq s s.
Proof. induction s; constructor; assumption. Qed.

Lemma subseq_trans : forall a b c, subseq a b -> subseq b c -> subseq a c.
Proof.
  intros a b c Hab Hbc. revert a Hab.
  induction Hbc as [| x b c Hbc IH | x b c Hbc IH]; intros a Hab.
  - exact Hab.
  - inversion Hab as [| y a' b' Hab' | y a' b' Hab']; subst.
    + constructor. now apply IH.
    + apply subseq_drop. now apply IH.
  - apply subseq_drop. now apply IH.
Qed.

Lemma subseq_skip : forall a y s, subseq y s -> subseq y (a ++ s).
Proof.
  induction a as [| c a IH]; intros y s H; [exact H |].
  simpl. apply subseq_drop. now apply IH.
Qed.

Lemma subseq_length : forall a b, subseq a b -> length a <= length b.
Proof. intros a b H. induction H; simpl; lia. Qed.

Lemma subseq_filter :
  forall (f : ascii -> bool) a b, subseq a b -> subseq (filter f a) (filter f b).
Proof.
  intros f a b H. induction H as [| c a b H IH | c a b H IH]; simpl.
  - constructor.
  - destruct (f c); [constructor |]; exact IH.
  - destruct (f c); [apply subseq_drop |]; exact IH.
Qed.

Lemma subseq_filter_self : forall (f : ascii -> bool) s, subseq (filter f s) s.
Proof.
  intros f. induction s as [| c s IH]; simpl; [constructor |].
  destruct (f c); constructor; exact IH.
Qed.

Lemma subseq_lstrip : forall s, subseq (lstrip s) s.
Proof.
  induction s as [| c s IH]; simpl; [constructor |].
  destruct (isspace c); [now apply subseq_drop | apply subseq_refl].
Qed.

Lemma subseq_rstrip_rec : forall s, subseq (rstrip_rec s) s.
Proof.
  induction s as [| c s IH]; simpl; [constructor |].
  destruct (rstrip_rec s) as [| x r].
  - destruct (isspace c); [apply subseq_nil_l | constructor; apply subseq_nil_l].
  - now constructor.
Qed.

Lemma subseq_strip : forall s, subseq (strip s) s.
Proof.
  intros s. unfold strip. rewrite rstrip_rec_eq.
  eapply subseq_trans; [apply subseq_rstrip_rec | apply subseq_lstrip].
Qed.

(** A match ends on a tail of the text it started on. *)
Lemma star_loop_tail :
  forall r k,
    (forall prev s k x,
        rmatch r prev s k = Some x ->
        exists a p' s', s = a ++ s' /\ k p' s' = Some x) ->
    forall n prev s x,
      star_loop r k n prev s = Some x ->
      exists a p' s', s = a ++ s' /\ k p' s' = Some x.
Proof.
  intros r k Hr. induction n as [| n' IH]; intros prev s x H.
  - exists [], prev, s. split; [reflexivity | exact H].
  - rewrite star_loop_S in H.
    destruct (rmatch r prev s _) as [y |] eqn:E.
    + inversion H; subst y. apply Hr in E. destruct E as [a1 [p1 [s1 [Hs1 E]]]].
      destruct (length s1 <? length s); [| discriminate].
      apply IH in E. destruct E as [a2 [p2 [s2 [Hs2 E]]]].
      exists (a1 ++ a2), p2, s2. split; [| exact E].
      now rewrite Hs1, Hs2, app_assoc.
    + exists [], prev, s. split; [reflexivity | exact H].
Qed.

Lemma rmatch_tail :
  forall r prev s k x,
    rmatch r prev s k = Some x ->
    exists a p' s', s = a ++ s' /\ k p' s' = Some x.
Proof.
  induction r as [| c | | neg items | | r1 IH1 r2 IH2 | r1 IH1 r2 IH2 | r1 IH1];
    intros prev s k x H.
  - exists [], prev, s. split; [reflexivity | exact H].
  - cbn [rmatch] in H. destruct s as [| y s']; [discriminate |].
    destruct (Ascii.eqb y c); [| discriminate].
    exists [y], (Some y), s'. split; [reflexivity | exact H].
  - cbn [rmatch] in H. destruct s as [| y s']; [discriminate |].
    destruct (Ascii.eqb y newline); [discriminate |].
    exists [y], (Some y), s'. split; [reflexivity | exact H].
  - cbn [rmatch] in H. destruct s as [| y s']; [discriminate |].
    destruct (cls_matches neg items y); [| discriminate].
    exists [y], (Some y), s'. split; [reflexivity | exact H].
  - cbn [rmatch] in H. destruct (at_boundary prev s); [| discriminate].
    exists [], prev, s. split; [reflexivity | exact H].
  - cbn [rmatch] in H. apply IH1 in H. destruct H as [a1 [p1 [s1 [Hs1 H]]]].
    apply IH2 in H. destruct H as [a2 [p2 [s2 [Hs2 H]]]].
    exists (a1 ++ a2), p2, s2. split; [| exact H].
    now rewrite Hs1, Hs2, app_assoc.
  - cbn [rmatch] in H. destruct (rmatch r1 prev s k) as [y |] eqn:E.
    + inversion H; subst y. now apply IH1 in E.
    + now apply IH2 in H.
  - rewrite rmatch_star in H. now apply (star_loop_tail r1 k IH1) in H.
Qed.

Lemma match_at_tail :
  forall r must prev s p' s',
    match_at r must prev s = Some (p', s') -> exists a, s = a ++ s'.
Proof.
  intros r must prev s p' s' H. unfold match_at in H.
  apply rmatch_tail in H. destruct H as [a [p1 [s1 [Hs H]]]].
  destruct (must && (length s1 =? length s)); [discriminate |].
  inversion H; subst. now exists a.
Qed.

(** With an empty replacement the loop of [re.sub] only deletes. *)
Lemma sub_loop_deletes :
  forall fuel r must prev s, subseq (sub_loop fuel r [] must prev s) s.
Proof.
  induction fuel as [| f IH]; intros r must prev s; [apply subseq_refl |].
  cbn [sub_loop].
  destruct (match_at r must prev s) as [[p' s'] |] eqn:E.
  - apply match_at_tail in E. destruct E as [a Hs].
    cbn [app]. rewrite Hs at 2. apply subseq_skip. apply IH.
  - destruct s as [| c s']; [constructor |].
    constructor. apply IH.
Qed.

Lemma re_sub_deletes :
  forall pattern s y, re_sub pattern (t "") s = Some y -> subseq y s.
Proof.
  intros p s y H. unfold re_sub in H.
  destruct (re_compile p) as [r |]; [| discriminate].
  destruct (is_literal_repl (t "")); [| discriminate].
  inversion H; subst. apply sub_loop_deletes.
Qed.

Lemma fold_raised :
  forall (A : Type) (body : text -> A -> option text) (l : list A),
    fold_left (fun acc x => s' <- acc ;; body s' x) l None = None.
Proof. intros A body. induction l as [| x l IH]; [reflexivity | exact IH]. Qed.

Lemma for_each_cons :
  forall (A : Type) (body : text -> A -> option text) x l s,
    for_each body (x :: l) s = s' <- body s x ;; for_each body l s'.
Proof.
  intros A body x l s. unfold for_each. cbn [fold_left obind].
  destruct (body s x) as [s1 |]; [reflexivity |]. apply fold_raised.
Qed.

Lemma for_each_deletes :
  forall (A : Type) (body : text -> A -> option text) (l : list A),
    (forall s x y, body s x = Some y -> subseq y s) ->
    forall s y, for_each body l s = Some y -> subseq y s.
Proof.
  intros A body l Hbody. induction l as [| x l IH]; intros s y H.
  - inversion H; subst. apply subseq_refl.
  - rewrite for_each_cons in H. destruct (body s x) as [s1 |] eqn:E; [| discriminate].
    cbn [obind] in H. eapply subseq_trans; [apply (IH _ _ H) | apply (Hbody _ _ _ E)].
Qed.

Lemma clean_keeps : forall c, clean_char c = true -> keeps c = true.
Proof. intros c. each_char c. Qed.

Lemma filter_clean_blank :
  forall s, filter clean_char (map blank s) = filter clean_char s.
Proof.
  induction s as [| c s IH]; [reflexivity |]. cbn [map filter]. rewrite IH.
  unfold blank. destruct (keeps c) eqn:K; [reflexivity |].
  destruct (clean_char c) eqn:C; [| reflexivity].
  apply clean_keeps in C. congruence.
Qed.

Lemma filter_clean_collapse :
  forall s b, filter clean_char (collapse b s) = filter clean_char s.
Proof.
  induction s as [| c s IH]; intros b; [reflexivity |]. cbn [collapse filter].
  destruct (isspace c) eqn:E.
  - assert (C : clean_char c = false).
    { destruct (clean_char c) eqn:C; [| reflexivity].
      apply clean_not_space in C. congruence. }
    rewrite C. destruct b; [apply IH |]. cbn [filter].
    change (clean_char " ") with false. cbv iota. apply IH.
  - cbn [filter]. now rewrite IH.
Qed.

Lemma collapse_length : forall s b, length (collapse b s) <= length s.
Proof.
  induction s as [| c s IH]; intros b; [simpl; lia |]. cbn [collapse].
  destruct (isspace c).
  - destruct b; simpl; [specialize (IH true) | specialize (IH true)]; lia.
  - simpl. specialize (IH false). lia.
Qed.

Lemma regex_passes_delete :
  forall redundant_keywords s y,
    regex_passes [] redundant_keywords s = Some y -> subseq y s.
Proof.
  intros kws s y H. unfold regex_passes in H.
  destruct (strip_sig s) as [t2 |] eqn:E2; [| discriminate]. cbn [obind] in H.
  destruct (strip_take t2) as [t3 |] eqn:E3; [| discriminate]. cbn [obind] in H.
  destruct (strip_dose t3) as [t4 |] eqn:E4; [| discriminate]. cbn [obind] in H.
  destruct (strip_stop_phrases t4) as [t5 |] eqn:E5; [| discriminate]. cbn [obind] in H.
  change (apply_corrections [] t5) with (Some t5) in H. cbn [obind] in H.
  apply re_sub_deletes in E2, E3, E4, E5.
  assert (H7 : subseq y t5).
  { apply (for_each_deletes _ remove_keyword kws); [| exact H].
    intros s0 w y0 Hw. now apply re_sub_deletes in Hw. }
  eauto using subseq_trans.
Qed.

(** X9. Without correction rules the cleaner of harmonize.py only deletes.
    Whenever it returns (the redundant keywords being patterns of the
    modelled fragment of [re] that Python accepts), the letters and digits
    of what it returns are, in the same order, characters of the lowercased
    input, and the result is no longer than the lowercased input.  (The
    other characters of the result are single spaces.) *)
Theorem cleaner_only_deletes :
  forall redundant_keywords x y,
    Harmonize.create_cleaner [] redundant_keywords (PyStr x) = Some y ->
    subseq (filter clean_char y) (lower x) /\ length y <= length (lower x).
Proof.
  intros kws x y H. rewrite harmonize_cleaner_passes in H.
  unfold strip_passes in H.
  destruct (regex_passes [] kws (strip (lower x))) as [t7 |] eqn:E; [| discriminate].
  cbn [obind] in H. rewrite tidy_eq in H. inversion H as [Hy]. clear H.
  apply regex_passes_delete in E.
  assert (H7 : subseq t7 (lower x))
    by (eapply subseq_trans; [exact E | apply subseq_strip]).
  split.
  - eapply subseq_trans; [apply subseq_filter, subseq_strip |].
    rewrite filter_clean_collapse, filter_clean_blank.
    eapply subseq_trans; [apply subseq_filter_self | exact H7].
  - pose proof (subseq_length _ _ (subseq_strip (collapse false (map blank t7)))) as L1.
    pose proof (collapse_length (map blank t7) false) as L2.
    rewrite length_map in L2.
    pose proof (subseq_length _ _ H7) as L3. lia.
Qed.

(** X9 on a dosing instruction, with one redundant keyword. *)
Lemma cleaner_only_deletes_witness :
  subseq (filter clean_char (t "metformin"))
    (lower (t "Take 2 tablet(s) by mouth: Metformin 500mg"))
  /\ length (t "metformin")
     <= length (lower (t "Take 2 tablet(s) by mouth: Metformin 500mg")).
Proof.
  apply (cleaner_only_deletes [t "mouth"]
           (t "Take 2 tablet(s) by mouth: Metformin 500mg") (t "metformin")).
  vm_compute. reflexivity.
Defined.

(** ** The instruction suffix *)

Lemma sig_compiled : re_compile (t "sig:.*") = Some sig_re.
Proof. vm_compute. reflexivity. Qed.

(** A literal at the head of the text is read off. *)
Lemma rmatch_lit_head :
  forall key r prev rest k,
    rmatch (lit key r) prev (key ++ rest) k = rmatch r (last_char prev key) rest k.
Proof.
  induction key as [| c key IH]; intros r prev rest k; [reflexivity |].
  change (lit (c :: key) r) with (Seq (Chr c) (lit key r)).
  cbn [rmatch app]. rewrite Ascii.eqb_refl. apply IH.
Qed.

(** [.*] runs to the end of the line. *)
Lemma star_loop_dot :
  forall k n prev b rest x,
    length (b ++ rest) <= n ->
    ~ In newline b ->
    match rest with [] => True | c :: _ => c = newline end ->
    k (last_char prev b) rest = Some x ->
    star_loop Dot k n prev (b ++ rest) = Some x.
Proof.
  intros k. induction n as [| n' IH]; intros prev b rest x Hlen Hb Hrest Hk.
  - destruct b; [| simpl in Hlen; lia]. destruct rest; [| simpl in Hlen; lia].
    exact Hk.
  - rewrite star_loop_S. destruct b as [| c b'].
    + cbn [app]. cbn [last_char fold_left] in Hk.
      destruct rest as [| c rest']; [exact Hk |]. subst c.
      cbn [rmatch]. rewrite Ascii.eqb_refl. exact Hk.
    + cbn [app rmatch].
      destruct (Ascii.eqb c newline) eqn:E.
      { apply Ascii.eqb_eq in E. exfalso. apply Hb. now left. }
      assert (Hlt : (length (b' ++ rest) <? length (c :: b' ++ rest)) = true)
        by (apply Nat.ltb_lt; simpl; lia).
      rewrite Hlt.
      rewrite (IH (Some c) b' rest x); [reflexivity | | | exact Hrest | exact Hk].
      * simpl in Hlen. lia.
      * intros Hin. apply Hb. now right.
Qed.

(** At an occurrence the match runs to the end of the line. *)
Lemma match_at_sig :
  forall prev b rest,
    ~ In newline b ->
    match rest with [] => True | c :: _ => c = newline end ->
    match_at sig_re false prev (t "sig:" ++ b ++ rest)
    = Some (last_char (Some ":"%char) b, rest).
Proof.
  intros prev b rest Hb Hrest. unfold match_at, sig_re.
  rewrite rmatch_lit_head. cbn [rmatch].
  apply star_loop_dot; [lia | exact Hb | exact Hrest | reflexivity].
Qed.

(** A match starts with the marker. *)
Lemma match_at_sig_head :
  forall must prev s x,
    match_at sig_re must prev s = Some x -> exists rest, s = t "sig:" ++ rest.
Proof.
  intros must prev s x H. unfold match_at, sig_re in H.
  apply rmatch_lit in H. destruct H as [rest [Hs _]]. now exists rest.
Qed.

(** Up to the first occurrence the text is copied. *)
Lemma sub_loop_sig_prefix :
  forall a fuel prev rest,
    ~ occurs (t "sig:") a ->
    rest = [] \/ (exists tail, rest = t "sig:" ++ tail) ->
    sub_loop (length a + fuel) sig_re [] false prev (a ++ rest)
    = a ++ sub_loop fuel sig_re [] false (last_char prev a) rest.
Proof.
  induction a as [| c a IH]; intros fuel prev rest Hno Hrest; [reflexivity |].
  cbn [app length Nat.add sub_loop].
  destruct (match_at sig_re false prev (c :: a ++ rest)) as [x |] eqn:E.
  - exfalso. apply match_at_sig_head in E. destruct E as [rest0 E].
    unfold t in E. cbn [list_ascii_of_string app] in E.
    destruct a as [| c2 [| c3 [| c4 a4]]].
    + destruct Hrest as [Hrest | [tail Hrest]]; subst rest;
        unfold t in E; cbn [list_ascii_of_string app] in E; discriminate E.
    + destruct Hrest as [Hrest | [tail Hrest]]; subst rest;
        unfold t in E; cbn [list_ascii_of_string app] in E; discriminate E.
    + destruct Hrest as [Hrest | [tail Hrest]]; subst rest;
        unfold t in E; cbn [list_ascii_of_string app] in E; discriminate E.
    + cbn [app] in E. injection E as E1 E2 E3 E4 E5. subst c c2 c3 c4.
      apply Hno. exists [], a4. reflexivity.
  - f_equal. change (last_char prev (c :: a)) with (last_char (Some c) a).
    apply IH; [| exact Hrest].
    intros [u [v Huv]]. apply Hno. exists (c :: u), v. now rewrite Huv.
Qed.

Lemma sub_loop_sig_nil :
  forall fuel must prev, sub_loop fuel sig_re [] must prev [] = [].
Proof.
  intros [| f] must prev; [reflexivity |]. cbn [sub_loop].
  destruct (match_at sig_re must prev []) as [x |] eqn:E; [| reflexivity].
  apply match_at_sig_head in E. destruct E as [rest E]. discriminate E.
Qed.

(** The pattern has no [\b]: what stands before the text does not
    matter. *)
Lemma match_at_sig_prev :
  forall must prev prev' s,
    match_at sig_re must prev s = match_at sig_re must prev' s.
Proof.
  intros must prev prev' s. unfold match_at.
  cbv [sig_re lit t list_ascii_of_string fold_right].
  destruct s as [| c1 s]; [reflexivity |]. cbn [rmatch].
  destruct (Ascii.eqb c1 "s"); reflexivity.
Qed.

Lemma sub_loop_sig_prev :
  forall fuel must prev prev' s,
    sub_loop fuel sig_re [] must prev s = sub_loop fuel sig_re [] must prev' s.
Proof.
  intros [| f] must prev prev' s; [reflexivity |].
  cbn [sub_loop]. now rewrite (match_at_sig_prev must prev prev' s).
Qed.

Lemma sub_sig_none :
  forall a, ~ occurs (t "sig:") a -> sub sig_re [] a = a.
Proof.
  intros a Hno. unfold sub.
  replace (2 * length a + 2) with (length a + (length a + 2)) by lia.
  pose proof (sub_loop_sig_prefix a (length a + 2) None [] Hno (or_introl eq_refl)) as H.
  rewrite app_nil_r in H. rewrite H.
  now rewrite sub_loop_sig_nil, app_nil_r.
Qed.

Lemma sub_sig_end :
  forall a b,
    ~ occurs (t "sig:") a -> ~ In newline b ->
    sub sig_re [] (a ++ t "sig:" ++ b) = a.
Proof.
  intros a b Hno Hb. unfold sub.
  set (s := a ++ t "sig:" ++ b).
  assert (Hf : exists f, 2 * length s + 2 = length a + S f).
  { exists (2 * length s + 2 - length a - 1). subst s. rewrite length_app. lia. }
  destruct Hf as [f Hf]. rewrite Hf. subst s.
  rewrite sub_loop_sig_prefix; [| exact Hno | right; now exists b].
  cbn [sub_loop].
  rewrite <- (app_nil_r b) at 1.
  rewrite match_at_sig; [| exact Hb | exact I].
  cbn [app]. now rewrite sub_loop_sig_nil, app_nil_r.
Qed.

Lemma sub_sig_line :
  forall a b c,
    ~ occurs (t "sig:") a -> ~ In newline b ->
    sub sig_re [] (a ++ t "sig:" ++ b ++ newline :: c)
    = a ++ newline :: sub sig_re [] c.
Proof.
  intros a b c Hno Hb. unfold sub at 1.
  set (s := a ++ t "sig:" ++ b ++ newline :: c).
  assert (Hf : exists f, 2 * length s + 2 = length a + S (S f)
                         /\ 2 * length c + 1 < f).
  { exists (2 * length s + 2 - length a - 2). subst s.
    rewrite !length_app. cbn [length]. lia. }
  destruct Hf as [f [Hf Hc]]. rewrite Hf. subst s.
  rewrite sub_loop_sig_prefix; [| exact Hno | right; now exists (b ++ newline :: c)].
  f_equal. cbn [sub_loop].
  rewrite match_at_sig; [| exact Hb | reflexivity].
  assert (E : (length (newline :: c) =? length (t "sig:" ++ b ++ newline :: c)) = false).
  { apply Nat.eqb_neq. rewrite !length_app. simpl. lia. }
  rewrite E. cbn [app sub_loop].
  destruct (match_at sig_re false (last_char (Some ":"%char) b) (newline :: c))
    as [x |] eqn:Em.
  { apply match_at_sig_head in Em. destruct Em as [rest Em]. discriminate Em. }
  f_equal. rewrite (sub_loop_sig_prev f false (Some newline) None c).
  unfold sub. apply sub_loop_fuel; lia.
Qed.

(** X10. The instruction-suffix pass.  A text without the marker sig: is
    left as it is.  In a text with the marker, everything from its first
    occurrence to the end of that line is deleted: what stands before the
    marker is kept, and the lines after it go through the same pass. *)
Theorem sig_suffix_removed :
  forall a b,
    ~ occurs (t "sig:") a -> ~ In newline b ->
    strip_sig a = Some a
    /\ strip_sig (a ++ t "sig:" ++ b) = Some a
    /\ forall c,
         exists c',
           strip_sig c = Some c'
           /\ strip_sig (a ++ t "sig:" ++ b ++ newline :: c) = Some (a ++ newline :: c').
Proof.
  intros a b Hno Hb.
  assert (Hsub : forall s, strip_sig s = Some (sub sig_re [] s)).
  { intros s. unfold strip_sig, re_sub. now rewrite sig_compiled. }
  split; [| split].
  - now rewrite Hsub, sub_sig_none.
  - now rewrite Hsub, sub_sig_end.
  - intros c. exists (sub sig_re [] c). split; [apply Hsub |].
    now rewrite Hsub, sub_sig_line.
Qed.

(** X10 on a prescription line: the instruction goes, the drug stays. *)
Lemma sig_suffix_removed_witness :
  strip_sig (t "metformin 500 ") = Some (t "metformin 500 ")
  /\ strip_sig (t "metformin 500 " ++ t "sig:" ++ t " one daily") = Some (t "metformin 500 ")
  /\ forall c,
       exists c',
         strip_sig c = Some c'
         /\ strip_sig (t "metformin 500 " ++ t "sig:" ++ t " one daily" ++ newline :: c)
            = Some (t "metformin 500 " ++ newline :: c').
Proof.
  apply (sig_suffix_removed (t "metformin 500 ") (t " one daily")).
  - intros [u [v H]]. unfold t in H. cbn [list_ascii_of_string app] in H.
    do 15 (destruct u as [| ? u]; cbn [app] in H;
           [discriminate H | first [discriminate H | injection H as _ H]]).
  - vm_compute. intuition discriminate.
Defined.

(** ** Knowledge bases of plain words *)

Lemma unspecial_char_facts :
  forall c, is_special c = false ->
    (Ascii.eqb c "|" || Ascii.eqb c ")" || Ascii.eqb c "(" || Ascii.eqb c "["
     || Ascii.eqb c "\" || Ascii.eqb c "." || is_quantifier c) = false.
Proof. intros c. each_char c. Qed.

Lemma parse_atom_unspecial :
  forall n c s,
    is_special c = false -> parse_atom (S n) (c :: s) = Some (Chr c, s).
Proof.
  intros n c s E. pose proof (unspecial_char_facts c E) as F.
  repeat (apply orb_false_iff in F; destruct F as [F ?]).
  cbn [parse_atom].
  repeat match goal with
         | H : Ascii.eqb c _ = false |- _ => rewrite H; clear H
         end.
  now rewrite E.
Qed.

Lemma plain_chars_cons :
  forall c word,
    plain_chars (c :: word) = true -> is_special c = false /\ plain_chars word = true.
Proof.
  intros c word H. unfold plain_chars in H. cbn [forallb] in H.
  apply andb_true_iff in H. destruct H as [Hc Hw].
  split; [now apply negb_true_iff | exact Hw].
Qed.

Lemma plain_starts_plain :
  forall word rest,
    plain_chars word = true -> starts_plain rest -> starts_plain (word ++ rest).
Proof.
  intros [| c word] rest Hw H; [exact H |].
  apply plain_chars_cons in Hw. destruct Hw as [Hc _].
  pose proof (unspecial_char_facts c Hc) as F.
  apply orb_false_iff in F. destruct F as [_ F]. exact F.
Qed.

(** Parsing a word of plain characters gives the word as a literal. *)
Lemma parse_seq_plain :
  forall word n rest r rest',
    plain_chars word = true ->
    parse_seq (S n) rest = Some (r, rest') ->
    starts_plain rest ->
    parse_seq (S n + length word) (word ++ rest) = Some (lit word r, rest').
Proof.
  induction word as [| c word IH]; intros n rest r rest' Hw Hrest Hplain.
  - simpl. now rewrite Nat.add_0_r.
  - replace (S n + length (c :: word)) with (S (S n + length word)) by (simpl; lia).
    apply plain_chars_cons in Hw. destruct Hw as [Hc Hw].
    pose proof (plain_starts_plain word rest Hw Hplain) as Hnext.
    specialize (IH n rest r rest' Hw Hrest Hplain).
    pose proof (unspecial_char_facts c Hc) as F.
    cbn [app]. rewrite parse_seq_step.
    2:{ repeat (apply orb_false_iff in F; destruct F as [F ?]).
        apply orb_false_iff. split; assumption. }
    change (S n + length word) with (S (n + length word)) at 1.
    rewrite (parse_atom_unspecial _ _ _ Hc).
    rewrite (parse_quantifier_plain _ _ Hnext).
    now rewrite IH.
Qed.

Lemma keyword_pattern_compiled :
  forall word,
    plain_chars word = true ->
    re_compile (t "\b" ++ word ++ t "\b") = Some (word_re word).
Proof.
  intros word Hw. unfold re_compile.
  set (p := t "\b" ++ word ++ t "\b").
  assert (Hlen : length p = length word + 4).
  { subst p. rewrite !length_app. simpl. lia. }
  assert (Hf : exists n, 3 * length p + 3 = S (S (S (S n) + length word))).
  { exists (3 * length p + 3 - 4 - length word). lia. }
  destruct Hf as [n Hf]. rewrite Hf. subst p.
  assert (Htail : parse_seq (S (S n)) (t "\b") = Some (Seq Bnd Eps, [])).
  { destruct n; reflexivity. }
  pose proof (parse_seq_plain word (S n) (t "\b") (Seq Bnd Eps) [] Hw Htail eq_refl) as H.
  assert (Hplain : starts_plain (word ++ t "\b"))
    by (apply plain_starts_plain; [exact Hw | reflexivity]).
  cbn [parse_alt]. change (t "\b" ++ ?x) with ("\"%char :: "b"%char :: x).
  rewrite parse_seq_step by reflexivity.
  change (S (S n) + length word) with (S (S n + length word)) at 1.
  rewrite parse_atom_escape. change (parse_escape "b") with (Some Bnd). cbv iota.
  rewrite (parse_quantifier_plain _ _ Hplain).
  rewrite H. reflexivity.
Qed.

Lemma for_each_returns :
  forall (A : Type) (body : text -> A -> option text) (l : list A),
    (forall x, In x l -> forall s, exists y, body s x = Some y) ->
    forall s, exists y, for_each body l s = Some y.
Proof.
  intros A body. induction l as [| x l IH]; intros Hbody s.
  - exists s. reflexivity.
  - rewrite for_each_cons.
    destruct (Hbody x (or_introl eq_refl) s) as [s1 E]. rewrite E. cbn [obind].
    apply IH. intros x' Hx'. apply Hbody. now right.
Qed.

Lemma fixed_passes_return :
  forall s, exists text5,
    (text2 <- strip_sig s ;;
     text3 <- strip_take text2 ;;
     text4 <- strip_dose text3 ;;
     strip_stop_phrases text4) = Some text5.
Proof.
  intros s.
  assert (H2 : exists r, re_compile (t "sig:.*") = Some r)
    by (vm_compute; eexists; reflexivity).
  assert (H3 : exists r, re_compile (t "take \d+(\s*\(.*\))? tablet\(s\)?") = Some r)
    by (vm_compute; eexists; reflexivity).
  assert (H4 : exists r,
             re_compile (t "\d+(\.\d+)?\s*(mg|ml|mcg|unit|units|g|gram|grams)\b") = Some r)
    by (vm_compute; eexists; reflexivity).
  assert (H5 : exists r,
             re_compile
               (t "\b(by|via|every|with|as needed|at bedtime|oral|route|injection|topically)\b")
             = Some r)
    by (vm_compute; eexists; reflexivity).
  destruct H2 as [r2 H2], H3 as [r3 H3], H4 as [r4 H4], H5 as [r5 H5].
  unfold strip_sig, strip_take, strip_dose, strip_stop_phrases, re_sub.
  rewrite H2, H3, H4, H5. change (is_literal_repl (t "")) with true.
  cbn [obind]. eexists. reflexivity.
Qed.

(** With such a knowledge base the stripping passes return. *)
Lemma plain_passes_return :
  forall correction_map redundant_keywords s,
    Forall (fun rule => is_literal_repl (snd rule) = true) correction_map ->
    Forall (fun word => plain_chars word = true) redundant_keywords ->
    exists text7, strip_passes correction_map redundant_keywords s = Some text7.
Proof.
  intros cm kws s Hcm Hkw. unfold strip_passes, regex_passes.
  destruct (fixed_passes_return (strip (lower s))) as [t5 H5].
  destruct (strip_sig (strip (lower s))) as [t2 |]; [| discriminate].
  cbn [obind] in *.
  destruct (strip_take t2) as [t3 |]; [| discriminate]. cbn [obind] in *.
  destruct (strip_dose t3) as [t4 |]; [| discriminate]. cbn [obind] in *.
  rewrite H5. cbn [obind].
  destruct (for_each_returns _ apply_correction (sorted_by_len cm)) with (s := t5)
    as [t6 H6].
  { intros rule Hin s0.
    apply (Permutation_in _ (sorted_by_len_perm cm)) in Hin.
    rewrite Forall_forall in Hcm. specialize (Hcm rule Hin).
    unfold apply_correction, re_sub. rewrite word_pattern_compiled, Hcm.
    eexists. reflexivity. }
  unfold apply_corrections. rewrite H6. cbn [obind].
  apply for_each_returns. intros word Hin s0.
  rewrite Forall_forall in Hkw. specialize (Hkw word Hin).
  unfold remove_keyword, re_sub. rewrite (keyword_pattern_compiled word Hkw).
  change (is_literal_repl (t "")) with true. eexists. reflexivity.
Qed.

(** X11. A knowledge base of plain words never makes a cleaner raise: when
    no correction value has a backslash and no redundant keyword has a
    character with a meaning in a pattern, both cleaners return a string
    for every value. *)
Theorem plain_knowledge_base_never_fails :
  forall (L : Libraries) (which : script) correction_map redundant_keywords value,
    Forall (fun rule => is_literal_repl (snd rule) = true) correction_map ->
    Forall (fun word => plain_chars word = true) redundant_keywords ->
    exists y, cleaner_of which correction_map redundant_keywords value = Some y.
Proof.
  intros L which cm kws value Hcm Hkw.
  destruct value as [s | | z | q |]; try (destruct which; eexists; reflexivity).
  destruct (plain_passes_return cm kws s Hcm Hkw) as [t7 H7].
  destruct which; unfold cleaner_of.
  - rewrite harmonize_cleaner_passes, H7. cbn [obind]. rewrite tidy_eq.
    eexists. reflexivity.
  - rewrite demo_cleaner_passes, H7. cbn [obind]. rewrite tidy_eq.
    eexists. reflexivity.
Qed.

(** X11 on a rule and a keyword of two words. *)
Lemma plain_knowledge_base_never_fails_witness :
  exists y,
    cleaner_of (L := sample_libraries) demo_py
      [(t "hctz", t "hydrochlorothiazide")] [t "by mouth"]
      (PyStr (t "HCTZ 25 mg by mouth"))
    = Some y.
Proof.
  apply (plain_knowledge_base_never_fails sample_libraries demo_py
           [(t "hctz", t "hydrochlorothiazide")] [t "by mouth"]
           (PyStr (t "HCTZ 25 mg by mouth"))).
  - repeat constructor.
  - repeat constructor.
Defined.

(** ** Looking up a loaded correction map *)

Lemma text_eqb_refl : forall a, text_eqb a a = true.
Proof. intros a. now apply text_eqb_eq. Qed.

Lemma text_eqb_neq : forall a b, a <> b -> text_eqb a b = false.
Proof.
  intros a b H. destruct (text_eqb a b) eqn:E; [| reflexivity].
  apply text_eqb_eq in E. contradiction.
Qed.

(** Lookup after an assignment. *)
Lemma dict_get_set :
  forall m key value k,
    dict_get (dict_set m key value) k
    = if text_eqb key k then Some value else dict_get m k.
Proof.
  induction m as [| [k0 v0] m IH]; intros key value k; [reflexivity |].
  cbn [dict_set]. destruct (text_eqb k0 key) eqn:E0.
  - apply text_eqb_eq in E0. subst k0. cbn [dict_get].
    now destruct (text_eqb key k).
  - cbn [dict_get]. rewrite IH.
    destruct (text_eqb k0 k) eqn:E1; [| reflexivity].
    apply text_eqb_eq in E1. subst k0.
    rewrite text_eqb_neq; [reflexivity |].
    intros Heq. subst key. rewrite text_eqb_refl in E0. discriminate.
Qed.

Lemma load_line_colon :
  forall m line,
    In colon line ->
    load_line m line = dict_set m (line_key line) (line_value line).
Proof.
  intros m line H. unfold load_line, line_key, line_value.
  apply has_colon_In in H. rewrite H.
  now destruct (split_colon (strip line)).
Qed.

Lemma load_line_other :
  forall m line, ~ In colon line -> load_line m line = m.
Proof.
  intros m line H. unfold load_line.
  destruct (existsb (Ascii.eqb colon) line) eqn:E; [| reflexivity].
  apply has_colon_In in E. contradiction.
Qed.

(** Lines that do not define a key leave its value alone. *)
Lemma load_lines_other_keys :
  forall lines m key,
    (forall line, In line lines -> In colon line -> line_key line <> key) ->
    dict_get (fold_left load_line lines m) key = dict_get m key.
Proof.
  induction lines as [| line lines IH]; intros m key H; [reflexivity |].
  cbn [fold_left]. rewrite IH by (intros l Hl; apply H; now right).
  destruct (in_dec ascii_dec colon line) as [Hc | Hc].
  - rewrite load_line_colon by exact Hc. rewrite dict_get_set.
    now rewrite text_eqb_neq by (apply H; [now left | exact Hc]).
  - now rewrite load_line_other.
Qed.

Lemma lstrip_idem : forall s, lstrip (lstrip s) = lstrip s.
Proof.
  induction s as [| c s IH]; [reflexivity |]. simpl.
  destruct (isspace c) eqn:E; [exact IH |]. simpl. now rewrite E.
Qed.

Lemma lstrip_rstrip_rec :
  forall s, lstrip s = s -> lstrip (rstrip_rec s) = rstrip_rec s.
Proof.
  intros [| c s] H; [reflexivity |]. simpl in H. simpl.
  destruct (isspace c) eqn:E.
  - exfalso. pose proof (lstrip_length s) as Hl. rewrite H in Hl. simpl in Hl. lia.
  - destruct (rstrip_rec s); simpl; now rewrite E.
Qed.

(** Trimming twice is trimming once. *)
Lemma strip_idem : forall s, strip (strip s) = strip s.
Proof.
  intros s. unfold strip. rewrite !rstrip_rec_eq.
  rewrite (lstrip_rstrip_rec (lstrip s)) by apply lstrip_idem.
  apply rstrip_rec_idem.
Qed.

Lemma dict_set_trimmed :
  forall m key value,
    Forall (fun kv => strip (fst kv) = fst kv /\ strip (snd kv) = snd kv) m ->
    strip key = key -> strip value = value ->
    Forall (fun kv => strip (fst kv) = fst kv /\ strip (snd kv) = snd kv)
      (dict_set m key value).
Proof.
  intros m key value Hm Hk Hv. apply Forall_forall. intros [k v] Hin.
  apply dict_set_In in Hin. destruct Hin as [Hin | Hin].
  - inversion Hin; subst. now split.
  - rewrite Forall_forall in Hm. now apply (Hm (k, v)).
Qed.

Lemma loaded_entries_trimmed :
  forall lines : list text,
    Forall (fun kv => strip (fst kv) = fst kv /\ strip (snd kv) = snd kv)
      (fold_left load_line lines []).
Proof.
  intros lines. rewrite <- fold_left_rev_right.
  induction (rev lines) as [| l ls IH]; cbn [fold_right]; [constructor |].
  destruct (in_dec ascii_dec colon l) as [Hl | Hl].
  - rewrite load_line_colon by exact Hl.
    apply dict_set_trimmed; [exact IH | apply strip_idem | apply strip_idem].
  - now rewrite load_line_other.
Qed.

(** X12. Looking up the loaded correction map.  A key defined on several
    lines has the value of the last of them; a key no line defines is not
    in the map; keys and values are stored trimmed. *)
Theorem later_definition_wins :
  forall earlier line later,
    In colon line ->
    (forall other, In other later -> In colon other -> line_key other <> line_key line) ->
    dict_get (load_correction_map (Some (earlier ++ line :: later))) (line_key line)
    = Some (line_value line)
    /\ (forall key,
          (forall other, In other (earlier ++ line :: later) -> In colon other ->
                         line_key other <> key) ->
          dict_get (load_correction_map (Some (earlier ++ line :: later))) key = None)
    /\ (forall key value,
          In (key, value) (load_correction_map (Some (earlier ++ line :: later))) ->
          strip key = key /\ strip value = value).
Proof.
  intros earlier line later Hc Hlater. split; [| split].
  - unfold load_correction_map. rewrite fold_left_app. cbn [fold_left].
    rewrite load_lines_other_keys by exact Hlater.
    rewrite load_line_colon by exact Hc.
    now rewrite dict_get_set, text_eqb_refl.
  - intros key Hnone. unfold load_correction_map.
    now rewrite load_lines_other_keys by exact Hnone.
  - intros key value Hin.
    pose proof (loaded_entries_trimmed (earlier ++ line :: later)) as Hall.
    rewrite Forall_forall in Hall. exact (Hall (key, value) Hin).
Qed.

(** X12 on a file that defines hctz twice. *)
Lemma later_definition_wins_witness :
  dict_get
    (load_correction_map
       (Some ([t "hctz: water pill"] ++ t " hctz :hydrochlorothiazide " :: [t "asa: aspirin"])))
    (line_key (t " hctz :hydrochlorothiazide "))
  = Some (line_value (t " hctz :hydrochlorothiazide "))
  /\ (forall key,
        (forall other,
            In other ([t "hctz: water pill"] ++ t " hctz :hydrochlorothiazide "
                        :: [t "asa: aspirin"]) ->
            In colon other -> line_key other <> key) ->
        dict_get
          (load_correction_map
             (Some ([t "hctz: water pill"] ++ t " hctz :hydrochlorothiazide "
                      :: [t "asa: aspirin"]))) key = None)
  /\ (forall key value,
        In (key, value)
          (load_correction_map
             (Some ([t "hctz: water pill"] ++ t " hctz :hydrochlorothiazide "
                      :: [t "asa: aspirin"]))) ->
        strip key = key /\ strip value = value).
Proof.
  apply (later_definition_wins [t "hctz: water pill"] (t " hctz :hydrochlorothiazide ")
           [t "asa: aspirin"]).
  - vm_compute. tauto.
  - intros other [Ho | []] _. subst other. vm_compute. discriminate.
Defined.

(** ** The driver *)

Lemma map_option_Forall2 :
  forall (A B : Type) (f : A -> option B) l ys,
    map_option f l = Some ys -> Forall2 (fun x y => f x = Some y) l ys.
Proof.
  intros A B f. induction l as [| x l IH]; intros ys H.
  - inversion H; subst. constructor.
  - cbn [map_option] in H. destruct (f x) as [y |] eqn:E; [| discriminate].
    cbn [obind] in H. destruct (map_option f l) as [ys' |]; [| discriminate].
    cbn [obind] in H. inversion H; subst. constructor; [exact E | now apply IH].
Qed.

Lemma map_option_returns :
  forall (A B : Type) (f : A -> option B) l,
    (forall x, In x l -> exists y, f x = Some y) ->
    exists ys, map_option f l = Some ys.
Proof.
  intros A B f. induction l as [| x l IH]; intros H.
  - exists []. reflexivity.
  - destruct (H x (or_introl eq_refl)) as [y E].
    destruct IH as [ys E']; [intros x' Hx'; apply H; now right |].
    exists (y :: ys). cbn [map_option]. now rewrite E, E'.
Qed.

(** The loop of [main] over the rows and their cleaned descriptions. *)
Lemma rows_and_results :
  forall (A B C : Type) (g : A -> option B) (h : A * B -> option C) l cleaned results,
    map_option g l = Some cleaned ->
    map_option h (combine l cleaned) = Some results ->
    Forall2 (fun row result => exists d, g row = Some d /\ h (row, d) = Some result)
      l results.
Proof.
  intros A B C g h. induction l as [| x l IH]; intros cleaned results Hg Hh.
  - inversion Hg; subst. inversion Hh; subst. constructor.
  - cbn [map_option] in Hg. destruct (g x) as [d |] eqn:E; [| discriminate].
    cbn [obind] in Hg. destruct (map_option g l) as [ds |] eqn:Eg; [| discriminate].
    cbn [obind] in Hg. inversion Hg; subst cleaned.
    cbn [combine map_option] in Hh. destruct (h (x, d)) as [r |] eqn:Er; [| discriminate].
    cbn [obind] in Hh.
    destruct (map_option h (combine l ds)) as [rs |] eqn:Eh; [| discriminate].
    cbn [obind] in Hh. inversion Hh; subst results.
    constructor; [exists d; now split | now apply (IH ds)].
Qed.

Lemma map_fst_combine :
  forall (A B : Type) (l : list A) (l' : list B),
    length l = length l' -> map fst (combine l l') = l.
Proof.
  intros A B. induction l as [| x l IH]; intros [| y l'] H; try discriminate H.
  - reflexivity.
  - simpl. f_equal. apply IH. simpl in H. lia.
Qed.

Lemma Forall2_combine :
  forall (A B : Type) (R : A -> B -> Prop) l l',
    Forall2 R l l' -> Forall (fun p => R (fst p) (snd p)) (combine l l').
Proof. intros A B R l l' H. induction H; simpl; constructor; assumption. Qed.

Lemma Forall2_nth_error :
  forall (A B : Type) (R : A -> B -> Prop) l l' i x,
    Forall2 R l l' -> nth_error l i = Some x ->
    exists y, nth_error l' i = Some y /\ R x y.
Proof.
  intros A B R l l' i x H. revert i. induction H as [| a b l l' Hab H IH]; intros i Hi.
  - destruct i; discriminate Hi.
  - destruct i as [| i]; simpl in Hi.
    + inversion Hi; subst. exists b. now split.
    + now apply IH.
Qed.

Lemma nth_error_combine :
  forall (A B : Type) (l : list A) (l' : list B) i x y,
    nth_error l i = Some x -> nth_error l' i = Some y ->
    nth_error (combine l l') i = Some (x, y).
Proof.
  intros A B. induction l as [| a l IH]; intros l' i x y Hx Hy.
  - destruct i; discriminate Hx.
  - destruct l' as [| b l']; [destruct i; discriminate Hy |].
    destruct i as [| i]; simpl in *.
    + now inversion Hx; inversion Hy; subst.
    + now apply IH.
Qed.

Lemma iloc_In : forall data i row, iloc data i = Some row -> In row data.
Proof.
  intros data i row H. unfold iloc in H.
  destruct (i <? 0)%Z.
  - destruct (- i <=? Z.of_nat (length data))%Z; [| discriminate].
    eapply nth_error_In; eauto.
  - eapply nth_error_In; eauto.
Qed.

(** The cleaned table has the rows of the file, in order. *)
Lemma add_cleaned_rows :
  forall cleaner df data row,
    Driver.add_cleaned cleaner df = Some data ->
    In row data ->
    exists ref, In ref df /\ STR row = STR_cell ref /\ CODE row = CODE_cell ref.
Proof.
  intros cleaner df data row H Hin. unfold Driver.add_cleaned in H.
  apply map_option_Forall2 in H.
  induction H as [| ref r df data Hr H IH]; [destruct Hin |].
  destruct Hin as [Hin | Hin].
  - subst r. exists ref. split; [now left |].
    destruct (cleaner (PyStr (STR_cell ref))) as [c |]; [| discriminate].
    cbn [obind] in Hr. inversion Hr; subst. now split.
  - destruct (IH Hin) as [ref' [Hin' Heq]]. exists ref'. split; [now right | exact Heq].
Qed.

Section Results.
Context {L : Libraries}.

(** What a call returns, if it returns: a sentinel, or the code and the
    text of one row of the table the entity type selects. *)
Lemma find_best_match_cases :
  forall description entity_type snomed_data rxnorm_data snomed_tfidf rxnorm_tfidf
         snomed_vectorizer rxnorm_vectorizer r,
    result_of (Harmonize.find_best_match description entity_type snomed_data
                 rxnorm_data snomed_tfidf rxnorm_tfidf snomed_vectorizer
                 rxnorm_vectorizer) = Some r ->
    let system := if entity_in entity_type snomed_types
                  then t "SNOMEDCT_US" else t "RXNORM" in
    let data := if entity_in entity_type snomed_types
                then snomed_data else rxnorm_data in
    (strip description = [] -> r = no_input system)
    /\ (r = no_input system \/ r = not_found system
        \/ exists row,
             In row data
             /\ r = {| System := system; Code := CODE row; Description := STR row |}).
Proof.
  intros d et sd rd st rt sv rv r H system data.
  destruct (route et sd rd st rt sv rv) as [[[data' m] vec] sys] eqn:Hroute.
  rewrite (find_best_match_search _ _ _ _ _ _ _ _ _ _ _ _ Hroute) in H.
  assert (Hsel : data' = data /\ sys = system).
  { unfold route in Hroute. subst data system.
    destruct (entity_in et snomed_types); inversion Hroute; now split. }
  destruct Hsel as [Hd Hs]. subst data' sys.
  destruct (strip d) as [| c s'] eqn:Hstrip.
  - rewrite (search_blank data m vec system d Hstrip) in H.
    inversion H; subst. split; [reflexivity | now left].
  - split; [discriminate |].
    assert (Hnb : strip d <> []) by (rewrite Hstrip; discriminate).
    rewrite (search_result data m vec system d Hnb) in H.
    destruct (Harmonize.candidate_indices_of _) as [| top rest].
    + inversion H; subst. right. now left.
    + destruct (nth_error _ top) as [q |]; [| discriminate]. cbn [obind] in H.
      destruct (Qltb q (1 # 10)).
      * inversion H; subst. right. now left.
      * destruct (Harmonize.rerank d data (top :: rest)) as [best |]; [| discriminate].
        cbn [obind] in H.
        destruct (iloc data (snd best)) as [row |] eqn:Erow; [| discriminate].
        cbn [obind] in H. inversion H; subst.
        right. right. exists row. split; [eapply iloc_In; eauto | reflexivity].
Qed.

End Results.

Section DriverFacts.
Context {L : Libraries}.
Variable which : script.
Variable fit_transform : list text -> option (Vectorizer * Matrix).
Variables (snomed_file rxnorm_file : option (list ReferenceRow)).
Variables (correction_map_file redundant_keywords_file : option (list text)).

Local Abbreviation cleaner :=
  (cleaner_of which (load_correction_map correction_map_file)
     (load_redundant_keywords redundant_keywords_file)).

(** The steps of a run that writes its output. *)
Lemma main_written :
  forall test_file rows,
    main_of which fit_transform test_file snomed_file rxnorm_file
      correction_map_file redundant_keywords_file = Written rows ->
    exists test_df snomed_df rxnorm_df snomed_data rxnorm_data snomed rxnorm results,
      test_file = Some test_df
      /\ snomed_file = Some snomed_df
      /\ rxnorm_file = Some rxnorm_df
      /\ Driver.add_cleaned cleaner snomed_df = Some snomed_data
      /\ Driver.add_cleaned cleaner rxnorm_df = Some rxnorm_data
      /\ fit_transform (map Cleaned_STR snomed_data) = Some snomed
      /\ fit_transform (map Cleaned_STR rxnorm_data) = Some rxnorm
      /\ Forall2
           (fun row result =>
              exists d,
                cleaner (Input_Entity_Description row) = Some d
                /\ result_of
                     (Harmonize.find_best_match d (Entity_Type row) snomed_data rxnorm_data
                        (snd snomed) (snd rxnorm) (fst snomed) (fst rxnorm))
                   = Some result)
           test_df results
      /\ results <> []
      /\ rows = map (fun rr => Driver.output_row (fst rr) (snd rr)) (combine test_df results).
Proof.
  intros test_file rows H.
  assert (Hmain : Driver.main (cleaner_of which) Harmonize.find_best_match fit_transform
                    test_file snomed_file rxnorm_file
                    correction_map_file redundant_keywords_file = Written rows).
  { destruct which; exact H. }
  clear H. unfold Driver.main in Hmain.
  destruct test_file as [test_df |]; [| discriminate].
  destruct snomed_file as [snomed_df |]; [| discriminate].
  destruct rxnorm_file as [rxnorm_df |]; [| discriminate].
  destruct (map_option (fun row => cleaner (Input_Entity_Description row)) test_df)
    as [cleaned |] eqn:Ec; [| discriminate].
  cbn [obind] in Hmain.
  destruct (Driver.add_cleaned cleaner snomed_df) as [snomed_data |] eqn:Es;
    [| discriminate].
  cbn [obind] in Hmain.
  destruct (Driver.add_cleaned cleaner rxnorm_df) as [rxnorm_data |] eqn:Er;
    [| discriminate].
  cbn [obind] in Hmain.
  destruct (fit_transform (map Cleaned_STR snomed_data)) as [snomed |] eqn:Efs;
    [| discriminate].
  cbn [obind] in Hmain.
  destruct (fit_transform (map Cleaned_STR rxnorm_data)) as [rxnorm |] eqn:Efr;
    [| discriminate].
  cbn [obind] in Hmain.
  match type of Hmain with
  | context [map_option ?h (combine test_df cleaned)] =>
      destruct (map_option h (combine test_df cleaned)) as [results |] eqn:Eres;
        [| discriminate]
  end.
  cbn [obind] in Hmain.
  exists test_df, snomed_df, rxnorm_df, snomed_data, rxnorm_data, snomed, rxnorm, results.
  repeat (split; [first [reflexivity | assumption] |]).
  split.
  { exact (rows_and_results _ _ _ _ _ _ _ _ Ec Eres). }
  destruct results as [| r rs]; [discriminate |].
  split; [discriminate |]. now inversion Hmain.
Qed.

End DriverFacts.

Lemma main_of_unfold :
  forall (L : Libraries) (which : script),
    main_of which = Driver.main (cleaner_of which) Harmonize.find_best_match.
Proof. intros L which. destruct which; reflexivity. Qed.

Section DriverTheorems.
Context {L : Libraries}.

Lemma carried_twice : forall row, carried (carried row) = carried row.
Proof.
  intros row. unfold carried. cbn [Input_Entity_Description Entity_Type Other_Columns].
  f_equal. induction (Other_Columns row) as [| c l IH]; [reflexivity |].
  cbn [filter]. destruct (negb (is_assigned (fst c))) eqn:E; [| exact IH].
  cbn [filter]. rewrite E. now rewrite IH.
Qed.

(** X13. When a run writes its output, the output table is not empty and
    has one row for each row of the input table, in the same order.  Each
    output row has the description and the entity type of its input row
    and, of the other columns of that row, those whose name is none of
    Cleaned_Description, Output Coding System, Output Target Code and
    Output Target Description, in their order and unchanged; an input
    column that has one of these four names is not in it (the driver
    overwrites it, or drops it).  The three data files were there.  So a
    run on an input table without rows writes nothing. *)
Theorem written_rows_follow_input :
  forall (which : script) fit_transform test_file snomed_file rxnorm_file
         correction_map_file redundant_keywords_file rows,
    main_of which fit_transform test_file snomed_file rxnorm_file
      correction_map_file redundant_keywords_file = Written rows ->
    rows <> []
    /\ (exists test_df,
          test_file = Some test_df
          /\ Forall2
               (fun row o =>
                  Input_Entity_Description (Input_Row o) = Input_Entity_Description row
                  /\ Entity_Type (Input_Row o) = Entity_Type row
                  /\ Other_Columns (Input_Row o)
                     = filter (fun column => negb (is_assigned (fst column)))
                         (Other_Columns row)
                  /\ (forall name value,
                        In (name, value) (Other_Columns (Input_Row o))
                        <-> In (name, value) (Other_Columns row)
                            /\ ~ In name assigned_columns))
               test_df rows)
    /\ snomed_file <> None
    /\ rxnorm_file <> None.
Proof.
  intros which fit tf sf rf cmf kwf rows H.
  apply main_written in H.
  destruct H as [test_df [sdf [rdf [sd [rd [sn [rx [results H]]]]]]]].
  destruct H as [Ht [Hs [Hr [_ [_ [_ [_ [Hall [Hne Hrows]]]]]]]]].
  subst tf sf rf rows.
  pose proof (Forall2_length Hall) as Hlen.
  split; [| split; [| split; discriminate]].
  - destruct results as [| r rs]; [contradiction |].
    destruct test_df as [| x xs]; [discriminate Hlen | discriminate].
  - exists test_df. split; [reflexivity |].
    clear Hall Hne. revert results Hlen.
    induction test_df as [| row test_df IH]; intros [| r results] Hlen;
      try discriminate Hlen; cbn [combine map]; constructor.
    + cbn [Driver.output_row Input_Row carried Input_Entity_Description Entity_Type
             Other_Columns fst snd].
      split; [reflexivity | split; [reflexivity | split; [reflexivity |]]].
      intros name value. rewrite filter_In. cbn [fst].
      unfold is_assigned. rewrite negb_true_iff.
      split; intros [Hin Hno]; (split; [exact Hin |]).
      * intros Hname.
        assert (Hex : existsb (text_eqb name) assigned_columns = true).
        { apply existsb_exists. exists name. split; [exact Hname |].
          now apply text_eqb_eq. }
        congruence.
      * destruct (existsb (text_eqb name) assigned_columns) eqn:E; [| reflexivity].
        exfalso. apply Hno. apply existsb_exists in E. destruct E as [x [Hx Heq]].
        apply text_eqb_eq in Heq. now subst x.
    + apply IH. simpl in Hlen. lia.
Qed.

(** X14. Every row a run writes carries the label of the coding system its
    entity type selects, and either a sentinel or the code and the text of
    one row of that system's reference file, both from the same row; a
    description that is cleaned to the empty string gets NO_INPUT. *)
Theorem written_codes_come_from_reference :
  forall (which : script) fit_transform test_file snomed_file rxnorm_file
         correction_map_file redundant_keywords_file rows,
    main_of which fit_transform test_file snomed_file rxnorm_file
      correction_map_file redundant_keywords_file = Written rows ->
    exists snomed_df rxnorm_df,
      snomed_file = Some snomed_df
      /\ rxnorm_file = Some rxnorm_df
      /\ Forall
           (fun o =>
              let is_snomed := entity_in (Entity_Type (Input_Row o)) snomed_types in
              let system := if is_snomed then t "SNOMEDCT_US" else t "RXNORM" in
              exists result,
                o = Driver.output_row (Input_Row o) result
                /\ (cleaner_of which (load_correction_map correction_map_file)
                      (load_redundant_keywords redundant_keywords_file)
                      (Input_Entity_Description (Input_Row o)) = Some [] ->
                    result = no_input system)
                /\ (result = no_input system
                    \/ result = not_found system
                    \/ exists ref,
                         In ref (if is_snomed then snomed_df else rxnorm_df)
                         /\ result = {| System := system; Code := CODE_cell ref;
                                        Description := STR_cell ref |}))
           rows.
Proof.
  intros which fit tf sf rf cmf kwf rows H.
  apply main_written in H.
  destruct H as [test_df [sdf [rdf [sd [rd [sn [rx [results H]]]]]]]].
  destruct H as [Ht [Hs [Hr [Hsd [Hrd [_ [_ [Hall [_ Hrows]]]]]]]]].
  exists sdf, rdf. split; [exact Hs |]. split; [exact Hr |].
  subst rows. apply Forall_map. apply Forall2_combine in Hall.
  rewrite Forall_forall in Hall. apply Forall_forall.
  intros [row result] Hpair. destruct (Hall _ Hpair) as [d [Hd Hres]]. cbn [fst snd] in *.
  cbn [Driver.output_row Input_Row carried Entity_Type Input_Entity_Description].
  exists result. split; [unfold Driver.output_row; now rewrite carried_twice |].
  pose proof (find_best_match_cases _ _ _ _ _ _ _ _ _ Hres) as [Hblank Hcases].
  split.
  - intros Hempty. rewrite Hempty in Hd. inversion Hd; subst. now apply Hblank.
  - destruct Hcases as [Hc | [Hc | [r [Hin Hc]]]]; [now left | right; now left |].
    right. right.
    destruct (entity_in (Entity_Type row) snomed_types).
    + destruct (add_cleaned_rows _ _ _ _ Hsd Hin) as [ref [Href [E1 E2]]].
      exists ref. split; [exact Href |]. now rewrite <- E1, <- E2.
    + destruct (add_cleaned_rows _ _ _ _ Hrd Hin) as [ref [Href [E1 E2]]].
      exists ref. split; [exact Href |]. now rewrite <- E1, <- E2.
Qed.

(** X15. The rows of the input table are harmonized independently: a run
    that writes its output gives each row the result a run on that row
    alone gives it. *)
Theorem rows_are_independent :
  forall (which : script) fit_transform test_df snomed_file rxnorm_file
         correction_map_file redundant_keywords_file rows i row,
    main_of which fit_transform (Some test_df) snomed_file rxnorm_file
      correction_map_file redundant_keywords_file = Written rows ->
    nth_error test_df i = Some row ->
    exists o,
      nth_error rows i = Some o
      /\ main_of which fit_transform (Some [row]) snomed_file rxnorm_file
           correction_map_file redundant_keywords_file = Written [o].
Proof.
  intros which fit test_df sf rf cmf kwf rows i row H Hi.
  apply main_written in H.
  destruct H as [test_df' [sdf [rdf [sd [rd [sn [rx [results H]]]]]]]].
  destruct H as [Ht [Hs [Hr [Hsd [Hrd [Hfs [Hfr [Hall [_ Hrows]]]]]]]]].
  inversion Ht; subst test_df'. clear Ht.
  destruct (Forall2_nth_error _ _ _ _ _ _ _ Hall Hi) as [result [Hres [d [Hd Hm]]]].
  exists (Driver.output_row row result). split.
  - subst rows. rewrite nth_error_map.
    now rewrite (nth_error_combine _ _ _ _ _ _ _ Hi Hres).
  - rewrite main_of_unfold. subst sf rf. unfold Driver.main.
    cbn [map_option]. rewrite Hd. cbn [obind].
    rewrite Hsd, Hrd. cbn [obind]. rewrite Hfs, Hfr. cbn [obind].
    cbn [combine map_option fst snd]. rewrite Hm. cbn [obind]. reflexivity.
Qed.

(** X16. A run ends without doing anything exactly when one of the three
    data files is missing; a missing knowledge-base file, in contrast,
    never stops a run: it has the effect of an empty file. *)
Theorem only_data_files_are_required :
  forall (which : script) fit_transform test_file snomed_file rxnorm_file
         correction_map_file redundant_keywords_file,
    (main_of which fit_transform test_file snomed_file rxnorm_file
       correction_map_file redundant_keywords_file = Aborted
     <-> test_file = None \/ snomed_file = None \/ rxnorm_file = None)
    /\ main_of which fit_transform test_file snomed_file rxnorm_file
         None redundant_keywords_file
       = main_of which fit_transform test_file snomed_file rxnorm_file
           (Some []) redundant_keywords_file
    /\ main_of which fit_transform test_file snomed_file rxnorm_file
         correction_map_file None
       = main_of which fit_transform test_file snomed_file rxnorm_file
           correction_map_file (Some []).
Proof.
  intros which fit tf sf rf cmf kwf. rewrite !main_of_unfold.
  split; [| split; reflexivity].
  unfold Driver.main. split.
  - intros H. destruct tf; [| now left]. destruct sf; [| right; now left].
    destruct rf; [| right; now right].
    exfalso. revert H.
    match goal with |- match ?x with _ => _ end = _ -> _ => destruct x end; discriminate.
  - intros [H | [H | H]]; subst; [reflexivity | |].
    + now destruct tf.
    + destruct tf; [| reflexivity]. now destruct sf.
Qed.

Context {OK : LibrariesOk L}.

(** A call returns when the table has one row per similarity. *)
Lemma find_best_match_returns :
  forall description entity_type snomed_data rxnorm_data snomed_tfidf rxnorm_tfidf
         snomed_vectorizer rxnorm_vectorizer,
    (forall x, length (cosine_similarity x snomed_tfidf) = length snomed_data) ->
    (forall x, length (cosine_similarity x rxnorm_tfidf) = length rxnorm_data) ->
    exists r,
      result_of (Harmonize.find_best_match description entity_type snomed_data
                   rxnorm_data snomed_tfidf rxnorm_tfidf snomed_vectorizer
                   rxnorm_vectorizer) = Some r.
Proof.
  intros d et sd rd st rt sv rv Hs Hr.
  destruct (route et sd rd st rt sv rv) as [[[data m] vec] sys] eqn:Hroute.
  rewrite (find_best_match_search _ _ _ _ _ _ _ _ _ _ _ _ Hroute).
  assert (Hrows : forall x, length (cosine_similarity x m) = length data).
  { unfold route in Hroute.
    destruct (entity_in et snomed_types); inversion Hroute; subst; assumption. }
  destruct (strip d) as [| c s'] eqn:Hd.
  - rewrite (search_blank data m vec sys d Hd). eexists. reflexivity.
  - assert (Hnb : strip d <> []) by (rewrite Hd; discriminate).
    destruct (Harmonize.candidate_indices_of (cosine_similarity (transform vec d) m))
      as [| top rest] eqn:E.
    + rewrite (search_result data m vec sys d Hnb), E. eexists. reflexivity.
    + destruct (Qlt_le_dec (nth top (cosine_similarity (transform vec d) m) 0%Q) (1 # 10))
        as [Hlt | Hge].
      * rewrite (search_below data m vec sys d Hnb top rest E Hlt).
        eexists. reflexivity.
      * destruct (search_returns_row data m vec sys d Hnb (Hrows _) top rest E Hge)
          as [row [_ Hres]].
        rewrite Hres. eexists. reflexivity.
Qed.

(** X17. A run completes.  When the input table has a row, the cleaner
    does not raise, the vectorizer can be fitted to both cleaned reference
    tables, and a fitted matrix gives one similarity per document, no call
    of the matcher raises and the run writes one output row per input
    row. *)
Theorem run_completes :
  forall (which : script) fit_transform test_df snomed_df rxnorm_df
         correction_map_file redundant_keywords_file,
    let cleaner := cleaner_of which (load_correction_map correction_map_file)
                     (load_redundant_keywords redundant_keywords_file) in
    test_df <> [] ->
    (forall value, exists y, cleaner value = Some y) ->
    (forall data, Driver.add_cleaned cleaner snomed_df = Some data ->
                  fit_transform (map Cleaned_STR data) <> None) ->
    (forall data, Driver.add_cleaned cleaner rxnorm_df = Some data ->
                  fit_transform (map Cleaned_STR data) <> None) ->
    (forall documents vectorizer matrix,
        fit_transform documents = Some (vectorizer, matrix) ->
        forall x, length (cosine_similarity x matrix) = length documents) ->
    exists rows,
      main_of which fit_transform (Some test_df) (Some snomed_df) (Some rxnorm_df)
        correction_map_file redundant_keywords_file = Written rows
      /\ length rows = length test_df.
Proof.
  intros which fit test_df sdf rdf cmf kwf cleaner Hne Hclean Hfs Hfr Hshape.
  rewrite main_of_unfold. unfold Driver.main. fold cleaner.
  destruct (map_option_returns _ _ (fun row => cleaner (Input_Entity_Description row)) test_df)
    as [cleaned Ec]; [intros x _; apply Hclean |].
  rewrite Ec. cbn [obind].
  assert (Hadd : forall df, exists data, Driver.add_cleaned cleaner df = Some data).
  { intros df. unfold Driver.add_cleaned. apply map_option_returns.
    intros ref _. destruct (Hclean (PyStr (STR_cell ref))) as [y Hy].
    rewrite Hy. eexists. reflexivity. }
  destruct (Hadd sdf) as [sd Hsd]. destruct (Hadd rdf) as [rd Hrd].
  rewrite Hsd, Hrd. cbn [obind].
  specialize (Hfs sd Hsd). specialize (Hfr rd Hrd).
  destruct (fit (map Cleaned_STR sd)) as [[sv sm] |] eqn:Es; [| contradiction].
  destruct (fit (map Cleaned_STR rd)) as [[rv rm] |] eqn:Er; [| contradiction].
  cbn [obind fst snd].
  pose proof (Hshape _ _ _ Es) as Hs. pose proof (Hshape _ _ _ Er) as Hr.
  rewrite length_map in Hs, Hr.
  match goal with
  | |- context [map_option ?h (combine test_df cleaned)] =>
      destruct (map_option_returns _ _ h (combine test_df cleaned)) as [results Eres]
  end.
  { intros [row d] _. cbn [fst snd]. now apply find_best_match_returns. }
  rewrite Eres. cbn [obind].
  pose proof (Forall2_length (map_option_Forall2 _ _ _ _ _ Ec)) as Hlc.
  pose proof (Forall2_length (map_option_Forall2 _ _ _ _ _ Eres)) as Hlr.
  rewrite length_combine, <- Hlc, Nat.min_id in Hlr.
  destruct results as [| r rs].
  { destruct test_df; [contradiction | discriminate Hlr]. }
  eexists. split; [reflexivity |].
  rewrite length_map, length_combine, <- Hlr. apply Nat.min_id.
Qed.

End DriverTheorems.

(** ** A rule on its own key *)

Lemma rmatch_lit_whole :
  forall key r prev k,
    rmatch (lit key r) prev key k = rmatch r (last_char prev key) [] k.
Proof.
  intros key r prev k. pose proof (rmatch_lit_head key r prev [] k) as H.
  now rewrite app_nil_r in H.
Qed.

(** The pattern of a key on the key alone: it matches when the key begins
    and ends with a word character, and only then. *)
Lemma sub_word_re_key :
  forall key repl,
    key <> [] ->
    sub (word_re key) repl key
    = if word_after key && word_before (last_char None key) then repl else key.
Proof.
  intros key repl Hne. unfold sub.
  destruct (word_after key && word_before (last_char None key)) eqn:E.
  - apply andb_true_iff in E. destruct E as [E1 E2].
    replace (2 * length key + 2) with (S (S (2 * length key))) by lia.
    assert (Hm : match_at (word_re key) false None key = Some (last_char None key, [])).
    { unfold match_at, word_re. cbn [rmatch].
      unfold at_boundary at 1. cbn [word_before]. rewrite E1. cbn [xorb].
      rewrite rmatch_lit_whole. cbn [rmatch].
      unfold at_boundary. rewrite E2. reflexivity. }
    cbn [sub_loop]. rewrite Hm.
    assert (Hl : (length (@nil ascii) =? length key) = false).
    { apply Nat.eqb_neq. destruct key; [contradiction | discriminate]. }
    rewrite Hl.
    destruct (match_at (word_re key) false (last_char None key) []) as [x |] eqn:Em.
    + exfalso. apply match_at_word in Em. destruct Em as [rest [Hr _]].
      destruct key; [contradiction | discriminate Hr].
    + apply app_nil_r.
  - apply sub_loop_unmatched. intros a b Hab.
    destruct (match_at (word_re key) false (last_char None a) b) as [x |] eqn:Em;
      [| reflexivity].
    exfalso. apply match_at_word in Em. destruct Em as [rest [Hb [B1 B2]]].
    assert (Hlen : length key = length a + (length key + length rest)).
    { rewrite Hab at 1. rewrite Hb. now rewrite !length_app. }
    assert (Ha : a = []) by (destruct a; [reflexivity | simpl in Hlen; lia]).
    assert (Hr : rest = []) by (destruct rest; [reflexivity | simpl in Hlen; lia]).
    subst a rest. rewrite app_nil_r in Hb. subst b.
    change (last_char None []) with (@None ascii) in B1, B2.
    unfold at_boundary in B1, B2. cbn [word_before xorb] in B1.
    cbn [word_after] in B2. rewrite xorb_false_r in B2.
    rewrite B1, B2 in E. discriminate.
Qed.

(** X18. A rule applied to its own key.  A correction rule rewrites its key,
    standing alone, to its value when the key begins and ends with a word
    character; a key that begins or ends with any other character (a dot,
    a bracket) is left as it is, because no word boundary stands at that
    end.  A redundant keyword of plain characters is removed under the same
    condition. *)
Theorem rule_on_its_own_key :
  forall key value,
    key <> [] ->
    let whole := word_after key && word_before (last_char None key) in
    (is_literal_repl value = true ->
     apply_correction key (key, value) = Some (if whole then value else key))
    /\ (plain_chars key = true ->
        remove_keyword key key = Some (if whole then [] else key)).
Proof.
  intros key value Hne whole. split.
  - intros Hv. unfold apply_correction, re_sub. cbn [fst snd].
    rewrite word_pattern_compiled, Hv. f_equal. now apply sub_word_re_key.
  - intros Hp. unfold remove_keyword, re_sub.
    rewrite (keyword_pattern_compiled key Hp).
    change (is_literal_repl (t "")) with true. cbv iota. f_equal.
    now apply sub_word_re_key.
Qed.

(** X18 on an abbreviation that ends with a dot: the rule does not
    fire. *)
Lemma rule_on_its_own_key_witness :
  let whole := word_after (t "b.i.d.") && word_before (last_char None (t "b.i.d.")) in
  (is_literal_repl (t "twice daily") = true ->
   apply_correction (t "b.i.d.") (t "b.i.d.", t "twice daily")
   = Some (if whole then t "twice daily" else t "b.i.d."))
  /\ (plain_chars (t "b.i.d.") = true ->
      remove_keyword (t "b.i.d.") (t "b.i.d.") = Some (if whole then [] else t "b.i.d.")).
Proof.
  apply (rule_on_its_own_key (t "b.i.d.") (t "twice daily")).
  discriminate.
Defined.

Lemma rule_on_its_own_key_example :
  apply_correction (t "b.i.d.") (t "b.i.d.", t "twice daily") = Some (t "b.i.d.")
  /\ apply_correction (t "bid") (t "bid", t "twice daily") = Some (t "twice daily").
Proof. split; vm_compute; reflexivity. Qed.

(** ** Texts without a digit *)

Lemma take_compiled_shape :
  exists r1 r2,
    re_compile (t "take \d+(\s*\(.*\))? tablet\(s\)?")
    = Some (lit (t "take ") (Seq (Seq (Cls false [CDigit]) r1) r2)).
Proof. vm_compute. do 2 eexists. reflexivity. Qed.

Lemma dose_compiled_shape :
  exists r1 r2,
    re_compile (t "\d+(\.\d+)?\s*(mg|ml|mcg|unit|units|g|gram|grams)\b")
    = Some (Seq (Seq (Cls false [CDigit]) r1) r2).
Proof. vm_compute. do 2 eexists. reflexivity. Qed.

Lemma rmatch_digit_head :
  forall r1 r2 prev s k x,
    rmatch (Seq (Seq (Cls false [CDigit]) r1) r2) prev s k = Some x ->
    exists c s', s = c :: s' /\ isdecimal c = true.
Proof.
  intros r1 r2 prev s k x H. cbn [rmatch] in H.
  destruct s as [| c s']; [discriminate |].
  destruct (cls_matches false [CDigit] c) eqn:E; [| discriminate].
  exists c, s'. split; [reflexivity |].
  unfold cls_matches in E. cbn [existsb item_matches xorb] in E.
  now rewrite orb_false_r in E.
Qed.

(** X19. A text without a digit goes through the take-phrase pass and the
    dose pass unchanged: both patterns need a number. *)
Theorem passes_need_a_digit :
  forall s,
    Forall (fun c => isdecimal c = false) s ->
    strip_take s = Some s /\ strip_dose s = Some s.
Proof.
  intros s Hs. rewrite Forall_forall in Hs.
  destruct take_compiled_shape as [t1 [t2 Ht]].
  destruct dose_compiled_shape as [d1 [d2 Hd]].
  unfold strip_take, strip_dose, re_sub. rewrite Ht, Hd.
  change (is_literal_repl (t "")) with true. cbv iota.
  split; f_equal; unfold sub; apply sub_loop_unmatched; intros a b Hab.
  - destruct (match_at _ false (last_char None a) b) as [x |] eqn:Em; [| reflexivity].
    exfalso. unfold match_at in Em. apply rmatch_lit in Em.
    destruct Em as [rest [Hb Em]]. apply rmatch_digit_head in Em.
    destruct Em as [c [s' [Hrest Hc]]].
    assert (Hin : In c s).
    { rewrite Hab, Hb, Hrest. apply in_or_app. right. apply in_or_app. right. now left. }
    rewrite (Hs c Hin) in Hc. discriminate.
  - destruct (match_at _ false (last_char None a) b) as [x |] eqn:Em; [| reflexivity].
    exfalso. unfold match_at in Em. apply rmatch_digit_head in Em.
    destruct Em as [c [s' [Hb Hc]]].
    assert (Hin : In c s).
    { rewrite Hab, Hb. apply in_or_app. right. now left. }
    rewrite (Hs c Hin) in Hc. discriminate.
Qed.

(** X19 on a text that has the words of both patterns, but no number. *)
Lemma passes_need_a_digit_witness :
  strip_take (t "take one tablet(s) of mg") = Some (t "take one tablet(s) of mg")
  /\ strip_dose (t "take one tablet(s) of mg") = Some (t "take one tablet(s) of mg").
Proof.
  apply (passes_need_a_digit (t "take one tablet(s) of mg")).
  repeat constructor.
Defined.

(** ** The dose and the take phrase, in closed form *)

Lemma take_compiled :
  re_compile (t "take \d+(\s*\(.*\))? tablet\(s\)?") = Some take_re.
Proof. vm_compute. reflexivity. Qed.

Lemma dose_compiled :
  re_compile (t "\d+(\.\d+)?\s*(mg|ml|mcg|unit|units|g|gram|grams)\b") = Some dose_re.
Proof. vm_compute. reflexivity. Qed.

Lemma rmatch_seq :
  forall r1 r2 prev s k,
    rmatch (Seq r1 r2) prev s k = rmatch r1 prev s (fun p' s' => rmatch r2 p' s' k).
Proof. reflexivity. Qed.

Lemma cls_digit : forall c, cls_matches false [CDigit] c = isdecimal c.
Proof. intros c. unfold cls_matches. simpl. now rewrite orb_false_r. Qed.

(** A greedy class loop runs over the characters of the class and stops
    at the first other character, when the rest of the pattern matches
    there. *)
Lemma star_loop_class :
  forall neg items k n prev b rest x,
    length (b ++ rest) <= n ->
    Forall (fun c => cls_matches neg items c = true) b ->
    match rest with c :: _ => cls_matches neg items c = false | [] => True end ->
    k (last_char prev b) rest = Some x ->
    star_loop (Cls neg items) k n prev (b ++ rest) = Some x.
Proof.
  intros neg items k. induction n as [| n' IH]; intros prev b rest x Hlen Hb Hrest Hk.
  - destruct b; [| simpl in Hlen; lia]. destruct rest; [| simpl in Hlen; lia].
    exact Hk.
  - rewrite star_loop_S. destruct b as [| c b'].
    + cbn [app]. change (last_char prev []) with prev in Hk.
      destruct rest as [| c rest']; [exact Hk |].
      cbn [rmatch]. rewrite Hrest. exact Hk.
    + inversion Hb as [| c0 l Hc Hb']; subst. cbn [app rmatch]. rewrite Hc.
      assert (Hlt : (length (b' ++ rest) <? length (c :: b' ++ rest)) = true)
        by (apply Nat.ltb_lt; simpl; lia).
      rewrite Hlt.
      rewrite (IH (Some c) b' rest x); [reflexivity | | exact Hb' | exact Hrest | exact Hk].
      simpl in Hlen. lia.
Qed.

Lemma rmatch_digits :
  forall n rest prev k x,
    n <> [] ->
    Forall (fun c => isdecimal c = true) n ->
    match rest with c :: _ => isdecimal c = false | [] => True end ->
    k (last_char prev n) rest = Some x ->
    rmatch digits_re prev (n ++ rest) k = Some x.
Proof.
  intros n rest prev k x Hne Hn Hrest Hk.
  destruct n as [| c n']; [contradiction |].
  inversion Hn as [| c0 l Hc Hn']; subst.
  unfold digits_re. rewrite rmatch_seq. cbn [app].
  change (rmatch (Cls false [CDigit]) prev (c :: n' ++ rest) ?k0)
    with (if cls_matches false [CDigit] c then k0 (Some c) (n' ++ rest) else None).
  rewrite cls_digit, Hc. cbv beta. rewrite rmatch_star.
  apply star_loop_class.
  - lia.
  - apply (Forall_impl _ (P := fun c => isdecimal c = true)); [| exact Hn'].
    intros a Ha. now rewrite cls_digit.
  - destruct rest; [exact I |]. now rewrite cls_digit.
  - exact Hk.
Qed.

Lemma space_facts :
  forall c, isspace c = true -> isdecimal c = false /\ Ascii.eqb c "." = false.
Proof. intros c. each_char c; intros; repeat split. Qed.

Lemma rmatch_chr_other :
  forall c r prev s k,
    match s with x :: _ => Ascii.eqb x c = false | [] => True end ->
    rmatch (Seq (Chr c) r) prev s k = None.
Proof.
  intros c r prev s k H. cbn [rmatch]. destruct s as [| x s']; [reflexivity |].
  now rewrite H.
Qed.

(** A unit at the end of the text matches, with the word boundary after
    it. *)
Lemma rmatch_unit :
  forall u prev,
    In u dose_units ->
    rmatch dose_unit_re prev u (fun p' s' => Some (p', s')) = Some (last_char None u, []).
Proof.
  intros u prev Hu. unfold dose_units in Hu.
  repeat (destruct Hu as [Hu | Hu]; [subst u; vm_compute; reflexivity |]).
  destruct Hu.
Qed.

Lemma unit_head :
  forall u, In u dose_units ->
    exists c u', u = c :: u' /\ isspace c = false /\ isdecimal c = false
                 /\ Ascii.eqb c "." = false.
Proof.
  intros u Hu. unfold dose_units in Hu.
  repeat (destruct Hu as [Hu | Hu];
          [subst u; do 2 eexists; split; [reflexivity | repeat split] |]).
  destruct Hu.
Qed.

(** The dose pattern on a number, spaces and a unit that end the text. *)
Lemma match_at_dose :
  forall n frac sp u prev,
    n <> [] ->
    Forall (fun c => isdecimal c = true) n ->
    is_fraction frac ->
    all_space sp ->
    In u dose_units ->
    match_at dose_re false prev (n ++ frac ++ sp ++ u) = Some (last_char None u, []).
Proof.
  intros n frac sp u prev Hne Hn Hfrac Hsp Hu.
  destruct (unit_head u Hu) as [cu [u' [Eu [Hu1 [Hu2 Hu3]]]]].
  assert (Hunits : forall p,
             rmatch (Seq (Star (Cls false [CSpace])) dose_unit_re) p (sp ++ u)
               (fun p' s' => Some (p', s')) = Some (last_char None u, [])).
  { intros p. rewrite rmatch_seq, rmatch_star. apply star_loop_class.
    - lia.
    - apply (Forall_impl _ (P := fun c => isspace c = true)); [| exact Hsp].
      intros a Ha. now rewrite cls_space.
    - rewrite Eu. now rewrite cls_space.
    - now apply rmatch_unit. }
  assert (Hdigit : match sp ++ u with
                   | c :: _ => isdecimal c = false
                   | [] => True
                   end).
  { destruct sp as [| c sp']; cbn [app].
    - now rewrite Eu.
    - inversion Hsp; subst. now apply space_facts. }
  assert (Hdot : match sp ++ u with
                 | c :: _ => Ascii.eqb c "." = false
                 | [] => True
                 end).
  { destruct sp as [| c sp']; cbn [app].
    - now rewrite Eu.
    - inversion Hsp; subst. now apply space_facts. }
  unfold match_at. cbn [andb]. unfold dose_re. rewrite rmatch_seq.
  apply rmatch_digits; [exact Hne | exact Hn | |].
  - destruct Hfrac as [Hf | [m [Hm [Hmd Hf]]]]; subst frac; cbn [app];
      [exact Hdigit | reflexivity].
  - unfold dose_tail_re. rewrite rmatch_seq.
    change (rmatch (Alt ?r1 ?r2) ?p ?s ?k)
      with (match rmatch r1 p s k with Some y => Some y | None => rmatch r2 p s k end).
    destruct Hfrac as [Hf | [m [Hm [Hmd Hf]]]]; subst frac; cbn [app].
    + rewrite rmatch_chr_other by exact Hdot.
      change (rmatch Eps ?p ?s ?k) with (k p s). cbv beta. apply Hunits.
    + rewrite rmatch_seq.
      change (rmatch (Chr ".") ?p ("."%char :: ?s) ?k) with (k (Some "."%char) s).
      cbv beta. rewrite rmatch_seq.
      rewrite (rmatch_digits m (sp ++ u) _ _ (last_char None u, []));
        [reflexivity | exact Hm | exact Hmd | exact Hdigit |].
      change (rmatch Eps ?p ?s ?k) with (k p s). cbv beta. apply Hunits.
Qed.

Lemma match_at_dose_head :
  forall must prev s x,
    match_at dose_re must prev s = Some x ->
    exists c s', s = c :: s' /\ isdecimal c = true.
Proof.
  intros must prev s x H. unfold match_at, dose_re, digits_re in H.
  now apply rmatch_digit_head in H.
Qed.

(** Up to the first digit the text is copied. *)
Lemma sub_loop_dose_prefix :
  forall a fuel prev rest,
    Forall (fun c => isdecimal c = false) a ->
    sub_loop (length a + fuel) dose_re [] false prev (a ++ rest)
    = a ++ sub_loop fuel dose_re [] false (last_char prev a) rest.
Proof.
  induction a as [| c a IH]; intros fuel prev rest Ha; [reflexivity |].
  inversion Ha as [| c0 l Hc Ha']; subst.
  cbn [app length Nat.add sub_loop].
  destruct (match_at dose_re false prev (c :: a ++ rest)) as [x |] eqn:E.
  - apply match_at_dose_head in E. destruct E as [c1 [s1 [E1 E2]]].
    inversion E1; subst. congruence.
  - f_equal. change (last_char prev (c :: a)) with (last_char (Some c) a).
    now apply IH.
Qed.

Lemma sub_loop_dose_nil :
  forall fuel must prev, sub_loop fuel dose_re [] must prev [] = [].
Proof.
  intros [| f] must prev; [reflexivity |]. cbn [sub_loop].
  destruct (match_at dose_re must prev []) as [x |] eqn:E; [| reflexivity].
  apply match_at_dose_head in E. destruct E as [c [s' [E _]]]. discriminate E.
Qed.

(** X20. A dose that ends the text is removed.  After a text without
    digits, a number (digits, then possibly a point and digits), any
    space characters and one of the units mg, ml, mcg, unit, units, g, gram
    and grams are deleted by the dose pass, whatever stands before the
    number: a letter right before it does not protect it. *)
Theorem trailing_dose_removed :
  forall a n frac sp u,
    Forall (fun c => isdecimal c = false) a ->
    n <> [] ->
    Forall (fun c => isdecimal c = true) n ->
    is_fraction frac ->
    all_space sp ->
    In u dose_units ->
    strip_dose (a ++ n ++ frac ++ sp ++ u) = Some a.
Proof.
  intros a n frac sp u Ha Hne Hn Hfrac Hsp Hu.
  unfold strip_dose, re_sub. rewrite dose_compiled.
  change (is_literal_repl (t "")) with true. cbv iota. f_equal. unfold sub.
  set (s := a ++ n ++ frac ++ sp ++ u).
  assert (Hf : exists f, 2 * length s + 2 = length a + S f).
  { exists (2 * length s + 2 - length a - 1). subst s. rewrite length_app. lia. }
  destruct Hf as [f Hf]. rewrite Hf. subst s.
  rewrite sub_loop_dose_prefix by exact Ha.
  cbn [sub_loop]. rewrite match_at_dose by assumption.
  cbn [app]. now rewrite sub_loop_dose_nil, app_nil_r.
Qed.

(** X20 on a drug name with its strength. *)
Lemma trailing_dose_removed_witness :
  strip_dose (t "metformin hcl " ++ t "1" ++ t ".5" ++ t " " ++ t "grams")
  = Some (t "metformin hcl ").
Proof.
  apply (trailing_dose_removed (t "metformin hcl ") (t "1") (t ".5") (t " ") (t "grams")).
  - repeat constructor.
  - discriminate.
  - repeat constructor.
  - right. exists (t "5"). split; [discriminate | split; [repeat constructor | reflexivity]].
  - repeat constructor.
  - unfold dose_units. simpl. tauto.
Defined.

(** *** The take phrase *)

(** The take pattern on the phrase that is the whole text. *)
Lemma match_at_take :
  forall n closing prev,
    n <> [] ->
    Forall (fun c => isdecimal c = true) n ->
    closing = [] \/ closing = t ")" ->
    match_at take_re false prev (t "take " ++ n ++ t " tablet(s" ++ closing)
    = Some (last_char None (t "(s" ++ closing), []).
Proof.
  intros n closing prev Hne Hn Hc.
  unfold match_at. cbn [andb]. unfold take_re.
  rewrite rmatch_lit_head, rmatch_seq.
  apply rmatch_digits; [exact Hne | exact Hn | reflexivity |].
  destruct Hc as [Hc | Hc]; subst closing; vm_compute; reflexivity.
Qed.

(** A match of the take pattern has the three parts of the phrase. *)
Lemma match_at_take_parts :
  forall must prev s x,
    match_at take_re must prev s = Some x ->
    exists number rest,
      s = t "take " ++ number ++ t " tablet(s" ++ rest.
Proof.
  intros must prev s x H. unfold match_at, take_re in H.
  apply rmatch_lit in H. destruct H as [r0 [Hs H]].
  rewrite rmatch_seq in H. apply rmatch_tail in H.
  destruct H as [a1 [p1 [s1 [Hs1 H]]]].
  unfold take_tail_re in H. rewrite rmatch_seq in H. apply rmatch_tail in H.
  destruct H as [a2 [p2 [s2 [Hs2 H]]]].
  apply rmatch_lit in H. destruct H as [r3 [Hs3 _]].
  exists (a1 ++ a2), r3. rewrite Hs, Hs1, Hs2, Hs3. now rewrite <- app_assoc.
Qed.

Lemma sub_loop_take_nil :
  forall fuel must prev, sub_loop fuel take_re [] must prev [] = [].
Proof.
  intros [| f] must prev; [reflexivity |]. cbn [sub_loop].
  destruct (match_at take_re must prev []) as [x |] eqn:E; [| reflexivity].
  apply match_at_take_parts in E. destruct E as [number [rest E]]. discriminate E.
Qed.

(** X21. The take phrase.  The words take, a number and tablet(s), with or
    without the closing bracket, are deleted when they are the whole text;
    but the pattern asks for the bracket before the s: a text in which
    " tablet(s" does not occur, such as take 2 tablets, is left as it
    is. *)
Theorem take_phrase_needs_the_bracket :
  forall n s,
    n <> [] ->
    Forall (fun c => isdecimal c = true) n ->
    ~ occurs (t " tablet(s") s ->
    strip_take (t "take " ++ n ++ t " tablet(s)") = Some []
    /\ strip_take (t "take " ++ n ++ t " tablet(s") = Some []
    /\ strip_take s = Some s.
Proof.
  intros n s Hne Hn Hno.
  assert (Hsub : forall x, strip_take x = Some (sub take_re [] x)).
  { intros x. unfold strip_take, re_sub. now rewrite take_compiled. }
  assert (Hpos : forall closing,
             closing = [] \/ closing = t ")" ->
             sub take_re [] (t "take " ++ n ++ t " tablet(s" ++ closing) = []).
  { intros closing Hc. unfold sub.
    assert (Hf : exists f,
               2 * length (t "take " ++ n ++ t " tablet(s" ++ closing) + 2 = S f)
      by (eexists; rewrite Nat.add_succ_r; reflexivity).
    destruct Hf as [f Hf]. rewrite Hf.
    cbn [sub_loop]. rewrite match_at_take by assumption.
    cbn [app]. apply sub_loop_take_nil. }
  split; [| split].
  - rewrite Hsub. f_equal. apply (Hpos (t ")")). now right.
  - rewrite Hsub. f_equal.
    pose proof (Hpos [] (or_introl eq_refl)) as H. now rewrite app_nil_r in H.
  - rewrite Hsub. f_equal. unfold sub. apply sub_loop_unmatched. intros a b Hab.
    destruct (match_at take_re false (last_char None a) b) as [x |] eqn:E; [| reflexivity].
    exfalso. apply match_at_take_parts in E. destruct E as [number [rest E]].
    apply Hno. exists (a ++ t "take " ++ number), rest.
    rewrite Hab, E. now rewrite <- !app_assoc.
Qed.

(** X21 on the number 2 and on take 2 tablets. *)
Lemma take_phrase_needs_the_bracket_witness :
  strip_take (t "take " ++ t "2" ++ t " tablet(s)") = Some []
  /\ strip_take (t "take " ++ t "2" ++ t " tablet(s") = Some []
  /\ strip_take (t "take 2 tablets") = Some (t "take 2 tablets").
Proof.
  apply (take_phrase_needs_the_bracket (t "2") (t "take 2 tablets")).
  - discriminate.
  - repeat constructor.
  - intros [u [v H]]. unfold t in H. cbn [list_ascii_of_string app] in H.
    do 15 (destruct u as [| ? u]; cbn [app] in H;
           [discriminate H | first [discriminate H | injection H as _ H]]).
Defined.

(** ** The sample run *)

Lemma sample_run :
  main_of (L := sample_libraries) harmonize_py sample_fit
    (Some [drug_row; missing_row]) (Some sample_snomed) (Some sample_rxnorm) None None
  = Written [drug_output; missing_output].
Proof. vm_compute. reflexivity. Qed.

(** A run on the row of a table that was harmonized before: the old
    output column is replaced by the new result and the old intermediate
    column is gone. *)
Lemma stale_columns_run :
  main_of (L := sample_libraries) harmonize_py sample_fit
    (Some [stale_row]) (Some sample_snomed) (Some sample_rxnorm) None None
  = Written
      [{| Input_Row :=
            {| Input_Entity_Description := PyStr (t "Aspirin");
               Entity_Type := PyStr (t "Medication");
               Other_Columns := [(t "Visit", PyInt 9)] |};
          Output_Coding_System := t "RXNORM";
          Output_Target_Code := t "1191";
          Output_Target_Description := t "Aspirin" |}].
Proof. vm_compute. reflexivity. Qed.

(** X13 on the sample run. *)
Lemma written_rows_follow_input_witness :
  [drug_output; missing_output] <> []
  /\ (exists test_df,
        Some [drug_row; missing_row] = Some test_df
        /\ Forall2
             (fun row o =>
                Input_Entity_Description (Input_Row o) = Input_Entity_Description row
                /\ Entity_Type (Input_Row o) = Entity_Type row
                /\ Other_Columns (Input_Row o)
                   = filter (fun column => negb (is_assigned (fst column)))
                       (Other_Columns row)
                /\ (forall name value,
                      In (name, value) (Other_Columns (Input_Row o))
                      <-> In (name, value) (Other_Columns row)
                          /\ ~ In name assigned_columns))
             test_df [drug_output; missing_output])
  /\ Some sample_snomed <> None
  /\ Some sample_rxnorm <> None.
Proof.
  apply (written_rows_follow_input (L := sample_libraries) harmonize_py sample_fit
           (Some [drug_row; missing_row]) (Some sample_snomed) (Some sample_rxnorm)
           None None [drug_output; missing_output]).
  vm_compute. reflexivity.
Defined.

(** X14 on the sample run. *)
Lemma written_codes_come_from_reference_witness :
  exists snomed_df rxnorm_df,
    Some sample_snomed = Some snomed_df
    /\ Some sample_rxnorm = Some rxnorm_df
    /\ Forall
         (fun o =>
            let is_snomed := entity_in (Entity_Type (Input_Row o)) snomed_types in
            let system := if is_snomed then t "SNOMEDCT_US" else t "RXNORM" in
            exists result,
              o = Driver.output_row (Input_Row o) result
              /\ (cleaner_of (L := sample_libraries) harmonize_py
                    (load_correction_map None) (load_redundant_keywords None)
                    (Input_Entity_Description (Input_Row o)) = Some [] ->
                  result = no_input system)
              /\ (result = no_input system
                  \/ result = not_found system
                  \/ exists ref,
                       In ref (if is_snomed then snomed_df else rxnorm_df)
                       /\ result = {| System := system; Code := CODE_cell ref;
                                      Description := STR_cell ref |}))
         [drug_output; missing_output].
Proof.
  apply (written_codes_come_from_reference (L := sample_libraries) harmonize_py sample_fit
           (Some [drug_row; missing_row]) (Some sample_snomed) (Some sample_rxnorm)
           None None [drug_output; missing_output]).
  vm_compute. reflexivity.
Defined.

(** X15 on the first row of the sample run. *)
Lemma rows_are_independent_witness :
  exists o,
    nth_error [drug_output; missing_output] 0 = Some o
    /\ main_of (L := sample_libraries) harmonize_py sample_fit
         (Some [drug_row]) (Some sample_snomed) (Some sample_rxnorm) None None
       = Written [o].
Proof.
  apply (rows_are_independent (L := sample_libraries) harmonize_py sample_fit
           [drug_row; missing_row] (Some sample_snomed) (Some sample_rxnorm)
           None None [drug_output; missing_output] 0 drug_row).
  - vm_compute. reflexivity.
  - reflexivity.
Defined.

(** X17 on the sample tables, with demo.py. *)
Lemma run_completes_witness :
  exists rows,
    main_of (L := sample_libraries) demo_py sample_fit
      (Some [drug_row; missing_row]) (Some sample_snomed) (Some sample_rxnorm) None None
    = Written rows
    /\ length rows = length [drug_row; missing_row].
Proof.
  apply (run_completes (L := sample_libraries) (OK := sample_libraries_ok) demo_py sample_fit
           [drug_row; missing_row] sample_snomed sample_rxnorm None None).
  - discriminate.
  - intros value. destruct value as [s | | z | q |]; [| eexists; reflexivity ..].
    destruct (plain_passes_return [] [] s (Forall_nil _) (Forall_nil _)) as [t7 H7].
    unfold cleaner_of, load_correction_map, load_redundant_keywords.
    rewrite demo_cleaner_passes, H7. cbn [obind]. rewrite tidy_eq.
    eexists. reflexivity.
  - intros data _. discriminate.
  - intros data _. discriminate.
  - intros documents vectorizer matrix H x. unfold sample_fit in H.
    inversion H; subst. cbn [cosine_similarity sample_libraries]. apply length_map.
Defined.
